(** * Puyo engine: a shallow embedding of [src/app/page.tsx]

    [src/app/page.tsx] holds the component [PuyoGameComponent]; an earlier
    version of it, whose [checkForMatches] is still a placeholder, is kept
    next to it.  The model follows the complete version.  The engine half of
    the component is modelled function by function:
    the grid and the falling pair, [getSecondPuyoPosition], [isValidMove],
    [placePuyo], [movePuyo], [rotatePuyo], [findConnectedPuyos],
    [checkForMatches] and [applyGravity].

    - A [PuyoColor] is ['red' | 'green' | 'blue' | 'yellow' | null];
      [None] stands for [null].
    - A [Grid] is [PuyoColor[][]], a list of rows, indexed [grid[y][x]].
    - Coordinates and the rotation are JavaScript numbers that only ever hold
      small integers; they are modelled in [Z].
    - A [Set<string>] of keys ["x,y"] is a [gset (Z * Z)]: the key text is an
      injective print of the two integers and is only ever split back into
      them.
    - The React state of the component is the record [Game]; a handler is a
      function from [Game] to an [outcome]. *)

From Stdlib Require Import QArith.
From stdpp Require Import base option list numbers gmap fin_sets strings.

Local Open Scope Z_scope.

Set Warnings "-clear-no-such-hyp".

(** ** Types and constants *)

Inductive Color := Red | Green | Blue | Yellow.

Abbreviation PuyoColor := (option Color).

Inductive GameState := Title | Active | Over | Pause.

Abbreviation Grid := (list (list PuyoColor)).

Definition GRID_ROWS : Z := 12.
Definition GRID_COLS : Z := 6.

Definition COLORS : list PuyoColor := [Some Red; Some Green; Some Blue; Some Yellow].

#[global] Instance Color_eq_dec : EqDecision Color.
Proof. solve_decision. Defined.

#[global] Instance GameState_eq_dec : EqDecision GameState.
Proof. solve_decision. Defined.

Definition createEmptyGrid : Grid :=
  replicate (Z.to_nat GRID_ROWS) (replicate (Z.to_nat GRID_COLS) None).

Module PuyoPair.
Record t := mk {
  color1 : PuyoColor;
  color2 : PuyoColor;
  x : Z;
  y : Z;
  rotation : Z
}.
End PuyoPair.

Abbreviation PuyoPair := PuyoPair.t.

(** A cell key, the pair behind the string ["x,y"]. *)
Abbreviation key := (Z * Z)%type.

(** ** Reading and writing cells *)

(** [grid[y][x]] for a read that the source guards with its bound checks
    against [GRID_ROWS] and [GRID_COLS]: on a 12 by 6 grid the cell exists.
    Elsewhere the model answers [None]. *)
Definition cellAt (grid : Grid) (x y : Z) : PuyoColor :=
  if bool_decide (0 ≤ x) && bool_decide (0 ≤ y) then
    match grid !! Z.to_nat y with
    | Some row => default None (row !! Z.to_nat x)
    | None => None
    end
  else None.

(** [grid[y][x] = c] for a write whose indices a loop keeps in range. *)
Definition setCell (grid : Grid) (x y : Z) (c : PuyoColor) : Grid :=
  alter (λ row, <[Z.to_nat x := c]> row) (Z.to_nat y) grid.

(** What an unguarded [grid[y][x] = c] does.  When [grid[y]] is [undefined]
    the assignment throws a [TypeError] ([NoRow]).  When the row exists but
    [x] is not one of its indices, JavaScript stores the value outside the
    cells of the row (it grows the array, or sets a property for a negative
    index): the result is no longer a matrix ([OffRow]). *)
Inductive written :=
  | Stored (grid : Grid)
  | NoRow
  | OffRow.

Definition storeCell (grid : Grid) (x y : Z) (c : PuyoColor) : written :=
  if bool_decide (0 ≤ y) then
    match grid !! Z.to_nat y with
    | Some row =>
        if bool_decide (0 ≤ x ∧ x < Z.of_nat (length row))
        then Stored (setCell grid x y c)
        else OffRow
    | None => NoRow
    end
  else NoRow.

(** The shape every grid of the component has: [GRID_ROWS] rows of
    [GRID_COLS] cells. *)
Definition wf_grid (grid : Grid) : Prop :=
  length grid = Z.to_nat GRID_ROWS ∧
  Forall (λ row, length row = Z.to_nat GRID_COLS) grid.

Definition in_bounds (x y : Z) : Prop :=
  0 ≤ x ∧ x < GRID_COLS ∧ 0 ≤ y ∧ y < GRID_ROWS.

#[global] Instance in_bounds_dec x y : Decision (in_bounds x y).
Proof. unfold in_bounds. apply _. Defined.

(** ** Movement validator *)

Definition getSecondPuyoPosition (x y rotation : Z) : Z * Z :=
  match rotation with
  | 0 => (x, y - 1)
  | 1 => (x + 1, y)
  | 2 => (x, y + 1)
  | 3 => (x - 1, y)
  | _ => (x, y)
  end.

(** JavaScript truthiness of a cell: [null] is falsy, a colour name is a
    non-empty string and so truthy. *)
Definition truthy (c : PuyoColor) : bool :=
  match c with Some _ => true | None => false end.

(** The conjunction of the source, left to right; [&&] only reads the grid
    once all eight comparisons have passed. *)
Definition isValidMove (grid : Grid) (puyo : PuyoPair) : bool :=
  let x := PuyoPair.x puyo in
  let y := PuyoPair.y puyo in
  let '(x2, y2) := getSecondPuyoPosition x y (PuyoPair.rotation puyo) in
  if (x >=? 0) && (x <? GRID_COLS) && (y >=? 0) && (y <? GRID_ROWS) &&
     (x2 >=? 0) && (x2 <? GRID_COLS) && (y2 >=? 0) && (y2 <? GRID_ROWS)
  then negb (truthy (cellAt grid x y)) && negb (truthy (cellAt grid x2 y2))
  else false.

(** ** Connected groups: [findConnectedPuyos] *)

(** The recursion of the source threads one mutable [visited] set through the
    four calls; here the set is passed and returned.  A call that goes on
    adds a fresh in-bounds key, so the nesting depth is at most the number of
    cells plus one; [fuel] counts the nesting and [None] means it ran out. *)
Fixpoint findConnectedPuyos_fuel (fuel : nat) (grid : Grid) (x y : Z)
    (color : PuyoColor) (visited : gset key) : option (gset key) :=
  match fuel with
  | O => None
  | S fuel =>
      if (x <? 0) || (x >=? GRID_COLS) || (y <? 0) || (y >=? GRID_ROWS) ||
         negb (bool_decide (cellAt grid x y = color)) ||
         bool_decide ((x, y) ∈ visited)
      then Some visited
      else
        let visited := visited ∪ {[ (x, y) ]} in
        visited ← findConnectedPuyos_fuel fuel grid (x + 1) y color visited;
        visited ← findConnectedPuyos_fuel fuel grid (x - 1) y color visited;
        visited ← findConnectedPuyos_fuel fuel grid x (y + 1) color visited;
        findConnectedPuyos_fuel fuel grid x (y - 1) color visited
  end.

Definition search_fuel : nat := S (Z.to_nat (GRID_ROWS * GRID_COLS)).

(** The call of [checkForMatches]: [visited] defaults to a new empty set. *)
Definition findConnectedPuyos (grid : Grid) (x y : Z) (color : PuyoColor)
    : option (gset key) :=
  findConnectedPuyos_fuel search_fuel grid x y color ∅.

(** ** Gravity: [applyGravity] *)

(** The inner loop [for (y = GRID_ROWS - 1; y >= 0; y--)] of one column,
    with [rows = y + 1] iterations still to run. *)
Fixpoint gravityColumn (newGrid : Grid) (x : Z) (rows : nat) (writeY : Z) : Grid :=
  match rows with
  | O => newGrid
  | S rows =>
      let y := Z.of_nat rows in
      if bool_decide (cellAt newGrid x y ≠ None) then
        let newGrid := setCell newGrid x writeY (cellAt newGrid x y) in
        let newGrid :=
          if bool_decide (writeY ≠ y) then setCell newGrid x y None else newGrid in
        gravityColumn newGrid x rows (writeY - 1)
      else gravityColumn newGrid x rows writeY
  end.

Definition applyGravity (grid : Grid) : Grid :=
  foldl (λ newGrid x, gravityColumn newGrid x (Z.to_nat GRID_ROWS) (GRID_ROWS - 1))
        grid (seqZ 0 GRID_COLS).

(** ** Chain resolution: the loop of [checkForMatches] *)

(** The cells in the order of the two nested [for] loops: rows from the top,
    columns from the left. *)
Definition scanOrder : list key :=
  y ← seqZ 0 GRID_ROWS; x ← seqZ 0 GRID_COLS; [(x, y)].

(** The body of the nested loops for one cell, on the pair
    [(hasMatches, matchedPuyos)]. *)
Definition scanCell (newGrid : Grid) (acc : bool * gset key) (k : key)
    : option (bool * gset key) :=
  let '(x, y) := k in
  if truthy (cellAt newGrid x y) then
    matches ← findConnectedPuyos newGrid x y (cellAt newGrid x y);
    if bool_decide (4 ≤ size matches)%nat
    then Some (true, acc.2 ∪ matches)
    else Some acc
  else Some acc.

Fixpoint scanCells (newGrid : Grid) (cells : list key) (acc : bool * gset key)
    : option (bool * gset key) :=
  match cells with
  | [] => Some acc
  | k :: cells => acc ← scanCell newGrid acc k; scanCells newGrid cells acc
  end.

Definition scanMatches (newGrid : Grid) : option (bool * gset key) :=
  scanCells newGrid scanOrder (false, ∅).

(** [matchedPuyos.forEach(match => newGrid[y][x] = null)]. *)
Definition removeMatched (newGrid : Grid) (matchedPuyos : gset key) : Grid :=
  foldr (λ k g, setCell g k.1 k.2 None) newGrid (elements matchedPuyos).

(** The points of one pass.  [Math.pow(2, chainCount - 1)] is only evaluated
    with [chainCount ≥ 1], where it is the integer power. *)
Definition passPoints (puyosCleared chainCount : Z) : Z :=
  let chainMultiplier := 2 ^ (chainCount - 1) in
  let groupSizeBonus := Z.max 0 (puyosCleared - 4) * 5 in
  puyosCleared * 10 * chainMultiplier + groupSizeBonus.

(** The [do ... while (hasMatches)] loop on [(newGrid, chainCount)] and the
    running score; [fuel] counts the passes. *)
Fixpoint resolveChain (fuel : nat) (newGrid : Grid) (chainCount score : Z)
    : option (Grid * Z * Z) :=
  match fuel with
  | O => None
  | S fuel =>
      '(hasMatches, matchedPuyos) ← scanMatches newGrid;
      if hasMatches : bool then
        let chainCount := chainCount + 1 in
        let newGrid := removeMatched newGrid matchedPuyos in
        let puyosCleared := Z.of_nat (size matchedPuyos) in
        let points := passPoints puyosCleared chainCount in
        let newGrid := applyGravity newGrid in
        resolveChain fuel newGrid chainCount (score + points)
      else Some (newGrid, chainCount, score)
  end.

Definition chain_fuel : nat := S (Z.to_nat (GRID_ROWS * GRID_COLS)).

(** ** The component state and its handlers *)

Module Game.
Record t := mk {
  grid : Grid;
  gameState : GameState;
  score : Z;
  currentPuyo : option PuyoPair;
  nextPuyo : option PuyoPair;
  chainCounter : Z;
  isPaused : bool
}.

Definition setGrid (g : Grid) (s : t) : t :=
  mk g (gameState s) (score s) (currentPuyo s) (nextPuyo s) (chainCounter s) (isPaused s).
Definition setGameState (st : GameState) (s : t) : t :=
  mk (grid s) st (score s) (currentPuyo s) (nextPuyo s) (chainCounter s) (isPaused s).
Definition setScore (n : Z) (s : t) : t :=
  mk (grid s) (gameState s) n (currentPuyo s) (nextPuyo s) (chainCounter s) (isPaused s).
Definition setCurrentPuyo (p : option PuyoPair) (s : t) : t :=
  mk (grid s) (gameState s) (score s) p (nextPuyo s) (chainCounter s) (isPaused s).
Definition setNextPuyo (p : option PuyoPair) (s : t) : t :=
  mk (grid s) (gameState s) (score s) (currentPuyo s) p (chainCounter s) (isPaused s).
Definition setChainCounter (n : Z) (s : t) : t :=
  mk (grid s) (gameState s) (score s) (currentPuyo s) (nextPuyo s) n (isPaused s).
Definition setIsPaused (b : bool) (s : t) : t :=
  mk (grid s) (gameState s) (score s) (currentPuyo s) (nextPuyo s) (chainCounter s) b.
End Game.

Abbreviation Game := Game.t.

(** How a handler ends. *)
Inductive outcome :=
  | Next (s : Game)      (* ran to the end; [s] holds the queued updates *)
  | Threw (s : Game)     (* a [TypeError] escaped; [s] is the state left behind *)
  | Misshapen            (* a cell was stored outside the matrix *)
  | OutOfFuel.           (* the model of a loop ran out of fuel *)

Inductive Direction := Left | Right | Down.
Inductive Turn := TurnLeft | TurnRight.

#[global] Instance Direction_eq_dec : EqDecision Direction.
Proof. solve_decision. Defined.

(** [randomPuyoColor] picks [COLORS[i]] for a random index [i] of [COLORS];
    the pick is the argument.  [generatePuyoPair] draws two. *)
Definition randomPuyoColor (pick : Color) : PuyoColor := Some pick.

Definition generatePuyoPair (pick1 pick2 : Color) : PuyoPair :=
  PuyoPair.mk (randomPuyoColor pick1) (randomPuyoColor pick2) 2 0 0.

Definition initialGame : Game :=
  Game.mk createEmptyGrid Title 0 None None 0 false.

Definition startGame (a1 a2 b1 b2 : Color) (s : Game) : Game :=
  let s := Game.setGrid createEmptyGrid s in
  let s := Game.setScore 0 s in
  let s := Game.setChainCounter 0 s in
  let s := Game.setCurrentPuyo (Some (generatePuyoPair a1 a2)) s in
  let s := Game.setNextPuyo (Some (generatePuyoPair b1 b2)) s in
  let s := Game.setGameState Active s in
  Game.setIsPaused false s.

Definition togglePause (s : Game) : Game :=
  Game.setIsPaused (negb (Game.isPaused s)) s.

(** [newGrid[1].some(cell => cell !== null)]; every grid of the component
    has a row 1. *)
Definition rowOneOccupied (newGrid : Grid) : bool :=
  match newGrid !! 1%nat with
  | Some row => existsb (λ cell, bool_decide (cell ≠ None)) row
  | None => false
  end.

(** [checkForMatches(grid)], called from [placePuyo] on state [s]; [nextPuyo]
    is read from the closure, that is from [s].  [fresh1], [fresh2] are the
    picks of the one [generatePuyoPair()] call. *)
Definition checkForMatches (fresh1 fresh2 : Color) (s : Game) (grid : Grid) : outcome :=
  match resolveChain chain_fuel grid 0 (Game.score s) with
  | None => OutOfFuel
  | Some (newGrid, chainCount, score) =>
      let s1 := Game.setScore score s in
      let s1 := Game.setGrid newGrid s1 in
      let s1 := Game.setCurrentPuyo (Game.nextPuyo s) s1 in
      let s1 := Game.setNextPuyo (Some (generatePuyoPair fresh1 fresh2)) s1 in
      let s1 := Game.setChainCounter 0 s1 in
      Next (if rowOneOccupied newGrid then Game.setGameState Over s1 else s1)
  end.

(** [placePuyo()].  [newGrid = [...grid]] copies the array of rows, not the
    rows: the two stores write into the rows of the state's grid.  If the
    second store throws, the first has already changed the state's grid. *)
Definition placePuyo (fresh1 fresh2 : Color) (s : Game) : outcome :=
  match Game.currentPuyo s with
  | None => Next s
  | Some cur =>
      let x := PuyoPair.x cur in
      let y := PuyoPair.y cur in
      let '(x2, y2) := getSecondPuyoPosition x y (PuyoPair.rotation cur) in
      match storeCell (Game.grid s) x y (PuyoPair.color1 cur) with
      | NoRow => Threw s
      | OffRow => Misshapen
      | Stored newGrid =>
          match storeCell newGrid x2 y2 (PuyoPair.color2 cur) with
          | NoRow => Threw (Game.setGrid newGrid s)
          | OffRow => Misshapen
          | Stored newGrid =>
              let s := Game.setGrid newGrid s in
              let s := Game.setCurrentPuyo None s in
              checkForMatches fresh1 fresh2 s newGrid
          end
      end
  end.

(** The piece [newPuyo] that [movePuyo] hands to the validator. *)
Definition shifted (direction : Direction) (cur : PuyoPair) : PuyoPair :=
  let x := PuyoPair.x cur in
  let y := PuyoPair.y cur in
  let x := if bool_decide (direction = Left) then x - 1 else x in
  let x := if bool_decide (direction = Right) then x + 1 else x in
  let y := if bool_decide (direction = Down) then y + 1 else y in
  PuyoPair.mk (PuyoPair.color1 cur) (PuyoPair.color2 cur) x y (PuyoPair.rotation cur).

Definition movePuyo (direction : Direction) (fresh1 fresh2 : Color) (s : Game) : outcome :=
  match Game.currentPuyo s with
  | None => Next s
  | Some cur =>
      if bool_decide (Game.gameState s ≠ Active) || Game.isPaused s then Next s
      else
        let newPuyo := shifted direction cur in
        if isValidMove (Game.grid s) newPuyo then
          Next (Game.setCurrentPuyo (Some newPuyo) s)
        else if bool_decide (direction = Down) then placePuyo fresh1 fresh2 s
        else Next s
  end.

(** The piece [newPuyo] of [rotatePuyo]; [%] is the remainder that takes the
    sign of the dividend, [Z.rem]. *)
Definition turned (direction : Turn) (cur : PuyoPair) : PuyoPair :=
  let delta := match direction with TurnLeft => -1 | TurnRight => 1 end in
  PuyoPair.mk (PuyoPair.color1 cur) (PuyoPair.color2 cur)
              (PuyoPair.x cur) (PuyoPair.y cur)
              (Z.rem (PuyoPair.rotation cur + delta + 4) 4).

Definition rotatePuyo (direction : Turn) (s : Game) : outcome :=
  match Game.currentPuyo s with
  | None => Next s
  | Some cur =>
      if bool_decide (Game.gameState s ≠ Active) || Game.isPaused s then Next s
      else
        let newPuyo := turned direction cur in
        if isValidMove (Game.grid s) newPuyo then
          Next (Game.setCurrentPuyo (Some newPuyo) s)
        else Next s
  end.

(** ** Runs of the component *)

(** What can happen to the component: the two buttons, the five keys and
    the fall tick (a [Down] move), each with the random picks it may use. *)
Inductive Event :=
  | EvStart (a1 a2 b1 b2 : Color)
  | EvTogglePause
  | EvMove (direction : Direction) (fresh1 fresh2 : Color)
  | EvRotate (direction : Turn).

Definition handle (e : Event) (s : Game) : outcome :=
  match e with
  | EvStart a1 a2 b1 b2 => Next (startGame a1 a2 b1 b2 s)
  | EvTogglePause => Next (togglePause s)
  | EvMove direction fresh1 fresh2 => movePuyo direction fresh1 fresh2 s
  | EvRotate direction => rotatePuyo direction s
  end.

Inductive reachable : Game → Prop :=
  | reachable_initial : reachable initialGame
  | reachable_next s e s' : reachable s → handle e s = Next s' → reachable s'.

(** Runs a list of events from a state, stopping at the first handler that
    does not end normally. *)
Fixpoint run (events : list Event) (s : Game) : outcome :=
  match events with
  | [] => Next s
  | e :: events =>
      match handle e s with
      | Next s' => run events s'
      | o => o
      end
  end.

(** ** The vocabulary of the specification *)

Definition adjacent (p q : key) : Prop :=
  q = (p.1 + 1, p.2) ∨ q = (p.1 - 1, p.2) ∨ q = (p.1, p.2 + 1) ∨ q = (p.1, p.2 - 1).

(** [p] is a cell of the grid that holds colour [c]. *)
Definition coloured (grid : Grid) (c : Color) (p : key) : Prop :=
  in_bounds p.1 p.2 ∧ cellAt grid p.1 p.2 = Some c.

(** [q] is joined to [p] by a path of up, down, left and right steps through
    cells of colour [c]. *)
Inductive connected (grid : Grid) (c : Color) (p : key) : key → Prop :=
  | connected_refl : coloured grid c p → connected grid c p p
  | connected_step q r :
      connected grid c p q → adjacent q r → coloured grid c r →
      connected grid c p r.

(** [G] is the group of [p]: the cells connected to [p]. *)
Definition is_group (grid : Grid) (c : Color) (p : key) (G : gset key) : Prop :=
  ∀ q, q ∈ G ↔ connected grid c p q.

(** [p] lies in a group of at least four cells. *)
Definition qualifies (grid : Grid) (p : key) : Prop :=
  ∃ c G, is_group grid c p G ∧ p ∈ G ∧ (4 ≤ size G)%nat.

(** Column [x] of a grid, from the top row down. *)
Definition column (grid : Grid) (x : Z) : list PuyoColor :=
  (λ row, default None (row !! Z.to_nat x)) <$> grid.

(** The stable partition of a column that puts the empty cells first (on
    top) and the others after them (at the bottom), each part in order. *)
Definition stablePartition (col : list PuyoColor) : list PuyoColor :=
  filter (λ c, c = None) col ++ filter (λ c, c ≠ None) col.

(** The number of non-empty cells of a grid, counted column by column. *)
Definition occupiedIn (col : list PuyoColor) : nat :=
  length (filter (λ c, c ≠ None) col).

Definition occupied (grid : Grid) : nat :=
  sum_list ((λ x, occupiedIn (column grid x)) <$> seqZ 0 GRID_COLS).

(** The keys of all cells of the grid. *)
Definition cells : gset key := list_to_set scanOrder.

(** A cell that [findConnectedPuyos] enters: in bounds, of the colour looked
    for and not yet visited. *)
Definition enterable (grid : Grid) (color : PuyoColor) (visited : gset key)
    (x y : Z) : Prop :=
  in_bounds x y ∧ cellAt grid x y = color ∧ (x, y) ∉ visited.

(** What a call of [findConnectedPuyos] at [(x, y)] that starts from
    [visited] and ends with [result] has done: it kept what was visited,
    entered its own cell when that was enterable, added only cells connected
    to its own, and left no cell that it added with a neighbour of the colour
    outside the result. *)
Definition searched (grid : Grid) (c : Color) (x y : Z)
    (visited result : gset key) : Prop :=
  visited ⊆ result ∧
  (enterable grid (Some c) visited x y → (x, y) ∈ result) ∧
  (∀ q, q ∈ result → q ∉ visited → connected grid c (x, y) q) ∧
  (∀ q r, q ∈ result → q ∉ visited → adjacent q r → coloured grid c r →
          r ∈ result).

(** ** The invariant of a run *)

(** A piece as [generatePuyoPair] makes it: at column 2, row 0, pointing up. *)
Definition spawned (p : PuyoPair) : Prop :=
  PuyoPair.x p = 2 ∧ PuyoPair.y p = 0 ∧ PuyoPair.rotation p = 0.

(** Both cells of the piece carry a colour. *)
Definition solid (p : PuyoPair) : Prop :=
  PuyoPair.color1 p ≠ None ∧ PuyoPair.color2 p ≠ None.

(** Rows 0 and 1 are empty. *)
Definition topClear (grid : Grid) : Prop :=
  ∀ x, 0 ≤ x < GRID_COLS → cellAt grid x 0 = None ∧ cellAt grid x 1 = None.

(** What holds in every state of a run: the grid keeps its shape, and while
    the game is active its two top rows are empty, the falling piece is
    either freshly spawned or at a position the validator accepted, and the
    next piece is a spawned one. *)
Definition invariant (s : Game) : Prop :=
  wf_grid (Game.grid s) ∧
  (Game.gameState s = Active →
     topClear (Game.grid s) ∧
     (∃ cur, Game.currentPuyo s = Some cur ∧ solid cur ∧
             0 ≤ PuyoPair.rotation cur < 4 ∧
             (spawned cur ∨ isValidMove (Game.grid s) cur = true)) ∧
     (∃ nxt, Game.nextPuyo s = Some nxt ∧ solid nxt ∧ spawned nxt)).

(** ** Further vocabulary *)

(** No occupied cell has an empty cell right below it. *)
Definition settled (grid : Grid) : Prop :=
  ∀ x y, in_bounds x y → in_bounds x (y + 1) →
         cellAt grid x y ≠ None → cellAt grid x (y + 1) ≠ None.

(** The same for one column, listed from the top. *)
Definition settledColumn (col : list PuyoColor) : Prop :=
  ∀ i c below, col !! i = Some (Some c) → col !! S i = Some below → below ≠ None.

(** [s'] differs from [s] at most in where the falling piece is and how it
    is turned: the grid, the score, the game state, the queued piece, the
    chain counter and the pause flag are those of [s], and the falling piece
    has the colours it had. *)
Definition onlyPieceMoved (s s' : Game) : Prop :=
  Game.grid s' = Game.grid s ∧
  Game.gameState s' = Game.gameState s ∧
  Game.score s' = Game.score s ∧
  Game.nextPuyo s' = Game.nextPuyo s ∧
  Game.chainCounter s' = Game.chainCounter s ∧
  Game.isPaused s' = Game.isPaused s ∧
  match Game.currentPuyo s, Game.currentPuyo s' with
  | Some cur, Some cur' =>
      PuyoPair.color1 cur' = PuyoPair.color1 cur ∧
      PuyoPair.color2 cur' = PuyoPair.color2 cur
  | None, None => True
  | _, _ => False
  end.

(** The events that ask for a move or a turn of the falling piece. *)
Definition isRequest (e : Event) : Prop :=
  match e with
  | EvMove _ _ _ | EvRotate _ => True
  | _ => False
  end.

(** ** The keyboard: [handleKeyPress] *)

(** [e.key.toLowerCase()].  A key name is modelled as a string of bytes and
    only the letters A to Z are changed; no other character is turned into
    one of the letters the handler looks for. *)
Definition lowerAscii (a : Ascii.ascii) : Ascii.ascii :=
  let n := Ascii.N_of_ascii a in
  if ((65 <=? n) && (n <=? 90))%N then Ascii.ascii_of_N (n + 32) else a.

Fixpoint toLowerCase (key : string) : string :=
  match key with
  | EmptyString => EmptyString
  | String a key => String (lowerAscii a) (toLowerCase key)
  end.

(** A call [playSound(frequency, duration)]: a request to the audio context,
    which plays it when there is one. *)
Abbreviation Sound := (Z * Q)%type.

(** Whether [grid[y]] is a row of the grid: a store [grid[y][x] = c] throws
    a [TypeError] exactly when it is not. *)
Definition hasRow (grid : Grid) (y : Z) : bool :=
  bool_decide (0 ≤ y < Z.of_nat (length grid)).

(** Whether a handler that ended with [o] on the state [s] came back to the
    listener.  A handler that ran to its end did, one that threw did not.
    [Misshapen] stands for a store of [placePuyo] outside the cells of an
    existing row, which does not stop the code: [placePuyo] makes both of
    its stores, each of which throws when its row does not exist, and goes
    on through [checkForMatches], which reads and writes columns 0 to 5 of
    rows 0 to 11 only and returns. *)
Definition cameBack (s : Game) (o : outcome) : bool :=
  match o with
  | Next _ => true
  | Threw _ => false
  | Misshapen =>
      match Game.currentPuyo s with
      | Some cur =>
          let x := PuyoPair.x cur in
          let y := PuyoPair.y cur in
          let '(x2, y2) := getSecondPuyoPosition x y (PuyoPair.rotation cur) in
          hasRow (Game.grid s) y && hasRow (Game.grid s) y2
      | None => true
      end
  | OutOfFuel => false
  end.

(** [handler(); playSound(frequency, duration); break] in the state [s]: the
    sound is asked for when the handler has come back. *)
Definition thenSound (s : Game) (o : outcome) (frequency : Z) (duration : Q)
    : outcome * list Sound :=
  (o, if cameBack s o then [(frequency, duration)] else []).

(** The [keydown] listener on the state [s] of its closure.  [togglePause]
    queues its update; the test [if (isPaused) return] reads the flag of the
    closure, the one before the toggle; the [switch] compares the lowered
    key with its five cases in order.  The list holds the calls of
    [playSound] the listener makes itself, not those of [checkForMatches]. *)
Definition handleKeyPress (key : string) (fresh1 fresh2 : Color) (s : Game)
    : outcome * list Sound :=
  let lower := toLowerCase key in
  let toggled := if bool_decide (lower = "escape") then togglePause s else s in
  if Game.isPaused s then (Next toggled, [])
  else if bool_decide (lower = "a") then
    thenSound s (movePuyo Left fresh1 fresh2 s) 300 0.1
  else if bool_decide (lower = "d") then
    thenSound s (movePuyo Right fresh1 fresh2 s) 300 0.1
  else if bool_decide (lower = "s") then
    thenSound s (movePuyo Down fresh1 fresh2 s) 200 0.1
  else if bool_decide (lower = "o") then
    thenSound s (rotatePuyo TurnLeft s) 400 0.1
  else if bool_decide (lower = "p") then
    thenSound s (rotatePuyo TurnRight s) 400 0.1
  else (Next toggled, []).

(** ** The high score *)

(** The values the high score can take: what [parseInt] returns, [NaN] or
    an integer, and the scores. *)
Inductive JsNumber := NaN | Num (z : Z).

(** The high score of the component and the item ['puyoPuyoHighScore'] of
    the local storage ([None] when there is none). *)
Module Persisted.
Record t := mk {
  highScore : JsNumber;
  stored : option string
}.
End Persisted.

Abbreviation Persisted := Persisted.t.

(** [score > highScore]; a comparison with [NaN] is false. *)
Definition exceeds (score : Z) (highScore : JsNumber) : bool :=
  match highScore with
  | NaN => false
  | Num h => bool_decide (h < score)
  end.

(** The effect that runs once, on mount:
    [if (storedHighScore) setHighScore(parseInt(storedHighScore, 10))].  A
    missing item and the empty string are falsy.  [parseInt] is the
    built-in, taken as a parameter. *)
Definition loadHighScore (parseInt : string → JsNumber) (p : Persisted) : Persisted :=
  match Persisted.stored p with
  | Some text =>
      if bool_decide (text = "") then p
      else Persisted.mk (parseInt text) (Persisted.stored p)
  | None => p
  end.

(** The effect on [score] and [highScore]; [toString] is the built-in
    [Number.prototype.toString], taken as a parameter. *)
Definition saveHighScore (toString : Z → string) (score : Z) (p : Persisted)
    : Persisted :=
  if exceeds score (Persisted.highScore p)
  then Persisted.mk (Num score) (Some (toString score))
  else p.

(** A run with the high score effect after every event. *)
Fixpoint runSaving (toString : Z → string) (events : list Event) (s : Game)
    (p : Persisted) : outcome * Persisted :=
  match events with
  | [] => (Next s, p)
  | e :: events =>
      match handle e s with
      | Next s' => runSaving toString events s' (saveHighScore toString (Game.score s') p)
      | o => (o, p)
      end
  end.

(** ** The earlier version of the component

    The second source file is an earlier [PuyoGame]: the same grid, pieces,
    validator and stores, no pause flag, and a [checkForMatches] that only
    swaps in the queued piece.  Its state is modelled by the same record
    [Game]; the pause flag is not part of it and is left alone. *)

Module Earlier.

(** [checkForMatches(grid)]: logs a line, takes the queued piece as the
    falling piece and queues a fresh one.  Nothing is cleared, the score is
    not touched and no game over is looked for. *)
Definition checkForMatches (fresh1 fresh2 : Color) (s : Game) (grid : Grid) : outcome :=
  let s1 := Game.setCurrentPuyo (Game.nextPuyo s) s in
  Next (Game.setNextPuyo (Some (generatePuyoPair fresh1 fresh2)) s1).

Definition placePuyo (fresh1 fresh2 : Color) (s : Game) : outcome :=
  match Game.currentPuyo s with
  | None => Next s
  | Some cur =>
      let x := PuyoPair.x cur in
      let y := PuyoPair.y cur in
      let '(x2, y2) := getSecondPuyoPosition x y (PuyoPair.rotation cur) in
      match storeCell (Game.grid s) x y (PuyoPair.color1 cur) with
      | NoRow => Threw s
      | OffRow => Misshapen
      | Stored newGrid =>
          match storeCell newGrid x2 y2 (PuyoPair.color2 cur) with
          | NoRow => Threw (Game.setGrid newGrid s)
          | OffRow => Misshapen
          | Stored newGrid =>
              let s := Game.setGrid newGrid s in
              let s := Game.setCurrentPuyo None s in
              checkForMatches fresh1 fresh2 s newGrid
          end
      end
  end.

Definition movePuyo (direction : Direction) (fresh1 fresh2 : Color) (s : Game) : outcome :=
  match Game.currentPuyo s with
  | None => Next s
  | Some cur =>
      if bool_decide (Game.gameState s ≠ Active) then Next s
      else
        let newPuyo := shifted direction cur in
        if isValidMove (Game.grid s) newPuyo then
          Next (Game.setCurrentPuyo (Some newPuyo) s)
        else if bool_decide (direction = Down) then placePuyo fresh1 fresh2 s
        else Next s
  end.

Definition rotatePuyo (direction : Turn) (s : Game) : outcome :=
  match Game.currentPuyo s with
  | None => Next s
  | Some cur =>
      if bool_decide (Game.gameState s ≠ Active) then Next s
      else
        let newPuyo := turned direction cur in
        if isValidMove (Game.grid s) newPuyo then
          Next (Game.setCurrentPuyo (Some newPuyo) s)
        else Next s
  end.

Definition startGame (a1 a2 b1 b2 : Color) (s : Game) : Game :=
  let s := Game.setGrid createEmptyGrid s in
  let s := Game.setScore 0 s in
  let s := Game.setChainCounter 0 s in
  let s := Game.setCurrentPuyo (Some (generatePuyoPair a1 a2)) s in
  let s := Game.setNextPuyo (Some (generatePuyoPair b1 b2)) s in
  Game.setGameState Active s.

(** The start button, the five keys and the fall tick. *)
Inductive Event :=
  | EvStart (a1 a2 b1 b2 : Color)
  | EvMove (direction : Direction) (fresh1 fresh2 : Color)
  | EvRotate (direction : Turn).

Definition handle (e : Event) (s : Game) : outcome :=
  match e with
  | EvStart a1 a2 b1 b2 => Next (startGame a1 a2 b1 b2 s)
  | EvMove direction fresh1 fresh2 => movePuyo direction fresh1 fresh2 s
  | EvRotate direction => rotatePuyo direction s
  end.

Inductive reachable : Game → Prop :=
  | reachable_initial : reachable initialGame
  | reachable_next s e s' : reachable s → handle e s = Next s' → reachable s'.

Fixpoint run (events : list Event) (s : Game) : outcome :=
  match events with
  | [] => Next s
  | e :: events =>
      match handle e s with
      | Next s' => run events s'
      | o => o
      end
  end.

Definition stateAfter (events : list Event) : Game :=
  match run events initialGame with
  | Next s => s
  | _ => initialGame
  end.

(** Six pieces stacked in column 2, the sixth in rows 1 and 0, and the
    seventh just spawned on top of them. *)
Definition gameStackedToTop : Game :=
  stateAfter (EvStart Red Green Blue Yellow
              :: replicate 12 (EvMove Down Red Green)
              ++ replicate 10 (EvMove Down Blue Yellow)
              ++ replicate 8 (EvMove Down Red Green)
              ++ replicate 6 (EvMove Down Blue Yellow)
              ++ replicate 4 (EvMove Down Red Green)
              ++ replicate 2 (EvMove Down Blue Yellow)).

End Earlier.

(** What holds in every state of a run of the earlier version. *)
Definition earlierInvariant (s : Game) : Prop :=
  wf_grid (Game.grid s) ∧ Game.score s = 0 ∧ Game.gameState s ≠ Over ∧
  (Game.gameState s = Active →
     (∃ cur, Game.currentPuyo s = Some cur ∧ 0 ≤ PuyoPair.rotation cur < 4 ∧
             (spawned cur ∨ isValidMove (Game.grid s) cur = true)) ∧
     (∃ nxt, Game.nextPuyo s = Some nxt ∧ spawned nxt)).

(** ** Sample grids *)

Definition rowOf (cells : list (Z * Color)) : list PuyoColor :=
  foldr (λ xc row, <[Z.to_nat xc.1 := Some xc.2]> row)
        (replicate (Z.to_nat GRID_COLS) None) cells.

(** Rows are listed from the top; missing rows on top are empty. *)
Definition bottomRows (rows : list (list (Z * Color))) : Grid :=
  replicate (Z.to_nat GRID_ROWS - length rows) (replicate (Z.to_nat GRID_COLS) None)
  ++ (rowOf <$> rows).

(** An L of four red cells in the bottom left corner. *)
Definition gridL4 : Grid :=
  bottomRows [ [(0, Red)]; [(0, Red)]; [(0, Red); (1, Red)] ].

(** Three red cells in a corner. *)
Definition gridL3 : Grid :=
  bottomRows [ [(0, Red)]; [(0, Red); (1, Red)] ].

(** Four red cells stacked in the left column, three green cells on top of
    them and two green cells on the floor next to them: once the reds are
    gone the three greens drop and meet the other two. *)
Definition gridCascade : Grid :=
  bottomRows [ [(0, Green)];
               [(0, Green)];
               [(0, Green)];
               [(0, Red)];
               [(0, Red)];
               [(0, Red)];
               [(0, Red); (1, Green); (2, Green)] ].

(** [gridCascade] after its reds are gone and the greens have dropped. *)
Definition gridCascadeSettled : Grid :=
  bottomRows [ [(0, Green)];
               [(0, Green)];
               [(0, Green); (1, Green); (2, Green)] ].

(** A piece pointing up over an empty grid. *)
Definition pieceInMidAir : PuyoPair :=
  PuyoPair.mk (Some Red) (Some Green) 2 5 0.

(** ** Sample runs *)

Definition stateAfter (events : list Event) : Game :=
  match run events initialGame with
  | Next s => s
  | _ => initialGame
  end.

(** A new game whose first piece has fallen to the floor: anchor at
    [(2, 11)], second cell at [(2, 10)]. *)
Definition gameOnFloor : Game :=
  stateAfter (EvStart Red Green Blue Yellow :: replicate 11 (EvMove Down Red Red)).

(** Three pieces stacked in column 2 up to row 6, and the fourth piece at
    [(2, 5)] with its second cell at [(2, 4)]. *)
Definition gameOnStack : Game :=
  stateAfter (EvStart Red Green Blue Yellow
              :: replicate 12 (EvMove Down Red Green)
              ++ replicate 10 (EvMove Down Blue Yellow)
              ++ replicate 8 (EvMove Down Green Red)
              ++ replicate 5 (EvMove Down Red Red)).

(** Five pieces stacked in column 2 up to row 2 and a sixth one landed on
    top of them, in rows 1 and 0. *)
Definition gameStackedToTop : Game :=
  stateAfter (EvStart Red Green Blue Yellow
              :: replicate 12 (EvMove Down Red Green)
              ++ replicate 10 (EvMove Down Blue Yellow)
              ++ replicate 8 (EvMove Down Red Green)
              ++ replicate 6 (EvMove Down Blue Yellow)
              ++ replicate 4 (EvMove Down Red Green)
              ++ replicate 2 (EvMove Down Blue Yellow)).

(** A piece moved to the left wall, one row down from the top. *)
Definition gameAtWall : Game :=
  stateAfter [EvStart Red Green Blue Yellow; EvMove Down Red Red;
              EvMove Left Red Red; EvMove Left Red Red].

(** Another state that no run produces: the falling piece lies on the floor
    in the last column and points right, so that its second cell is at
    column 6. *)
Definition pieceOverTheEdge : Game :=
  Game.mk createEmptyGrid Active 0
          (Some (PuyoPair.mk (Some Red) (Some Green) 5 11 1))
          (Some (generatePuyoPair Blue Yellow)) 0 false.

(** A state that no run produces: the game is active, a spawned piece is
    the falling piece and the cell below it, in row 1, is occupied. *)
Definition blockedSpawn : Game :=
  Game.mk (setCell createEmptyGrid 2 1 (Some Blue)) Active 0
          (Some (generatePuyoPair Red Green)) (Some (generatePuyoPair Blue Yellow))
          0 false.

(** * Proofs *)

(** ** Cells of a well-formed grid *)

Lemma GRID_ROWS_val : Z.to_nat GRID_ROWS = 12%nat.
Proof. reflexivity. Qed.

Lemma GRID_COLS_val : Z.to_nat GRID_COLS = 6%nat.
Proof. reflexivity. Qed.

Lemma wf_createEmptyGrid : wf_grid createEmptyGrid.
Proof.
  split; [apply length_replicate|].
  apply Forall_replicate, length_replicate.
Qed.

Lemma wf_row (g : Grid) (y : Z) :
  wf_grid g → 0 ≤ y < GRID_ROWS →
  ∃ row, g !! Z.to_nat y = Some row ∧ length row = Z.to_nat GRID_COLS.
Proof.
  intros [Hlen Hrows] Hy.
  destruct (lookup_lt_is_Some_2 g (Z.to_nat y)) as [row Hrow].
  { rewrite Hlen. unfold GRID_ROWS in *. lia. }
  exists row. split; [done|].
  by apply (Forall_lookup_1 _ _ _ _ Hrows Hrow).
Qed.

Lemma wf_cell (g : Grid) (x y : Z) :
  wf_grid g → in_bounds x y →
  ∃ row, g !! Z.to_nat y = Some row ∧ row !! Z.to_nat x = Some (cellAt g x y).
Proof.
  intros Hwf (Hx0 & Hx1 & Hy0 & Hy1).
  destruct (wf_row g y Hwf) as (row & Hrow & Hlen); [lia|].
  exists row. split; [done|].
  unfold cellAt. rewrite !bool_decide_eq_true_2 by lia. simpl. rewrite Hrow.
  destruct (lookup_lt_is_Some_2 row (Z.to_nat x)) as [c Hc].
  { rewrite Hlen. unfold GRID_COLS in *. lia. }
  by rewrite Hc.
Qed.

Lemma wf_setCell (g : Grid) (x y : Z) (c : PuyoColor) :
  wf_grid g → wf_grid (setCell g x y c).
Proof.
  intros [Hlen Hrows]. split.
  - unfold setCell. by rewrite length_alter.
  - unfold setCell. apply Forall_alter; [done|].
    intros row Hrow. by rewrite length_insert.
Qed.

Lemma cellAt_setCell_eq (g : Grid) (x y : Z) (c : PuyoColor) :
  wf_grid g → in_bounds x y → cellAt (setCell g x y c) x y = c.
Proof.
  intros Hwf Hb.
  destruct (wf_cell g x y Hwf Hb) as (row & Hrow & Hc).
  destruct Hb as (Hx0 & Hx1 & Hy0 & Hy1).
  unfold cellAt, setCell. rewrite !bool_decide_eq_true_2 by lia. simpl.
  rewrite list_lookup_alter_eq, Hrow. simpl.
  rewrite list_lookup_insert_eq; [done|].
  by apply lookup_lt_is_Some_1; eexists.
Qed.

Lemma cellAt_setCell_ne (g : Grid) (x y x' y' : Z) (c : PuyoColor) :
  0 ≤ x → 0 ≤ y → (x, y) ≠ (x', y') →
  cellAt (setCell g x y c) x' y' = cellAt g x' y'.
Proof.
  intros Hx Hy Hne. unfold cellAt, setCell.
  destruct (bool_decide (0 ≤ x')) eqn:Hx'; [|done].
  destruct (bool_decide (0 ≤ y')) eqn:Hy'; [|done].
  apply bool_decide_eq_true in Hx', Hy'. simpl.
  destruct (decide (y = y')) as [->|Hyy].
  - rewrite list_lookup_alter_eq.
    destruct (g !! Z.to_nat y') as [row|]; [|done]. simpl.
    rewrite list_lookup_insert_ne; [done|].
    intros Heq. apply Hne. f_equal. lia.
  - rewrite list_lookup_alter_ne; [done|]. lia.
Qed.

Lemma cellAt_setCell (g : Grid) (x y x' y' : Z) (c : PuyoColor) :
  wf_grid g → in_bounds x y →
  cellAt (setCell g x y c) x' y' =
    if decide ((x, y) = (x', y')) then c else cellAt g x' y'.
Proof.
  intros Hwf Hb. case_decide as Heq.
  - inversion Heq; subst. by apply cellAt_setCell_eq.
  - destruct Hb as (? & ? & ? & ?). by apply cellAt_setCell_ne.
Qed.

(** Two well-formed grids with the same cells are the same grid. *)
Lemma grid_ext (g g' : Grid) :
  wf_grid g → wf_grid g' →
  (∀ x y, in_bounds x y → cellAt g x y = cellAt g' x y) →
  g = g'.
Proof.
  intros Hwf Hwf' Hcells. apply list_eq. intros j.
  destruct (decide (j < Z.to_nat GRID_ROWS)%nat) as [Hj|Hj].
  - destruct (wf_row g (Z.of_nat j) Hwf) as (row & Hrow & Hlen).
    { unfold GRID_ROWS in *. lia. }
    destruct (wf_row g' (Z.of_nat j) Hwf') as (row' & Hrow' & Hlen').
    { unfold GRID_ROWS in *. lia. }
    rewrite Nat2Z.id in Hrow, Hrow'. rewrite Hrow, Hrow'. f_equal.
    apply list_eq. intros i.
    destruct (decide (i < Z.to_nat GRID_COLS)%nat) as [Hi|Hi].
    + assert (Hb : in_bounds (Z.of_nat i) (Z.of_nat j)).
      { unfold in_bounds, GRID_ROWS, GRID_COLS in *. lia. }
      destruct (wf_cell g _ _ Hwf Hb) as (r & Hr & Hc).
      destruct (wf_cell g' _ _ Hwf' Hb) as (r' & Hr' & Hc').
      rewrite Nat2Z.id in Hr, Hc, Hr', Hc'.
      rewrite Hrow in Hr. rewrite Hrow' in Hr'.
      inversion Hr; inversion Hr'; subst r r'.
      rewrite Hc, Hc'. f_equal. by apply Hcells.
    + rewrite !lookup_ge_None_2; [done|lia|lia].
  - destruct Hwf as [Hl _], Hwf' as [Hl' _].
    rewrite !lookup_ge_None_2; [done|lia|lia].
Qed.

(** ** The validator *)

Lemma getSecondPuyoPosition_adjacent (x y rotation : Z) :
  0 ≤ rotation < 4 →
  adjacent (x, y) (getSecondPuyoPosition x y rotation).
Proof.
  intros Hr. unfold adjacent. simpl.
  assert (rotation = 0 ∨ rotation = 1 ∨ rotation = 2 ∨ rotation = 3) as Hc by lia.
  destruct Hc as [-> | [-> | [-> | ->]]]; simpl; auto.
Qed.

Lemma isValidMove_true (g : Grid) (p : PuyoPair) :
  isValidMove g p = true ↔
    in_bounds (PuyoPair.x p) (PuyoPair.y p) ∧
    (let q := getSecondPuyoPosition (PuyoPair.x p) (PuyoPair.y p) (PuyoPair.rotation p) in
     in_bounds q.1 q.2 ∧
     cellAt g (PuyoPair.x p) (PuyoPair.y p) = None ∧
     cellAt g q.1 q.2 = None).
Proof.
  unfold isValidMove.
  destruct (getSecondPuyoPosition _ _ _) as [x2 y2]. simpl.
  match goal with |- (if ?b then _ else _) = _ ↔ _ => set (cond := b) end.
  assert (Hcond : cond = true ↔
            in_bounds (PuyoPair.x p) (PuyoPair.y p) ∧ in_bounds x2 y2).
  { unfold cond, in_bounds. rewrite !andb_true_iff, !Z.geb_le, !Z.ltb_lt. lia. }
  destruct cond.
  - rewrite andb_true_iff, !negb_true_iff.
    destruct (cellAt g (PuyoPair.x p) (PuyoPair.y p)), (cellAt g x2 y2);
      simpl; split; try (intros [? ?]; done); try (intros (? & ? & ? & ?); done).
    intros _. destruct Hcond as [Hcond _]. destruct (Hcond eq_refl). done.
  - split; [done|]. intros (? & ? & _). destruct Hcond as [_ Hcond].
    by apply Hcond.
Qed.

(** ** Columns *)

Lemma length_column (g : Grid) (x : Z) : length (column g x) = length g.
Proof. unfold column. by rewrite length_fmap. Qed.

Lemma cellAt_column (g : Grid) (x y : Z) :
  0 ≤ x → 0 ≤ y → cellAt g x y = default None (column g x !! Z.to_nat y).
Proof.
  intros Hx Hy. unfold cellAt, column.
  rewrite !bool_decide_eq_true_2 by lia. simpl.
  rewrite list_lookup_fmap. by destruct (g !! Z.to_nat y).
Qed.

Lemma column_setCell_same (g : Grid) (x y : Z) (c : PuyoColor) :
  wf_grid g → 0 ≤ x < GRID_COLS →
  column (setCell g x y c) x = <[Z.to_nat y := c]> (column g x).
Proof.
  intros [Hlen Hrows] Hx. unfold column, setCell. apply list_eq. intros j.
  rewrite list_lookup_fmap.
  destruct (decide (Z.to_nat y = j)) as [<-|Hne].
  - rewrite list_lookup_alter_eq.
    destruct (g !! Z.to_nat y) as [row|] eqn:Hrow; simpl.
    + rewrite (list_lookup_insert_eq row).
      2:{ rewrite (Forall_lookup_1 _ _ _ _ Hrows Hrow).
          unfold GRID_COLS in *. lia. }
      rewrite list_lookup_insert_eq; [done|].
      rewrite length_fmap. by apply lookup_lt_is_Some_1; eexists.
    + rewrite list_insert_ge; [by rewrite list_lookup_fmap, Hrow|].
      rewrite length_fmap. by apply lookup_ge_None_1.
  - rewrite list_lookup_alter_ne, list_lookup_insert_ne by done.
    by rewrite list_lookup_fmap.
Qed.

Lemma column_setCell_other (g : Grid) (x x' y : Z) (c : PuyoColor) :
  0 ≤ x → 0 ≤ x' → x ≠ x' →
  column (setCell g x y c) x' = column g x'.
Proof.
  intros Hx Hx' Hne. unfold column, setCell. apply list_eq. intros j.
  rewrite !list_lookup_fmap.
  destruct (decide (Z.to_nat y = j)) as [<-|Hj].
  - rewrite list_lookup_alter_eq. destruct (g !! Z.to_nat y); [|done]. simpl.
    rewrite list_lookup_insert_ne; [done|lia].
  - by rewrite list_lookup_alter_ne.
Qed.

Lemma grid_ext_column (g g' : Grid) :
  wf_grid g → wf_grid g' →
  (∀ x, 0 ≤ x < GRID_COLS → column g x = column g' x) →
  g = g'.
Proof.
  intros Hwf Hwf' Hcols. apply grid_ext; [done..|].
  intros x y (? & ? & ? & ?).
  rewrite !cellAt_column by lia. by rewrite Hcols by lia.
Qed.

(** ** A column sinks *)

Lemma filter_None_replicate (col : list PuyoColor) :
  filter (λ c, c = None) col = replicate (length (filter (λ c, c = None) col)) None.
Proof.
  induction col as [|[c|] col IH]; [done| |].
  - by rewrite filter_cons_False by done.
  - rewrite filter_cons_True by done. simpl. by f_equal.
Qed.

Lemma length_filter_split (col : list PuyoColor) :
  (length (filter (λ c, c = None) col) + length (filter (λ c, c ≠ None) col)
   = length col)%nat.
Proof.
  induction col as [|[c|] col IH]; [done| |].
  - rewrite (filter_cons_False (λ c, c = None)) by done.
    rewrite (filter_cons_True (λ c, c ≠ None)) by done. simpl. lia.
  - rewrite (filter_cons_True (λ c, c = None)) by done.
    rewrite (filter_cons_False (λ c, c ≠ None)) by (intros H; by apply H).
    simpl. lia.
Qed.

Lemma stablePartition_sunk (col sunk : list PuyoColor) (k : nat) :
  sunk = replicate k None ++ filter (λ c, c ≠ None) col →
  length sunk = length col →
  sunk = stablePartition col.
Proof.
  intros -> Hlen. unfold stablePartition. f_equal.
  rewrite filter_None_replicate. f_equal.
  rewrite length_app, length_replicate in Hlen.
  pose proof (length_filter_split col). lia.
Qed.

Lemma insert_replicate_last (k : nat) (v : PuyoColor) (rest : list PuyoColor) :
  <[k := v]> (replicate (S k) None ++ rest) = replicate k None ++ v :: rest.
Proof. induction k as [|k IH]; [done|]. simpl in *. by rewrite IH. Qed.

Lemma gravityColumn_S (g : Grid) (x : Z) (m : nat) (w : Z) :
  gravityColumn g x (S m) w =
    if bool_decide (cellAt g x (Z.of_nat m) ≠ None) then
      gravityColumn
        (if bool_decide (w ≠ Z.of_nat m)
         then setCell (setCell g x w (cellAt g x (Z.of_nat m))) x (Z.of_nat m) None
         else setCell g x w (cellAt g x (Z.of_nat m)))
        x m (w - 1)
    else gravityColumn g x m w.
Proof. reflexivity. Qed.

Section gravity_column.
Variable x : Z.
Hypothesis Hx : 0 ≤ x < GRID_COLS.
Variable col0 : list PuyoColor.

(** The loop invariant: with [n] rows still to visit and [k] empty cells
    found so far, the column is the untouched top [n] cells, then [k]
    empty cells, then the non-empty cells met so far, in order; the write
    index is [n + k - 1]. *)
Lemma gravityColumn_sinks (n : nat) : ∀ (k : nat) (g : Grid),
  wf_grid g → (n ≤ length col0)%nat →
  column g x =
    take n col0 ++ replicate k None ++ filter (λ c, c ≠ None) (drop n col0) →
  wf_grid (gravityColumn g x n (Z.of_nat (n + k) - 1)) ∧
  (∃ k', column (gravityColumn g x n (Z.of_nat (n + k) - 1)) x =
           replicate k' None ++ filter (λ c, c ≠ None) col0) ∧
  (∀ x', 0 ≤ x' → x' ≠ x →
     column (gravityColumn g x n (Z.of_nat (n + k) - 1)) x' = column g x').
Proof.
  induction n as [|m IH]; intros k g Hwf Hlen Hcol.
  - simpl. split; [done|]. split; [|done].
    exists k. by rewrite Hcol, take_0, drop_0.
  - destruct (lookup_lt_is_Some_2 col0 m) as [v Hv]; [lia|].
    assert (Hcell : cellAt g x (Z.of_nat m) = v).
    { rewrite cellAt_column by lia. rewrite Nat2Z.id, Hcol.
      rewrite lookup_app_l by (rewrite length_take; lia).
      rewrite lookup_take_lt by lia. by rewrite Hv. }
    pose proof (take_S_r _ _ _ Hv) as Htake.
    pose proof (drop_S _ _ _ Hv) as Hdrop.
    assert (Hlt : length (take m col0) = m) by (rewrite length_take; lia).
    rewrite gravityColumn_S, Hcell.
    destruct v as [c|].
    + rewrite bool_decide_eq_true_2 by done.
      replace (Z.of_nat (S m + k) - 1) with (Z.of_nat (m + k)) by lia.
      set (g1 := setCell g x (Z.of_nat (m + k)) (Some c)).
      assert (Hwf1 : wf_grid g1) by by apply wf_setCell.
      assert (Hcol1 : column g1 x = <[(m + k)%nat := Some c]> (column g x)).
      { unfold g1. rewrite column_setCell_same by done. by rewrite Nat2Z.id. }
      set (g2 := if bool_decide (Z.of_nat (m + k) ≠ Z.of_nat m)
                 then setCell g1 x (Z.of_nat m) None else g1).
      assert (Hwf2 : wf_grid g2).
      { unfold g2. case_bool_decide; [by apply wf_setCell|done]. }
      assert (Hoth : ∀ x', 0 ≤ x' → x' ≠ x → column g2 x' = column g x').
      { intros x' Hx' Hne. unfold g2, g1. case_bool_decide.
        - rewrite !column_setCell_other by lia. done.
        - rewrite !column_setCell_other by lia. done. }
      assert (Hcol2 : column g2 x =
                take m col0 ++ replicate k None ++
                filter (λ c, c ≠ None) (drop m col0)).
      { rewrite Hdrop, filter_cons_True by done.
        unfold g2. destruct k as [|k0].
        - rewrite bool_decide_eq_false_2 by lia.
          rewrite Hcol1, Hcol, Htake. simpl.
          rewrite <- app_assoc. simpl.
          replace (m + 0)%nat with (length (take m col0) + 0)%nat by lia.
          by rewrite insert_app_r.
        - rewrite bool_decide_eq_true_2 by lia.
          rewrite column_setCell_same by done.
          rewrite Hcol1, Hcol, Htake, Nat2Z.id.
          rewrite <- app_assoc.
          replace (m + S k0)%nat with (length (take m col0) + S k0)%nat by lia.
          rewrite insert_app_r.
          replace m with (length (take m col0) + 0)%nat at 1 by lia.
          rewrite insert_app_r.
          cbn [app insert list_insert]. f_equal.
          transitivity (None :: <[k0 := Some c]>
                          (replicate (S k0) None ++
                           filter (λ c, c ≠ None) (drop (S m) col0))); [done|].
          by rewrite insert_replicate_last. }
      destruct (IH k g2 Hwf2 ltac:(lia) Hcol2) as (Hw & Hs & Ho).
      split; [done|]. split; [done|].
      intros x' Hx' Hne. rewrite Ho by done. by apply Hoth.
    + rewrite bool_decide_eq_false_2 by (intros H; by apply H).
      replace (Z.of_nat (S m + k) - 1) with (Z.of_nat (m + S k) - 1) by lia.
      apply IH; [done|lia|].
      rewrite Hcol, Htake, Hdrop.
      rewrite filter_cons_False by (intros H; by apply H).
      by rewrite <- app_assoc.
Qed.
End gravity_column.

Lemma gravityColumn_full (g : Grid) (x : Z) :
  wf_grid g → 0 ≤ x < GRID_COLS →
  wf_grid (gravityColumn g x (Z.to_nat GRID_ROWS) (GRID_ROWS - 1)) ∧
  column (gravityColumn g x (Z.to_nat GRID_ROWS) (GRID_ROWS - 1)) x
    = stablePartition (column g x) ∧
  (∀ x', 0 ≤ x' → x' ≠ x →
     column (gravityColumn g x (Z.to_nat GRID_ROWS) (GRID_ROWS - 1)) x' = column g x').
Proof.
  intros Hwf Hx.
  assert (Hlen : length (column g x) = Z.to_nat GRID_ROWS).
  { rewrite length_column. apply Hwf. }
  destruct (gravityColumn_sinks x Hx (column g x) (Z.to_nat GRID_ROWS) 0 g Hwf)
    as (Hw & [k Hk] & Ho).
  { lia. }
  { rewrite take_ge, drop_ge by lia. simpl. by rewrite app_nil_r. }
  change (Z.of_nat (Z.to_nat GRID_ROWS + 0) - 1) with (GRID_ROWS - 1) in *.
  split; [done|]. split; [|done].
  apply (stablePartition_sunk _ _ k); [done|].
  rewrite !length_column. destruct Hw as [-> _]. by destruct Hwf as [-> _].
Qed.

Lemma gravity_fold_columns (xs : list Z) : ∀ g : Grid,
  wf_grid g → NoDup xs → Forall (λ x, 0 ≤ x < GRID_COLS) xs →
  wf_grid (foldl (λ newGrid x,
             gravityColumn newGrid x (Z.to_nat GRID_ROWS) (GRID_ROWS - 1)) g xs) ∧
  ∀ x, 0 ≤ x →
    column (foldl (λ newGrid x,
              gravityColumn newGrid x (Z.to_nat GRID_ROWS) (GRID_ROWS - 1)) g xs) x
    = if decide (x ∈ xs) then stablePartition (column g x) else column g x.
Proof.
  induction xs as [|a xs IH]; intros g Hwf Hnd Hall.
  - cbn [foldl]. split; [done|]. intros x _.
    case_decide as Hin; [by apply elem_of_nil in Hin|done].
  - apply NoDup_cons in Hnd as [Ha Hnd]. apply Forall_cons in Hall as [Hab Hall].
    destruct (gravityColumn_full g a Hwf Hab) as (Hw & Hsame & Hoth).
    destruct (IH _ Hw Hnd Hall) as [Hw' Hcols].
    cbn [foldl]. split; [done|]. intros x Hx0. rewrite Hcols by done.
    destruct (decide (x = a)) as [->|Hne].
    + rewrite decide_False by done. rewrite decide_True by left. done.
    + rewrite Hoth by lia.
      destruct (decide (x ∈ xs)) as [Hin|Hin].
      * rewrite decide_True by (by right). done.
      * rewrite decide_False; [done|].
        intros Hc. apply elem_of_cons in Hc as [?|?]; done.
Qed.

Lemma applyGravity_columns (g : Grid) :
  wf_grid g →
  wf_grid (applyGravity g) ∧
  ∀ x, 0 ≤ x < GRID_COLS →
    column (applyGravity g) x = stablePartition (column g x).
Proof.
  intros Hwf.
  destruct (gravity_fold_columns (seqZ 0 GRID_COLS) g Hwf) as [Hw Hcols].
  { apply NoDup_seqZ. }
  { apply Forall_forall. intros x Hin. apply elem_of_seqZ in Hin. lia. }
  split; [done|]. intros x Hx. unfold applyGravity. rewrite Hcols by lia.
  rewrite decide_True; [done|]. apply elem_of_seqZ. lia.
Qed.

Lemma wf_applyGravity (g : Grid) : wf_grid g → wf_grid (applyGravity g).
Proof. intros Hwf. by apply applyGravity_columns. Qed.

Lemma filter_occupied_empty (col : list PuyoColor) :
  filter (λ c : PuyoColor, c ≠ None) (filter (λ c, c = None) col) = [].
Proof.
  induction col as [|[c|] col IH]; [done| |].
  - by rewrite (filter_cons_False (λ c, c = None)) by done.
  - rewrite (filter_cons_True (λ c, c = None)) by done.
    by rewrite filter_cons_False by (intros H; by apply H).
Qed.

Lemma filter_occupied_occupied (col : list PuyoColor) :
  filter (λ c : PuyoColor, c ≠ None) (filter (λ c, c ≠ None) col)
  = filter (λ c, c ≠ None) col.
Proof.
  induction col as [|[c|] col IH]; [done| |].
  - rewrite !(filter_cons_True (λ c, c ≠ None)) by done. by f_equal.
  - by rewrite filter_cons_False by (intros H; by apply H).
Qed.

Lemma filter_empty_occupied (col : list PuyoColor) :
  filter (λ c : PuyoColor, c = None) (filter (λ c, c ≠ None) col) = [].
Proof.
  induction col as [|[c|] col IH]; [done| |].
  - rewrite (filter_cons_True (λ c, c ≠ None)) by done.
    by rewrite filter_cons_False by done.
  - by rewrite (filter_cons_False (λ c, c ≠ None)) by (intros H; by apply H).
Qed.

Lemma filter_empty_empty (col : list PuyoColor) :
  filter (λ c : PuyoColor, c = None) (filter (λ c, c = None) col)
  = filter (λ c, c = None) col.
Proof.
  induction col as [|[c|] col IH]; [done| |].
  - by rewrite (filter_cons_False (λ c, c = None)) by done.
  - rewrite !(filter_cons_True (λ c, c = None)) by done. by f_equal.
Qed.

Lemma filter_occupied_stablePartition (col : list PuyoColor) :
  filter (λ c, c ≠ None) (stablePartition col) = filter (λ c, c ≠ None) col.
Proof.
  unfold stablePartition.
  by rewrite filter_app, filter_occupied_empty, filter_occupied_occupied.
Qed.

Lemma filter_empty_stablePartition (col : list PuyoColor) :
  filter (λ c, c = None) (stablePartition col) = filter (λ c, c = None) col.
Proof.
  unfold stablePartition.
  by rewrite filter_app, filter_empty_occupied, filter_empty_empty, app_nil_r.
Qed.

Lemma stablePartition_idem (col : list PuyoColor) :
  stablePartition (stablePartition col) = stablePartition col.
Proof.
  unfold stablePartition at 1.
  by rewrite filter_empty_stablePartition, filter_occupied_stablePartition.
Qed.

(** ** Connected cells *)

Lemma elem_of_scanOrder (p : key) : p ∈ scanOrder ↔ in_bounds p.1 p.2.
Proof.
  unfold scanOrder, in_bounds. destruct p as [x y]. cbn [fst snd].
  rewrite list_elem_of_bind. split.
  - intros (y' & Hin & Hy). apply elem_of_seqZ in Hy.
    apply list_elem_of_bind in Hin as (x' & Hin & Hx).
    apply elem_of_seqZ in Hx. apply list_elem_of_singleton in Hin.
    inversion Hin; subst. lia.
  - intros (? & ? & ? & ?). exists y. split; [|apply elem_of_seqZ; lia].
    apply list_elem_of_bind. exists x. split; [|apply elem_of_seqZ; lia].
    by apply list_elem_of_singleton.
Qed.

Lemma elem_of_cells (p : key) : p ∈ cells ↔ in_bounds p.1 p.2.
Proof. unfold cells. by rewrite elem_of_list_to_set, elem_of_scanOrder. Qed.

Lemma NoDup_scanOrder : NoDup scanOrder.
Proof. apply (bool_decide_unpack _). vm_compute. exact I. Qed.

Lemma size_cells : size cells = Z.to_nat (GRID_ROWS * GRID_COLS).
Proof.
  unfold cells. rewrite size_list_to_set by apply NoDup_scanOrder. reflexivity.
Qed.

Lemma connected_coloured_l (g : Grid) (c : Color) (p q : key) :
  connected g c p q → coloured g c p.
Proof. induction 1; done. Qed.

Lemma connected_coloured_r (g : Grid) (c : Color) (p q : key) :
  connected g c p q → coloured g c q.
Proof. induction 1; done. Qed.

Lemma adjacent_sym (p q : key) : adjacent p q → adjacent q p.
Proof.
  destruct p as [px py], q as [qx qy]. unfold adjacent. simpl.
  intros [H|[H|[H|H]]]; inversion H; subst.
  - right; left. f_equal; lia.
  - left. f_equal; lia.
  - right; right; right. f_equal; lia.
  - right; right; left. f_equal; lia.
Qed.

Lemma connected_trans (g : Grid) (c : Color) (p q r : key) :
  connected g c p q → connected g c q r → connected g c p r.
Proof.
  intros Hpq Hqr. induction Hqr as [Hq|r s Hqr IH Hadj Hs]; [done|].
  eapply connected_step; eauto.
Qed.

Lemma connected_sym (g : Grid) (c : Color) (p q : key) :
  connected g c p q → connected g c q p.
Proof.
  induction 1 as [Hp|q r Hpq IH Hadj Hr]; [by constructor|].
  apply (connected_trans g c r q p); [|done].
  eapply connected_step; [by constructor| by apply adjacent_sym |].
  by eapply connected_coloured_r.
Qed.

Lemma connected_first_step (g : Grid) (c : Color) (p p' q : key) :
  coloured g c p → adjacent p p' → connected g c p' q → connected g c p q.
Proof.
  intros Hp Hadj Hq. apply (connected_trans g c p p' q); [|done].
  eapply connected_step; [by constructor|done|].
  by eapply connected_coloured_l.
Qed.

(** Two cells of one group have the same group. *)
Lemma is_group_shift (g : Grid) (c : Color) (p q : key) (G : gset key) :
  is_group g c p G → q ∈ G → is_group g c q G.
Proof.
  intros HG Hq r. apply HG in Hq. rewrite (HG r). split; intros Hr.
  - eapply connected_trans; [by apply connected_sym|done].
  - eapply connected_trans; done.
Qed.

Lemma is_group_unique (g : Grid) (c : Color) (p : key) (G G' : gset key) :
  is_group g c p G → is_group g c p G' → G = G'.
Proof. intros HG HG'. apply set_eq. intros q. by rewrite (HG q), (HG' q). Qed.

(** ** The search visits exactly the group *)

Lemma findConnectedPuyos_guard (g : Grid) (color : PuyoColor) (V : gset key) (x y : Z) :
  ((x <? 0) || (x >=? GRID_COLS) || (y <? 0) || (y >=? GRID_ROWS) ||
   negb (bool_decide (cellAt g x y = color)) || bool_decide ((x, y) ∈ V)) = false
  ↔ enterable g color V x y.
Proof.
  unfold enterable, in_bounds.
  rewrite !orb_false_iff, negb_false_iff, bool_decide_eq_true, bool_decide_eq_false.
  rewrite !Z.geb_leb, !Z.ltb_ge, !Z.leb_gt. intuition lia.
Qed.

Lemma findConnectedPuyos_fuel_S (fuel : nat) (g : Grid) (x y : Z)
    (color : PuyoColor) (V : gset key) :
  findConnectedPuyos_fuel (S fuel) g x y color V =
    if (x <? 0) || (x >=? GRID_COLS) || (y <? 0) || (y >=? GRID_ROWS) ||
       negb (bool_decide (cellAt g x y = color)) || bool_decide ((x, y) ∈ V)
    then Some V
    else
      V1 ← findConnectedPuyos_fuel fuel g (x + 1) y color (V ∪ {[ (x, y) ]});
      V2 ← findConnectedPuyos_fuel fuel g (x - 1) y color V1;
      V3 ← findConnectedPuyos_fuel fuel g x (y + 1) color V2;
      findConnectedPuyos_fuel fuel g x (y - 1) color V3.
Proof. reflexivity. Qed.

Lemma enterable_or_visited (g : Grid) (c : Color) (V : gset key) (r : key) :
  coloured g c r → r ∈ V ∨ enterable g (Some c) V r.1 r.2.
Proof.
  intros [Hb Hc]. destruct (decide (r ∈ V)) as [Hin|Hin]; [by left|right].
  unfold enterable. by destruct r.
Qed.

Lemma free_cells_shrink (V : gset key) (x y : Z) :
  in_bounds x y → (x, y) ∉ V →
  (size (cells ∖ (V ∪ {[ (x, y) ]})) < size (cells ∖ V))%nat.
Proof.
  intros Hb Hin. apply subset_size.
  assert (Hc : (x, y) ∈ cells) by by apply elem_of_cells.
  split; [set_solver|].
  intros Hsub. assert (Hp : (x, y) ∈ cells ∖ V) by set_solver.
  apply Hsub in Hp. set_solver.
Qed.

Lemma free_cells_mono (V R : gset key) :
  V ⊆ R → (size (cells ∖ R) ≤ size (cells ∖ V))%nat.
Proof. intros Hsub. apply subseteq_size. set_solver. Qed.

Lemma findConnectedPuyos_fuel_searches (fuel : nat) :
  ∀ (g : Grid) (c : Color) (x y : Z) (V : gset key),
    (size (cells ∖ V) < fuel)%nat →
    ∃ R, findConnectedPuyos_fuel fuel g x y (Some c) V = Some R ∧
         searched g c x y V R.
Proof.
  induction fuel as [|fuel IH]; intros g c x y V Hfuel; [lia|].
  rewrite findConnectedPuyos_fuel_S.
  match goal with |- context [if ?b then _ else _] => destruct b eqn:Hguard end.
  - exists V. split; [done|]. split; [done|]. split; [|split].
    + intros Hent. apply findConnectedPuyos_guard in Hent. congruence.
    + intros q Hq Hnq. done.
    + intros q r Hq Hnq. done.
  - apply findConnectedPuyos_guard in Hguard as Hent.
    destruct Hent as (Hb & Hcol & Hnv).
    assert (Hp : coloured g c (x, y)) by done.
    pose proof (free_cells_shrink V x y Hb Hnv) as Hshrink.
    set (V0 := V ∪ {[ (x, y) ]}) in *.
    destruct (IH g c (x + 1) y V0) as (R1 & -> & S1 & E1 & C1 & K1); [lia|].
    pose proof (free_cells_mono V0 R1 S1) as F1.
    destruct (IH g c (x - 1) y R1) as (R2 & E & S2 & E2 & C2 & K2); [lia|].
    cbn [mbind option_bind]. rewrite E. clear E.
    pose proof (free_cells_mono R1 R2 S2) as F2.
    destruct (IH g c x (y + 1) R2) as (R3 & E & S3 & E3 & C3 & K3); [lia|].
    cbn [mbind option_bind]. rewrite E. clear E.
    pose proof (free_cells_mono R2 R3 S3) as F3.
    destruct (IH g c x (y - 1) R3) as (R4 & E & S4 & E4 & C4 & K4); [lia|].
    cbn [mbind option_bind]. rewrite E. clear E.
    exists R4. split; [done|].
    assert (HV0 : V0 ⊆ R4).
    { etransitivity; [exact S1|]. etransitivity; [exact S2|].
      etransitivity; [exact S3|exact S4]. }
    assert (Hadj1 : adjacent (x, y) (x + 1, y)) by (by left).
    assert (Hadj2 : adjacent (x, y) (x - 1, y)) by (by right; left).
    assert (Hadj3 : adjacent (x, y) (x, y + 1)) by (by right; right; left).
    assert (Hadj4 : adjacent (x, y) (x, y - 1)) by (by right; right; right).
    assert (HxyV0 : (x, y) ∈ V0) by (apply elem_of_union_r; by apply elem_of_singleton).
    split; [etransitivity; [|exact HV0]; apply union_subseteq_l|].
    split; [intros _; by apply HV0|]. split.
    + intros q Hq Hnq.
      destruct (decide (q ∈ R3)) as [D3|D3];
        [|by eapply connected_first_step; [| |apply C4]].
      destruct (decide (q ∈ R2)) as [D2|D2];
        [|by eapply connected_first_step; [| |apply C3]].
      destruct (decide (q ∈ R1)) as [D1|D1];
        [|by eapply connected_first_step; [| |apply C2]].
      destruct (decide (q ∈ V0)) as [D0|D0];
        [|by eapply connected_first_step; [| |apply C1]].
      assert (q = (x, y)) as ->.
      { apply elem_of_union in D0 as [?|Hs]; [done|]. by apply elem_of_singleton in Hs. }
      by constructor.
    + intros q r Hq Hnq Hadj Hr.
      destruct (decide (q ∈ R3)) as [D3|D3]; [|by eapply K4].
      destruct (decide (q ∈ R2)) as [D2|D2]; [|apply S4; by eapply K3].
      destruct (decide (q ∈ R1)) as [D1|D1]; [|apply S4, S3; by eapply K2].
      destruct (decide (q ∈ V0)) as [D0|D0]; [|apply S4, S3, S2; by eapply K1].
      assert (q = (x, y)) as ->.
      { apply elem_of_union in D0 as [?|Hs]; [done|]. by apply elem_of_singleton in Hs. }
      destruct Hadj as [-> | [-> | [-> | ->]]]; cbn [fst snd] in *.
      * apply S4, S3, S2.
        destruct (enterable_or_visited g c V0 _ Hr) as [?|?]; [by apply S1|by apply E1].
      * apply S4, S3.
        destruct (enterable_or_visited g c R1 _ Hr) as [?|?]; [by apply S2|by apply E2].
      * apply S4.
        destruct (enterable_or_visited g c R2 _ Hr) as [?|?]; [by apply S3|by apply E3].
      * destruct (enterable_or_visited g c R3 _ Hr) as [?|?]; [by apply S4|by apply E4].
Qed.

(** The search is total and returns the group of its start cell. *)
Lemma findConnectedPuyos_group (g : Grid) (c : Color) (x y : Z) :
  coloured g c (x, y) →
  ∃ G, findConnectedPuyos g x y (Some c) = Some G ∧ is_group g c (x, y) G.
Proof.
  intros Hp. unfold findConnectedPuyos.
  destruct (findConnectedPuyos_fuel_searches search_fuel g c x y ∅)
    as (G & HG & S0 & E0 & C0 & K0).
  { rewrite difference_empty_L, size_cells. unfold search_fuel. lia. }
  exists G. split; [done|]. intros q. split.
  - intros Hq. apply C0; [done|]. apply not_elem_of_empty.
  - induction 1 as [Hq|q r Hpq IH Hadj Hr].
    + apply E0. destruct Hp as [Hb Hc]. split; [done|]. split; [done|].
      apply not_elem_of_empty.
    + eapply K0; [apply IH| |done|done]. apply not_elem_of_empty.
Qed.

(** ** One scan of the grid *)

Lemma qualifies_coloured (g : Grid) (c : Color) (p : key) (G : gset key) :
  is_group g c p G → p ∈ G → coloured g c p.
Proof. intros HG Hp. apply HG in Hp. by eapply connected_coloured_l. Qed.

Lemma scanCell_spec (g : Grid) (acc : bool * gset key) (p : key) :
  in_bounds p.1 p.2 →
  ∃ acc', scanCell g acc p = Some acc' ∧
    ((acc' = acc ∧ ¬ qualifies g p) ∨
     (∃ c G, is_group g c p G ∧ p ∈ G ∧ (4 ≤ size G)%nat ∧
             acc' = (true, acc.2 ∪ G))).
Proof.
  destruct p as [x y]. cbn [fst snd]. intros Hb. unfold scanCell.
  destruct (cellAt g x y) as [c|] eqn:Hc; cbn [truthy].
  - assert (Hp : coloured g c (x, y)) by done.
    destruct (findConnectedPuyos_group g c x y Hp) as (G & -> & HG).
    cbn [mbind option_bind].
    assert (Hin : (x, y) ∈ G) by (apply HG; by constructor).
    case_bool_decide as Hsz.
    + eexists. split; [done|]. right. by exists c, G.
    + eexists. split; [done|]. left. split; [done|].
      intros (c' & G' & HG' & Hin' & Hsz').
      destruct (qualifies_coloured g c' _ G' HG' Hin') as [_ Hc'].
      cbn [fst snd] in Hc'. rewrite Hc in Hc'. inversion Hc'; subst c'.
      by rewrite (is_group_unique g c _ G G' HG HG') in Hsz.
  - eexists. split; [done|]. left. split; [done|].
    intros (c' & G' & HG' & Hin' & Hsz').
    destruct (qualifies_coloured g c' _ G' HG' Hin') as [_ Hc'].
    cbn [fst snd] in Hc'. by rewrite Hc in Hc'.
Qed.

Lemma scanCells_spec (g : Grid) (l : list key) :
  Forall (λ p, in_bounds p.1 p.2) l →
  ∀ acc, ∃ acc',
    scanCells g l acc = Some acc' ∧
    (∀ q, q ∈ acc'.2 ↔
          q ∈ acc.2 ∨
          ∃ p c G, p ∈ l ∧ is_group g c p G ∧ p ∈ G ∧ (4 ≤ size G)%nat ∧ q ∈ G) ∧
    (acc'.1 = true ↔ acc.1 = true ∨ ∃ p, p ∈ l ∧ qualifies g p).
Proof.
  induction l as [|p l IH]; intros Hall acc.
  - exists acc. split; [done|]. split.
    + intros q. split; [by left|]. intros [?|(p & c & G & Hin & _)]; [done|].
      by apply elem_of_nil in Hin.
    + split; [by left|]. intros [?|(p & Hin & _)]; [done|].
      by apply elem_of_nil in Hin.
  - apply Forall_cons in Hall as [Hp Hall].
    destruct (scanCell_spec g acc p Hp) as (acc1 & E1 & Hcase).
    destruct (IH Hall acc1) as (acc' & E & HM & Hhas).
    exists acc'. cbn [scanCells]. rewrite E1. cbn [mbind option_bind].
    split; [done|]. split.
    + intros q. rewrite HM. split.
      * intros [Hq|(p' & c & G & Hin & HG)].
        -- destruct Hcase as [[-> _]|(c & G & HG & Hin & Hsz & ->)]; [by left|].
           cbn [snd] in Hq. apply elem_of_union in Hq as [?|?]; [by left|].
           right. exists p, c, G. split; [left|done].
        -- right. exists p', c, G. split; [by right|done].
      * intros [Hq|(p' & c & G & Hin & HG & Hp' & Hsz & Hq)].
        -- left. destruct Hcase as [[-> _]|(c & G & HG & Hin & Hsz & ->)]; [done|].
           cbn [snd]. by apply elem_of_union_l.
        -- apply elem_of_cons in Hin as [->|Hin].
           ++ left. destruct Hcase as [[_ Hn]|(c' & G' & HG' & Hin' & Hsz' & ->)].
              ** destruct Hn. by exists c, G.
              ** cbn [snd]. apply elem_of_union_r.
                 destruct (qualifies_coloured g c _ G HG Hp') as [_ Hc].
                 destruct (qualifies_coloured g c' _ G' HG' Hin') as [_ Hc'].
                 rewrite Hc in Hc'. inversion Hc'; subst c'.
                 by rewrite (is_group_unique g c _ G' G HG' HG).
           ++ right. by exists p', c, G.
    + rewrite Hhas. split.
      * intros [H1|(p' & Hin & Hq)].
        -- destruct Hcase as [[-> _]|(c & G & HG & Hin & Hsz & ->)]; [by left|].
           right. exists p. split; [left|]. by exists c, G.
        -- right. exists p'. split; [by right|done].
      * intros [H1|(p' & Hin & Hq)].
        -- left. by destruct Hcase as [[-> _]|(c & G & HG & Hin & Hsz & ->)].
        -- apply elem_of_cons in Hin as [->|Hin].
           ++ left. by destruct Hcase as [[_ Hn]|(c & G & HG & Hin & Hsz & ->)].
           ++ right. by exists p'.
Qed.

(** A scan is total; it marks exactly the cells of the groups of four or
    more, and [hasMatches] says whether it marked any. *)
Lemma scanMatches_spec (g : Grid) :
  ∃ (hasMatches : bool) (M : gset key),
    scanMatches g = Some (hasMatches, M) ∧
    (∀ q, q ∈ M ↔ qualifies g q) ∧
    (hasMatches = true ↔ ∃ q, qualifies g q) ∧
    (hasMatches = true → (4 ≤ size M)%nat).
Proof.
  destruct (scanCells_spec g scanOrder) with (acc := (false, ∅ : gset key))
    as ([has M] & E & HM & Hhas).
  { apply Forall_forall. intros p. apply elem_of_scanOrder. }
  cbn [fst snd] in *.
  assert (HMq : ∀ q, q ∈ M ↔ qualifies g q).
  { intros q. rewrite HM. split.
    - intros [Hq|(p & c & G & Hin & HG & Hp & Hsz & Hq)].
      + by apply not_elem_of_empty in Hq.
      + exists c, G. split; [by eapply is_group_shift|done].
    - intros (c & G & HG & Hq & Hsz). right. exists q, c, G.
      split; [|done]. apply elem_of_scanOrder.
      by destruct (qualifies_coloured g c q G HG Hq). }
  assert (Hq : has = true ↔ ∃ q, qualifies g q).
  { rewrite Hhas. split.
    - intros [?|(p & _ & Hp)]; [done|by exists p].
    - intros [q Hq]. right. exists q. split; [|done].
      destruct Hq as (c & G & HG & Hq & _). apply elem_of_scanOrder.
      by destruct (qualifies_coloured g c q G HG Hq). }
  exists has, M. split; [done|]. split; [done|]. split; [done|].
  intros Ht. apply Hq in Ht as (q & c & G & HG & Hin & Hsz).
  etransitivity; [exact Hsz|]. apply subseteq_size. intros r Hr.
  apply HMq. exists c, G. split; [by eapply is_group_shift|done].
Qed.

(** ** Removing the marked cells *)

Lemma removeCells_spec (l : list key) (g : Grid) :
  wf_grid g → Forall (λ p, in_bounds p.1 p.2) l →
  wf_grid (foldr (λ k g, setCell g k.1 k.2 None) g l) ∧
  ∀ x y, cellAt (foldr (λ k g, setCell g k.1 k.2 None) g l) x y =
           if decide ((x, y) ∈ l) then None else cellAt g x y.
Proof.
  intros Hwf. induction 1 as [|p l Hp Hall [IHw IHc]].
  - split; [done|]. intros x y. case_decide as Hin; [|done].
    by apply elem_of_nil in Hin.
  - cbn [foldr]. split; [by apply wf_setCell|]. intros x y.
    rewrite cellAt_setCell by done. rewrite IHc.
    destruct p as [px py]. cbn [fst snd].
    destruct (decide ((px, py) = (x, y))) as [<-|Hne].
    + by rewrite decide_True by left.
    + destruct (decide ((x, y) ∈ l)) as [Hin|Hin].
      * by rewrite decide_True by (by right).
      * rewrite decide_False; [done|].
        intros Hc. apply elem_of_cons in Hc as [?|?]; [by subst|done].
Qed.

Lemma wf_removeMatched (g : Grid) (M : gset key) :
  wf_grid g → (∀ p, p ∈ M → in_bounds p.1 p.2) → wf_grid (removeMatched g M).
Proof.
  intros Hwf HM. apply removeCells_spec; [done|].
  apply Forall_forall. intros p Hp. apply HM. by apply elem_of_elements.
Qed.

Lemma cellAt_removeMatched (g : Grid) (M : gset key) (x y : Z) :
  wf_grid g → (∀ p, p ∈ M → in_bounds p.1 p.2) →
  cellAt (removeMatched g M) x y = if decide ((x, y) ∈ M) then None else cellAt g x y.
Proof.
  intros Hwf HM. unfold removeMatched.
  destruct (removeCells_spec (elements M) g Hwf) as [_ Hc].
  { apply Forall_forall. intros p Hp. apply HM. by apply elem_of_elements. }
  rewrite Hc.
  destruct (decide ((x, y) ∈ M)) as [Hin|Hin].
  - rewrite decide_True; [done|]. by apply elem_of_elements.
  - rewrite decide_False; [done|]. by rewrite elem_of_elements.
Qed.

(** ** Counting occupied cells *)

Lemma occupiedIn_insert_None (col : list PuyoColor) (i : nat) (c : Color) :
  col !! i = Some (Some c) →
  (occupiedIn (<[i := None]> col) + 1 = occupiedIn col)%nat.
Proof.
  unfold occupiedIn. revert i. induction col as [|d col IH]; intros i Hi.
  - by rewrite lookup_nil in Hi.
  - destruct i as [|i].
    + inversion Hi; subst d.
      change (<[0%nat := None]> (Some c :: col)) with (None :: col).
      rewrite filter_cons_False by (intros H; by apply H).
      rewrite filter_cons_True by done. cbn [length]. lia.
    + change (<[S i := None]> (d :: col)) with (d :: <[i := None]> col).
      specialize (IH i Hi). destruct d as [d|].
      * rewrite !(filter_cons_True (λ c, c ≠ None)) by done. cbn [length]. lia.
      * by rewrite !(filter_cons_False (λ c, c ≠ None)) by (intros H; by apply H).
Qed.

Lemma sum_list_change (f f' : Z → nat) (l : list Z) (x : Z) :
  NoDup l → x ∈ l → (f' x + 1 = f x)%nat →
  (∀ x', x' ∈ l → x' ≠ x → f' x' = f x') →
  (sum_list (f' <$> l) + 1 = sum_list (f <$> l))%nat.
Proof.
  intros Hnd Hin Hx Hoth. induction l as [|a l IH]; [by apply elem_of_nil in Hin|].
  apply NoDup_cons in Hnd as [Ha Hnd]. rewrite !fmap_cons.
  change (sum_list (f' a :: (f' <$> l))) with (f' a + sum_list (f' <$> l))%nat.
  change (sum_list (f a :: (f <$> l))) with (f a + sum_list (f <$> l))%nat.
  apply elem_of_cons in Hin as [->|Hin].
  - assert (Heq : f' <$> l = f <$> l).
    { apply list_fmap_ext. intros i x' Hx'.
      assert (x' ∈ l) by by eapply list_elem_of_lookup_2.
      apply Hoth; [by right|]. by intros ->. }
    rewrite Heq. lia.
  - rewrite (Hoth a) by (by left || by intros ->).
    assert (IH' : (sum_list (f' <$> l) + 1 = sum_list (f <$> l))%nat).
    { apply IH; [done..|]. intros x' Hx'. apply Hoth. by right. }
    lia.
Qed.

Lemma occupied_setCell_None (g : Grid) (x y : Z) :
  wf_grid g → in_bounds x y → cellAt g x y ≠ None →
  (occupied (setCell g x y None) + 1 = occupied g)%nat.
Proof.
  intros Hwf Hb Hc. destruct Hb as (Hx0 & Hx1 & Hy0 & Hy1). unfold occupied.
  apply (sum_list_change _ _ _ x).
  - apply NoDup_seqZ.
  - apply elem_of_seqZ. lia.
  - rewrite column_setCell_same by (done || lia).
    destruct (cellAt g x y) as [c|] eqn:Hcell; [|done].
    apply (occupiedIn_insert_None _ _ c).
    rewrite cellAt_column in Hcell by lia.
    destruct (column g x !! Z.to_nat y) as [[d|]|]; by inversion Hcell.
  - intros x' Hin Hne. apply elem_of_seqZ in Hin.
    by rewrite column_setCell_other by lia.
Qed.

Lemma occupied_removeCells (l : list key) (g : Grid) :
  wf_grid g → NoDup l →
  Forall (λ p, in_bounds p.1 p.2 ∧ cellAt g p.1 p.2 ≠ None) l →
  (occupied (foldr (λ k g, setCell g k.1 k.2 None) g l) + length l = occupied g)%nat.
Proof.
  intros Hwf Hnd Hall. induction l as [|p l IH]; [cbn [foldr length]; lia|].
  apply NoDup_cons in Hnd as [Hp Hnd]. apply Forall_cons in Hall as [[Hb Hc] Hall].
  specialize (IH Hnd Hall).
  destruct (removeCells_spec l g Hwf) as [Hw Hcells].
  { eapply Forall_impl; [exact Hall|]. by intros q [? _]. }
  cbn [foldr length].
  pose proof (occupied_setCell_None _ p.1 p.2 Hw Hb) as Hset.
  rewrite Hcells in Hset. rewrite decide_False in Hset by (by destruct p).
  specialize (Hset Hc). lia.
Qed.

Lemma occupied_removeMatched (g : Grid) (M : gset key) :
  wf_grid g → (∀ p, p ∈ M → qualifies g p) →
  (occupied (removeMatched g M) + size M = occupied g)%nat.
Proof.
  intros Hwf HM. unfold removeMatched.
  apply (occupied_removeCells (elements M) g Hwf); [apply NoDup_elements|].
  apply Forall_forall. intros p Hp. apply elem_of_elements, HM in Hp.
  destruct Hp as (c & G & HG & Hin & _).
  destruct (qualifies_coloured g c p G HG Hin) as [Hb Hc].
  split; [done|]. by rewrite Hc.
Qed.

Lemma occupied_applyGravity (g : Grid) :
  wf_grid g → occupied (applyGravity g) = occupied g.
Proof.
  intros Hwf. unfold occupied. f_equal. apply list_fmap_ext.
  intros i x Hx. apply list_elem_of_lookup_2, elem_of_seqZ in Hx.
  destruct (applyGravity_columns g Hwf) as [_ Hcols].
  rewrite Hcols by lia. unfold occupiedIn.
  by rewrite filter_occupied_stablePartition.
Qed.

Lemma occupied_bound (g : Grid) :
  wf_grid g → (occupied g ≤ Z.to_nat (GRID_ROWS * GRID_COLS))%nat.
Proof.
  intros [Hlen _]. unfold occupied.
  assert (Hcol : ∀ x, (occupiedIn (column g x) ≤ 12)%nat).
  { intros x. unfold occupiedIn. etransitivity; [apply length_filter|].
    rewrite length_column, Hlen. reflexivity. }
  change (seqZ 0 GRID_COLS) with [0; 1; 2; 3; 4; 5].
  cbn [fmap list_fmap sum_list sum_list_with]. unfold id.
  pose proof (Hcol 0); pose proof (Hcol 1); pose proof (Hcol 2).
  pose proof (Hcol 3); pose proof (Hcol 4); pose proof (Hcol 5).
  change (Z.to_nat (GRID_ROWS * GRID_COLS)) with 72%nat. lia.
Qed.

(** ** The chain loop *)

Lemma qualifies_in_bounds (g : Grid) (p : key) : qualifies g p → in_bounds p.1 p.2.
Proof.
  intros (c & G & HG & Hin & _). by destruct (qualifies_coloured g c p G HG Hin).
Qed.

Lemma resolveChain_S (fuel : nat) (g : Grid) (chainCount score : Z) :
  resolveChain (S fuel) g chainCount score =
    '(hasMatches, matchedPuyos) ← scanMatches g;
    if hasMatches : bool then
      resolveChain fuel (applyGravity (removeMatched g matchedPuyos))
        (chainCount + 1)
        (score + passPoints (Z.of_nat (size matchedPuyos)) (chainCount + 1))
    else Some (g, chainCount, score).
Proof. reflexivity. Qed.

(** One clearing pass: the grid stays well-formed and loses at least four
    occupied cells. *)
Lemma clearing_pass_shrinks (g : Grid) (M : gset key) :
  wf_grid g → scanMatches g = Some (true, M) →
  wf_grid (applyGravity (removeMatched g M)) ∧
  (occupied (applyGravity (removeMatched g M)) + size M = occupied g)%nat ∧
  (4 ≤ size M)%nat.
Proof.
  intros Hwf Hscan.
  destruct (scanMatches_spec g) as (has & M' & E & HM & _ & Hsz).
  rewrite Hscan in E. inversion E; subst has M'.
  assert (Hw : wf_grid (removeMatched g M)).
  { apply wf_removeMatched; [done|]. intros p Hp.
    by apply qualifies_in_bounds with g, HM. }
  split; [by apply wf_applyGravity|]. split; [|by apply Hsz].
  rewrite occupied_applyGravity by done.
  apply occupied_removeMatched; [done|]. intros p Hp. by apply HM.
Qed.

(** With enough fuel for the occupied cells the loop returns; a result with
    a positive chain count is a grid that gravity has just been applied
    to. *)
Lemma resolveChain_returns (fuel : nat) :
  ∀ (g : Grid) (chainCount score : Z),
    wf_grid g → (occupied g < 4 * fuel)%nat →
    ∃ g' chainCount' score',
      resolveChain fuel g chainCount score = Some (g', chainCount', score') ∧
      wf_grid g' ∧
      scanMatches g' = Some (false, ∅) ∧
      ((g' = g ∧ chainCount' = chainCount ∧ score' = score) ∨
       (chainCount < chainCount' ∧ ∃ g0, wf_grid g0 ∧ g' = applyGravity g0)).
Proof.
  induction fuel as [|fuel IH]; intros g chainCount score Hwf Hocc; [lia|].
  rewrite resolveChain_S.
  destruct (scanMatches_spec g) as (has & M & E & HM & Hhas & Hsz).
  rewrite E. cbn [mbind option_bind]. destruct has.
  - destruct (clearing_pass_shrinks g M Hwf E) as (Hw & Hshrink & Hfour).
    destruct (IH (applyGravity (removeMatched g M)) (chainCount + 1)
                 (score + passPoints (Z.of_nat (size M)) (chainCount + 1)) Hw)
      as (g' & cc & sc & E' & Hw' & Hstable & Hcase); [lia|].
    exists g', cc, sc. split; [done|]. split; [done|]. split; [done|]. right.
    destruct Hcase as [(-> & -> & ->)|(Hlt & g0 & Hw0 & ->)].
    + split; [lia|]. exists (removeMatched g M). split; [|done].
      apply wf_removeMatched; [done|]. intros p Hp.
      by apply qualifies_in_bounds with g, HM.
    + split; [lia|]. by exists g0.
  - exists g, chainCount, score. split; [done|]. split; [done|].
    split; [|by left]. rewrite E. do 2 f_equal. apply set_eq. intros q.
    rewrite HM. split; [|by intros ?%not_elem_of_empty].
    intros Hq. assert (false = true); [|done]. apply Hhas. by exists q.
Qed.

Lemma resolveChain_fuel_mono (fuel : nat) :
  ∀ (fuel' : nat) (g : Grid) (chainCount score : Z) r,
    (fuel ≤ fuel')%nat →
    resolveChain fuel g chainCount score = Some r →
    resolveChain fuel' g chainCount score = Some r.
Proof.
  induction fuel as [|fuel IH]; intros fuel' g chainCount score r Hle; [done|].
  destruct fuel' as [|fuel']; [lia|]. rewrite !resolveChain_S.
  destruct (scanMatches g) as [[[] M]|]; cbn [mbind option_bind]; [|done..].
  apply IH. lia.
Qed.

Lemma passPoints_at_least_40 (cleared chainCount : Z) :
  4 ≤ cleared → 1 ≤ chainCount → 40 ≤ passPoints cleared chainCount.
Proof.
  intros Hn Hc. unfold passPoints.
  assert (0 < 2 ^ (chainCount - 1)) by (apply Z.pow_pos_nonneg; lia).
  nia.
Qed.

Lemma resolveChain_score_grows (fuel : nat) :
  ∀ (g : Grid) (chainCount score : Z) g' chainCount' score',
    0 ≤ chainCount →
    resolveChain fuel g chainCount score = Some (g', chainCount', score') →
    chainCount ≤ chainCount' ∧ score + 40 * (chainCount' - chainCount) ≤ score'.
Proof.
  induction fuel as [|fuel IH]; intros g c sc g' c' sc' Hc; [done|].
  rewrite resolveChain_S.
  destruct (scanMatches_spec g) as (has & M & E & _ & _ & Hsz). rewrite E.
  cbn [mbind option_bind]. destruct has.
  - intros Hrun. apply IH in Hrun as [Hle Hsc]; [|lia].
    pose proof (passPoints_at_least_40 (Z.of_nat (size M)) (c + 1)) as Hpts.
    specialize (Hsz eq_refl). lia.
  - intros [= <- <- <-]. lia.
Qed.

Lemma no_match_no_qualifying (g : Grid) (M : gset key) :
  scanMatches g = Some (false, M) → ∀ p, ¬ qualifies g p.
Proof.
  intros E p Hp. destruct (scanMatches_spec g) as (has & M' & E' & _ & Hhas & _).
  rewrite E in E'. inversion E'; subst has M'.
  assert (false = true); [|done]. apply Hhas. by exists p.
Qed.

(** Every clearing pass takes at least four occupied cells away. *)
Lemma resolveChain_shrinks (fuel : nat) :
  ∀ (g : Grid) (c sc : Z) g' c' sc',
    wf_grid g →
    resolveChain fuel g c sc = Some (g', c', sc') →
    Z.of_nat (occupied g') + 4 * (c' - c) ≤ Z.of_nat (occupied g).
Proof.
  induction fuel as [|fuel IH]; intros g c sc g' c' sc' Hwf; [done|].
  rewrite resolveChain_S.
  destruct (scanMatches g) as [[has M]|] eqn:E; [|done].
  cbn [mbind option_bind]. destruct has.
  - intros Hrun.
    destruct (clearing_pass_shrinks g M Hwf E) as (Hw & Hocc & Hfour).
    apply IH in Hrun; [|done]. lia.
  - intros [= <- <- <-]. lia.
Qed.

(** The loop unrolled twice: the chain count that the call returns tells
    whether the grid held a group to clear, and whether the grid that the
    first pass and gravity left held another one. *)
Lemma resolveChain_cascade (grid : Grid) (score : Z) :
  wf_grid grid →
  ∃ newGrid chainCount score',
    resolveChain chain_fuel grid 0 score = Some (newGrid, chainCount, score') ∧
    0 ≤ chainCount ≤ 18 ∧
    (∀ p, ¬ qualifies newGrid p) ∧
    (chainCount = 0 ↔ ∀ p, ¬ qualifies grid p) ∧
    ∀ first, scanMatches grid = Some (true, first) →
      let exposed := applyGravity (removeMatched grid first) in
      (chainCount = 1 ↔ ∀ p, ¬ qualifies exposed p) ∧
      ((∃ p, qualifies exposed p) →
         2 ≤ chainCount ∧
         ∃ second, scanMatches exposed = Some (true, second) ∧
           score + passPoints (Z.of_nat (size first)) 1
                 + passPoints (Z.of_nat (size second)) 2 ≤ score').
Proof.
  intros Hwf.
  pose proof (occupied_bound grid Hwf) as Hb.
  change (Z.to_nat (GRID_ROWS * GRID_COLS)) with 72%nat in Hb.
  destruct (resolveChain_returns chain_fuel grid 0 score Hwf)
    as (g' & cc & sc & E & _ & Hstable & _).
  { change chain_fuel with 73%nat. lia. }
  assert (H0 : 0 ≤ 0) by lia.
  pose proof (resolveChain_score_grows _ _ _ _ _ _ _ H0 E) as [Hcc0 _].
  pose proof (resolveChain_shrinks _ _ _ _ _ _ _ Hwf E) as Hshrink.
  exists g', cc, sc. split; [exact E|]. split; [lia|].
  split; [by eapply no_match_no_qualifying|].
  change chain_fuel with (S (S 71)) in E. rewrite resolveChain_S in E.
  destruct (scanMatches_spec grid) as (has & M & E0 & HM & Hhas & Hsz).
  rewrite E0 in E. cbn [mbind option_bind] in E. destruct has.
  - assert (Hex : ∃ p, qualifies grid p) by (by apply Hhas).
    assert (H1 : 0 ≤ 0 + 1) by lia.
    pose proof (resolveChain_score_grows _ _ _ _ _ _ _ H1 E) as [Hcc1 Hsc1].
    split.
    { split; [lia|]. intros Hno. destruct Hex as [p Hp]. by destruct (Hno p). }
    intros first Hfirst. rewrite E0 in Hfirst. inversion Hfirst; subst first.
    cbn zeta. rewrite resolveChain_S in E.
    destruct (scanMatches_spec (applyGravity (removeMatched grid M)))
      as (has1 & M1 & E1 & HM1 & Hhas1 & Hsz1).
    rewrite E1 in E. cbn [mbind option_bind] in E. destruct has1.
    + assert (Hex1 : ∃ p, qualifies (applyGravity (removeMatched grid M)) p)
        by (by apply Hhas1).
      assert (H2 : 0 ≤ 0 + 1 + 1) by lia.
      pose proof (resolveChain_score_grows _ _ _ _ _ _ _ H2 E) as [Hcc2 Hsc2].
      change (0 + 1 + 1) with 2 in *. change (0 + 1) with 1 in *.
      split.
      { split; [lia|]. intros Hno. destruct Hex1 as [p Hp]. by destruct (Hno p). }
      intros _. split; [lia|]. exists M1. split; [done|]. lia.
    + assert (Ecc : cc = 1).
      { remember (applyGravity (removeMatched grid M)) as exposed.
        remember (score + passPoints (Z.of_nat (size M)) (0 + 1)) as sc1.
        by injection E as _ <- _. }
      split.
      * split; [|done]. intros _. by eapply no_match_no_qualifying.
      * intros [p Hp]. exfalso. by eapply no_match_no_qualifying.
  - assert (Ecc : cc = 0) by (by injection E as _ <- _). split.
    + split; [|done]. intros _. by eapply no_match_no_qualifying.
    + intros first Hfirst. rewrite E0 in Hfirst. discriminate Hfirst.
Qed.

(** ** Stores, the top rows and gravity *)

Lemma storeCell_in_bounds (g : Grid) (x y : Z) (c : PuyoColor) :
  wf_grid g → in_bounds x y → storeCell g x y c = Stored (setCell g x y c).
Proof.
  intros Hwf Hb. destruct (wf_row g y Hwf) as (row & Hrow & Hlen).
  { unfold in_bounds in Hb. lia. }
  destruct Hb as (? & ? & ? & ?). unfold storeCell.
  rewrite bool_decide_eq_true_2 by lia. rewrite Hrow.
  rewrite bool_decide_eq_true_2; [done|]. rewrite Hlen. unfold GRID_COLS in *. lia.
Qed.

Lemma storeCell_Stored_inv (g g' : Grid) (x y : Z) (c : PuyoColor) :
  wf_grid g → storeCell g x y c = Stored g' → in_bounds x y ∧ g' = setCell g x y c.
Proof.
  intros Hwf. unfold storeCell. case_bool_decide as Hy; [|done].
  destruct (g !! Z.to_nat y) as [row|] eqn:Hrow; [|done].
  case_bool_decide as Hx; [|done]. intros [= <-]. split; [|done].
  destruct Hwf as [Hlen Hrows].
  pose proof (Forall_lookup_1 _ _ _ _ Hrows Hrow) as Hl. cbn beta in Hl.
  apply lookup_lt_Some in Hrow. rewrite Hlen in Hrow.
  unfold in_bounds, GRID_ROWS, GRID_COLS in *. lia.
Qed.

Lemma rowOneOccupied_true (g : Grid) :
  wf_grid g →
  rowOneOccupied g = true ↔ ∃ x, 0 ≤ x < GRID_COLS ∧ cellAt g x 1 ≠ None.
Proof.
  intros Hwf. destruct (wf_row g 1 Hwf) as (row & Hrow & Hlen); [done|].
  change (Z.to_nat 1) with 1%nat in Hrow.
  unfold rowOneOccupied. rewrite Hrow. rewrite existsb_exists. split.
  - intros (c & Hin & Hc). apply bool_decide_eq_true in Hc.
    apply list_elem_of_In, list_elem_of_lookup in Hin as [i Hi].
    exists (Z.of_nat i). apply lookup_lt_Some in Hi as Hlt. rewrite Hlen in Hlt.
    split; [unfold GRID_COLS in *; lia|].
    unfold cellAt. rewrite !bool_decide_eq_true_2 by lia. cbn [andb].
    change (Z.to_nat 1) with 1%nat. by rewrite Hrow, Nat2Z.id, Hi.
  - intros (x & Hx & Hc).
    assert (Hb : in_bounds x 1) by (unfold in_bounds, GRID_ROWS; lia).
    destruct (wf_cell g x 1 Hwf Hb) as (row' & Hrow' & Hcell).
    change (Z.to_nat 1) with 1%nat in Hrow'. rewrite Hrow in Hrow'.
    inversion Hrow'; subst row'.
    exists (cellAt g x 1). split.
    + apply list_elem_of_In, list_elem_of_lookup. by eexists.
    + by apply bool_decide_eq_true.
Qed.

Lemma rowOneOccupied_false (g : Grid) :
  wf_grid g →
  rowOneOccupied g = false ↔ ∀ x, 0 ≤ x < GRID_COLS → cellAt g x 1 = None.
Proof.
  intros Hwf. split.
  - intros Hf x Hx. destruct (cellAt g x 1) as [c|] eqn:Hc; [|done].
    assert (rowOneOccupied g = true); [|congruence].
    apply rowOneOccupied_true; [done|]. exists x. split; [done|]. by rewrite Hc.
  - intros Hall. destruct (rowOneOccupied g) eqn:Hr; [|done].
    apply rowOneOccupied_true in Hr as (x & Hx & Hc); [|done].
    by rewrite Hall in Hc.
Qed.

Lemma stablePartition_top (col : list PuyoColor) :
  stablePartition col !! 1%nat = Some None → stablePartition col !! 0%nat = Some None.
Proof.
  unfold stablePartition. rewrite filter_None_replicate.
  destruct (length (filter (λ c, c = None) col)) as [|[|k]]; [| |done].
  - cbn [replicate app]. intros H1.
    assert (Hin : None ∈ filter (λ c : PuyoColor, c ≠ None) col).
    { apply list_elem_of_lookup. by exists 1%nat. }
    apply list_elem_of_filter in Hin as [Hne _]. done.
  - cbn [replicate app lookup list_lookup]. intros H0.
    assert (Hin : None ∈ filter (λ c : PuyoColor, c ≠ None) col).
    { apply list_elem_of_lookup. by exists 0%nat. }
    apply list_elem_of_filter in Hin as [Hne _]. done.
Qed.

(** After gravity an empty cell in row 1 has an empty cell above it. *)
Lemma topClear_applyGravity (g0 : Grid) :
  wf_grid g0 →
  (∀ x, 0 ≤ x < GRID_COLS → cellAt (applyGravity g0) x 1 = None) →
  topClear (applyGravity g0).
Proof.
  intros Hwf Hrow1 x Hx. split; [|by apply Hrow1].
  destruct (applyGravity_columns g0 Hwf) as [Hw Hcols].
  specialize (Hrow1 x Hx). rewrite cellAt_column in Hrow1 |- * by lia.
  rewrite Hcols in Hrow1 |- * by done.
  change (Z.to_nat 1) with 1%nat in Hrow1. change (Z.to_nat 0) with 0%nat.
  assert (Hlen : length (stablePartition (column g0 x)) = 12%nat).
  { rewrite <- Hcols by done. rewrite length_column. apply Hw. }
  destruct (lookup_lt_is_Some_2 (stablePartition (column g0 x)) 1) as [c Hc]; [lia|].
  rewrite Hc in Hrow1. simpl in Hrow1. subst c.
  by rewrite (stablePartition_top _ Hc).
Qed.

(** ** The handlers *)

Lemma checkForMatches_returns (fresh1 fresh2 : Color) (s : Game) (g : Grid) :
  wf_grid g →
  ∃ g' chainCount score',
    resolveChain chain_fuel g 0 (Game.score s) = Some (g', chainCount, score') ∧
    wf_grid g' ∧
    scanMatches g' = Some (false, ∅) ∧
    ((g' = g ∧ chainCount = 0 ∧ score' = Game.score s) ∨
     (0 < chainCount ∧ ∃ g0, wf_grid g0 ∧ g' = applyGravity g0)) ∧
    checkForMatches fresh1 fresh2 s g =
      Next (let s1 := Game.mk g' (Game.gameState s) score' (Game.nextPuyo s)
                        (Some (generatePuyoPair fresh1 fresh2)) 0 (Game.isPaused s) in
            if rowOneOccupied g' then Game.setGameState Over s1 else s1).
Proof.
  intros Hwf.
  destruct (resolveChain_returns chain_fuel g 0 (Game.score s) Hwf)
    as (g' & cc & sc & E & Hw & Hstable & Hcase).
  { pose proof (occupied_bound g Hwf) as Hb.
    change (Z.to_nat (GRID_ROWS * GRID_COLS)) with 72%nat in Hb.
    change chain_fuel with 73%nat. lia. }
  exists g', cc, sc. split; [done|]. split; [done|]. split; [done|].
  split; [done|]. unfold checkForMatches. rewrite E. by destruct (rowOneOccupied g').
Qed.

Lemma movePuyo_lands (fresh1 fresh2 : Color) (s : Game) (cur : PuyoPair) :
  wf_grid (Game.grid s) →
  Game.gameState s = Active → Game.isPaused s = false →
  Game.currentPuyo s = Some cur →
  isValidMove (Game.grid s) (shifted Down cur) = false →
  in_bounds (PuyoPair.x cur) (PuyoPair.y cur) →
  in_bounds (getSecondPuyoPosition (PuyoPair.x cur) (PuyoPair.y cur)
               (PuyoPair.rotation cur)).1
            (getSecondPuyoPosition (PuyoPair.x cur) (PuyoPair.y cur)
               (PuyoPair.rotation cur)).2 →
  movePuyo Down fresh1 fresh2 s =
    let q := getSecondPuyoPosition (PuyoPair.x cur) (PuyoPair.y cur)
               (PuyoPair.rotation cur) in
    let committed :=
      setCell (setCell (Game.grid s) (PuyoPair.x cur) (PuyoPair.y cur)
                 (PuyoPair.color1 cur)) q.1 q.2 (PuyoPair.color2 cur) in
    checkForMatches fresh1 fresh2
      (Game.setCurrentPuyo None (Game.setGrid committed s)) committed.
Proof.
  intros Hwf Hact Hpause Hcur Hrej Hb1 Hb2.
  unfold movePuyo. rewrite Hcur, Hact, Hpause, Hrej.
  rewrite bool_decide_eq_false_2 by (by intros H; apply H).
  cbn [orb]. rewrite bool_decide_eq_true_2 by done.
  unfold placePuyo. rewrite Hcur.
  destruct (getSecondPuyoPosition _ _ _) as [x2 y2]. cbn [fst snd] in *.
  rewrite storeCell_in_bounds by done.
  rewrite storeCell_in_bounds by (by apply wf_setCell || done).
  done.
Qed.

Lemma turned_rotation (t : Turn) (cur : PuyoPair) :
  0 ≤ PuyoPair.rotation cur < 4 → 0 ≤ PuyoPair.rotation (turned t cur) < 4.
Proof.
  intros Hr. unfold turned. cbn [PuyoPair.rotation].
  assert (PuyoPair.rotation cur = 0 ∨ PuyoPair.rotation cur = 1 ∨
          PuyoPair.rotation cur = 2 ∨ PuyoPair.rotation cur = 3) as Hc by lia.
  destruct t; destruct Hc as [-> | [-> | [-> | ->]]]; done.
Qed.

Lemma second_cell_cases (x y rotation : Z) :
  0 ≤ rotation < 4 →
  (rotation = 0 ∧ getSecondPuyoPosition x y rotation = (x, y - 1)) ∨
  (rotation = 1 ∧ getSecondPuyoPosition x y rotation = (x + 1, y)) ∨
  (rotation = 2 ∧ getSecondPuyoPosition x y rotation = (x, y + 1)) ∨
  (rotation = 3 ∧ getSecondPuyoPosition x y rotation = (x - 1, y)).
Proof.
  intros Hr.
  assert (rotation = 0 ∨ rotation = 1 ∨ rotation = 2 ∨ rotation = 3) as Hc by lia.
  destruct Hc as [-> | [-> | [-> | ->]]]; auto 10.
Qed.

Lemma spawned_down_valid (g : Grid) (cur : PuyoPair) :
  topClear g → spawned cur → isValidMove g (shifted Down cur) = true.
Proof.
  intros Htop (Hx & Hy & Hr). apply isValidMove_true.
  unfold shifted. cbn [PuyoPair.x PuyoPair.y PuyoPair.rotation].
  rewrite Hx, Hy, Hr. cbn.
  destruct (Htop 2) as [H0 H1]; [done|]. done.
Qed.

(** The grid that [placePuyo] hands to [checkForMatches]. *)
Lemma committed_cells (g : Grid) (cur : PuyoPair) :
  wf_grid g → 0 ≤ PuyoPair.rotation cur < 4 →
  in_bounds (PuyoPair.x cur) (PuyoPair.y cur) →
  ∀ q, q = getSecondPuyoPosition (PuyoPair.x cur) (PuyoPair.y cur)
             (PuyoPair.rotation cur) →
  in_bounds q.1 q.2 →
  ∀ committed,
    committed = setCell (setCell g (PuyoPair.x cur) (PuyoPair.y cur)
                           (PuyoPair.color1 cur)) q.1 q.2 (PuyoPair.color2 cur) →
    wf_grid committed ∧
    cellAt committed (PuyoPair.x cur) (PuyoPair.y cur) = PuyoPair.color1 cur ∧
    cellAt committed q.1 q.2 = PuyoPair.color2 cur ∧
    (∀ x' y', (x', y') ≠ (PuyoPair.x cur, PuyoPair.y cur) → (x', y') ≠ q →
              cellAt committed x' y' = cellAt g x' y').
Proof.
  intros Hwf Hr Hb1 q Hq Hb2 committed ->.
  assert (Hw1 : wf_grid (setCell g (PuyoPair.x cur) (PuyoPair.y cur)
                           (PuyoPair.color1 cur))) by by apply wf_setCell.
  assert (Hne : (q.1, q.2) ≠ (PuyoPair.x cur, PuyoPair.y cur)).
  { destruct (second_cell_cases (PuyoPair.x cur) (PuyoPair.y cur) _ Hr)
      as [[_ E]|[[_ E]|[[_ E]|[_ E]]]]; rewrite <- Hq in E; rewrite E;
      cbn [fst snd]; intros [=]; lia. }
  split; [by apply wf_setCell|]. split; [|split].
  - rewrite cellAt_setCell by done. rewrite decide_False by done.
    by apply cellAt_setCell_eq.
  - by apply cellAt_setCell_eq.
  - intros x' y' Hn1 Hn2. rewrite !cellAt_setCell by done.
    rewrite decide_False by (intros E; apply Hn2; destruct q; by rewrite <- E).
    by rewrite decide_False by (intros E; apply Hn1; by rewrite <- E).
Qed.

Lemma movePuyo_inert (d : Direction) (fresh1 fresh2 : Color) (s : Game) :
  Game.gameState s ≠ Active ∨ Game.isPaused s = true →
  movePuyo d fresh1 fresh2 s = Next s.
Proof.
  intros Hn. unfold movePuyo. destruct (Game.currentPuyo s); [|done].
  destruct Hn as [Hn| ->].
  - by rewrite bool_decide_eq_true_2 by done.
  - by rewrite orb_true_r.
Qed.

Lemma rotatePuyo_inert (t : Turn) (s : Game) :
  Game.gameState s ≠ Active ∨ Game.isPaused s = true →
  rotatePuyo t s = Next s.
Proof.
  intros Hn. unfold rotatePuyo. destruct (Game.currentPuyo s); [|done].
  destruct Hn as [Hn| ->].
  - by rewrite bool_decide_eq_true_2 by done.
  - by rewrite orb_true_r.
Qed.

Lemma movePuyo_idle (d : Direction) (fresh1 fresh2 : Color) (s : Game) :
  Game.currentPuyo s = None → movePuyo d fresh1 fresh2 s = Next s.
Proof. intros Hc. unfold movePuyo. by rewrite Hc. Qed.

Lemma rotatePuyo_idle (t : Turn) (s : Game) :
  Game.currentPuyo s = None → rotatePuyo t s = Next s.
Proof. intros Hc. unfold rotatePuyo. by rewrite Hc. Qed.

Lemma movePuyo_accepts (d : Direction) (fresh1 fresh2 : Color) (s : Game) (cur : PuyoPair) :
  Game.gameState s = Active → Game.isPaused s = false →
  Game.currentPuyo s = Some cur →
  isValidMove (Game.grid s) (shifted d cur) = true →
  movePuyo d fresh1 fresh2 s = Next (Game.setCurrentPuyo (Some (shifted d cur)) s).
Proof.
  intros Hact Hp Hcur Hv. unfold movePuyo. rewrite Hcur, Hact, Hp, Hv.
  by rewrite bool_decide_eq_false_2 by (by intros H; apply H).
Qed.

Lemma movePuyo_ignored (d : Direction) (fresh1 fresh2 : Color) (s : Game) (cur : PuyoPair) :
  Game.currentPuyo s = Some cur →
  isValidMove (Game.grid s) (shifted d cur) = false → d ≠ Down →
  movePuyo d fresh1 fresh2 s = Next s.
Proof.
  intros Hcur Hv Hd. unfold movePuyo. rewrite Hcur, Hv.
  rewrite (bool_decide_eq_false_2 (d = Down)) by done.
  by destruct (_ || _).
Qed.

Lemma rotatePuyo_accepts (t : Turn) (s : Game) (cur : PuyoPair) :
  Game.gameState s = Active → Game.isPaused s = false →
  Game.currentPuyo s = Some cur →
  isValidMove (Game.grid s) (turned t cur) = true →
  rotatePuyo t s = Next (Game.setCurrentPuyo (Some (turned t cur)) s).
Proof.
  intros Hact Hp Hcur Hv. unfold rotatePuyo. rewrite Hcur, Hact, Hp, Hv.
  by rewrite bool_decide_eq_false_2 by (by intros H; apply H).
Qed.

Lemma rotatePuyo_ignored (t : Turn) (s : Game) (cur : PuyoPair) :
  Game.currentPuyo s = Some cur →
  isValidMove (Game.grid s) (turned t cur) = false →
  rotatePuyo t s = Next s.
Proof.
  intros Hcur Hv. unfold rotatePuyo. rewrite Hcur, Hv. by destruct (_ || _).
Qed.

(** ** The invariant holds along every run *)

Lemma cellAt_createEmptyGrid (x y : Z) : cellAt createEmptyGrid x y = None.
Proof.
  unfold cellAt, createEmptyGrid. destruct (_ && _); [|done].
  destruct (replicate _ _ !! Z.to_nat y) as [row|] eqn:Hrow; [|done].
  apply lookup_replicate in Hrow as [-> _].
  destruct (replicate _ _ !! Z.to_nat x) as [c|] eqn:Hc; [|done].
  by apply lookup_replicate in Hc as [-> _].
Qed.

Lemma horizontal_down_valid (g : Grid) (cur : PuyoPair) :
  topClear g → PuyoPair.y cur = 0 →
  PuyoPair.rotation cur = 1 ∨ PuyoPair.rotation cur = 3 →
  isValidMove g cur = true →
  isValidMove g (shifted Down cur) = true.
Proof.
  intros Htop Hy Hr Hv. apply isValidMove_true in Hv as (Hb1 & Hb2 & _).
  apply isValidMove_true. unfold shifted.
  cbn [PuyoPair.x PuyoPair.y PuyoPair.rotation].
  rewrite !bool_decide_eq_false_2 by done. rewrite bool_decide_eq_true_2 by done.
  rewrite Hy in *. unfold in_bounds in *.
  destruct Hr as [Hr|Hr]; rewrite Hr in *; cbn [getSecondPuyoPosition fst snd] in *.
  - destruct (Htop (PuyoPair.x cur)) as [_ ?]; [lia|].
    destruct (Htop (PuyoPair.x cur + 1)) as [_ ?]; [lia|].
    unfold GRID_ROWS. repeat split; (done || lia).
  - destruct (Htop (PuyoPair.x cur)) as [_ ?]; [lia|].
    destruct (Htop (PuyoPair.x cur - 1)) as [_ ?]; [lia|].
    unfold GRID_ROWS. repeat split; (done || lia).
Qed.

(** A landing that leaves row 1 empty leaves row 0 empty as well. *)
Lemma landing_top_clear (g : Grid) (cur : PuyoPair) :
  wf_grid g → topClear g → solid cur → 0 ≤ PuyoPair.rotation cur < 4 →
  isValidMove g cur = true →
  isValidMove g (shifted Down cur) = false →
  ∀ q, q = getSecondPuyoPosition (PuyoPair.x cur) (PuyoPair.y cur)
             (PuyoPair.rotation cur) →
  ∀ committed,
    committed = setCell (setCell g (PuyoPair.x cur) (PuyoPair.y cur)
                           (PuyoPair.color1 cur)) q.1 q.2 (PuyoPair.color2 cur) →
    (∀ x', 0 ≤ x' < GRID_COLS → cellAt committed x' 1 = None) →
    topClear committed.
Proof.
  intros Hwf Htop [Hs1 Hs2] Hr Hv Hrej q Hq committed Hcom Hrow1.
  apply isValidMove_true in Hv as Hv'. destruct Hv' as (Hb1 & Hb2 & _).
  cbn zeta in Hb2. rewrite <- Hq in Hb2.
  destruct (committed_cells g cur Hwf Hr Hb1 q Hq Hb2 committed Hcom)
    as (Hw & Hc1 & Hc2 & Hoth).
  assert (Hy1 : PuyoPair.y cur ≠ 1).
  { intros Hy. rewrite Hy in Hc1. rewrite Hrow1 in Hc1; [done|].
    unfold in_bounds in Hb1. lia. }
  assert (Hq1 : q.2 ≠ 1).
  { intros Hy. rewrite Hy in Hc2. rewrite Hrow1 in Hc2; [done|].
    unfold in_bounds in Hb2. lia. }
  assert (Hhor : PuyoPair.rotation cur = 1 ∨ PuyoPair.rotation cur = 3 →
                 PuyoPair.y cur ≠ 0).
  { intros Hr0 Hy. by rewrite horizontal_down_valid in Hrej. }
  assert (Hrows : PuyoPair.y cur ≠ 0 ∧ q.2 ≠ 0).
  { unfold in_bounds in Hb1, Hb2.
    destruct (second_cell_cases (PuyoPair.x cur) (PuyoPair.y cur) _ Hr)
      as [[Hr0 E]|[[Hr0 E]|[[Hr0 E]|[Hr0 E]]]]; rewrite <- Hq in E; rewrite E in *;
      cbn [fst snd] in *; lia. }
  intros x' Hx'. split; [|by apply Hrow1].
  rewrite Hoth.
  - by apply Htop.
  - intros [= _ E]. by destruct Hrows as [? _].
  - intros E. destruct Hrows as [_ Hn]. apply Hn. by rewrite <- E.
Qed.

Lemma invariant_initial : invariant initialGame.
Proof. split; [apply wf_createEmptyGrid|]. intros [=]. Qed.

Lemma invariant_startGame (a1 a2 b1 b2 : Color) (s : Game) :
  invariant (startGame a1 a2 b1 b2 s).
Proof.
  split; [apply wf_createEmptyGrid|]. intros _. cbn. split; [|split].
  - intros x _. by rewrite !cellAt_createEmptyGrid.
  - eexists. split; [done|]. split; [done|]. split; [done|]. by left.
  - eexists. split; [done|]. split; done.
Qed.

(** A rejected down request of an active game lands a piece that the
    validator had accepted where it is. *)
Lemma invariant_landing_piece (s : Game) (cur : PuyoPair) :
  invariant s → Game.gameState s = Active →
  Game.currentPuyo s = Some cur →
  isValidMove (Game.grid s) (shifted Down cur) = false →
  topClear (Game.grid s) ∧ solid cur ∧ 0 ≤ PuyoPair.rotation cur < 4 ∧
  isValidMove (Game.grid s) cur = true.
Proof.
  intros [Hwf Hinv] Hact Hcur Hrej.
  destruct (Hinv Hact) as (Htop & (cur' & Hcur' & Hsolid & Hr & Hpos) & _).
  rewrite Hcur in Hcur'. inversion Hcur'; subst cur'.
  split; [done|]. split; [done|]. split; [done|].
  destruct Hpos as [Hsp|Hv]; [|done].
  by rewrite (spawned_down_valid _ _ Htop Hsp) in Hrej.
Qed.

Lemma invariant_movePuyo (d : Direction) (fresh1 fresh2 : Color) (s s' : Game) :
  invariant s → movePuyo d fresh1 fresh2 s = Next s' → invariant s'.
Proof.
  intros Hinv Hstep.
  destruct (decide (Game.gameState s = Active)) as [Hact|Hact];
    [|rewrite movePuyo_inert in Hstep by (by left); by inversion Hstep; subst].
  destruct (Game.isPaused s) eqn:Hp;
    [rewrite movePuyo_inert in Hstep by (by right); by inversion Hstep; subst|].
  destruct (Game.currentPuyo s) as [cur|] eqn:Hcur;
    [|rewrite movePuyo_idle in Hstep by done; by inversion Hstep; subst].
  destruct (isValidMove (Game.grid s) (shifted d cur)) eqn:Hv.
  - rewrite (movePuyo_accepts d _ _ s cur) in Hstep by done.
    inversion Hstep; subst s'. destruct Hinv as [Hwf Hinv].
    split; [done|]. intros _.
    destruct (Hinv Hact) as (Htop & (cur' & Hcur' & Hsolid & Hr & _) & Hnext).
    rewrite Hcur in Hcur'. inversion Hcur'; subst cur'.
    split; [done|]. split; [|done].
    exists (shifted d cur). split; [done|]. split; [done|]. split; [done|].
    by right.
  - destruct (decide (d = Down)) as [->|Hd];
      [|rewrite (movePuyo_ignored d _ _ s cur) in Hstep by done;
        by inversion Hstep; subst].
    destruct (invariant_landing_piece s cur Hinv Hact Hcur Hv)
      as (Htop & Hsolid & Hr & Hpos).
    destruct Hinv as [Hwf Hinv].
    destruct (Hinv Hact) as (_ & _ & Hnext).
    apply isValidMove_true in Hpos as Hpos'. destruct Hpos' as (Hb1 & Hb2 & _).
    cbn zeta in Hb2.
    rewrite (movePuyo_lands _ _ s cur) in Hstep by done. cbn zeta in Hstep.
    set (q := getSecondPuyoPosition (PuyoPair.x cur) (PuyoPair.y cur)
                (PuyoPair.rotation cur)) in *.
    set (committed := setCell (setCell (Game.grid s) (PuyoPair.x cur)
                         (PuyoPair.y cur) (PuyoPair.color1 cur))
                        q.1 q.2 (PuyoPair.color2 cur)) in *.
    destruct (committed_cells (Game.grid s) cur Hwf Hr Hb1 q eq_refl Hb2
                committed eq_refl) as (Hwc & _).
    destruct (checkForMatches_returns fresh1 fresh2
                (Game.setCurrentPuyo None (Game.setGrid committed s))
                committed Hwc)
      as (g' & cc & sc & _ & Hw' & _ & Hcase & Hcheck).
    rewrite Hcheck in Hstep. inversion Hstep as [Hs']. clear Hstep Hcheck.
    destruct (rowOneOccupied g') eqn:Hrow.
    + split; [done|]. cbn. intros [=].
    + split; [done|]. intros _. cbn.
      pose proof (proj1 (rowOneOccupied_false g' Hw') Hrow) as Hrow1.
      split; [|split].
      * destruct Hcase as [(-> & _)|(_ & g0 & Hw0 & ->)].
        -- by apply (landing_top_clear (Game.grid s) cur Hwf Htop Hsolid Hr Hpos
                       Hv q eq_refl committed eq_refl).
        -- by apply topClear_applyGravity.
      * destruct Hnext as (nxt & Hnxt & Hsn & Hsp).
        exists nxt. split; [done|]. split; [done|]. split; [|by left].
        destruct Hsp as (_ & _ & ->). done.
      * eexists. split; [done|]. split; done.
Qed.

Lemma invariant_rotatePuyo (t : Turn) (s s' : Game) :
  invariant s → rotatePuyo t s = Next s' → invariant s'.
Proof.
  intros Hinv Hstep.
  destruct (decide (Game.gameState s = Active)) as [Hact|Hact];
    [|rewrite rotatePuyo_inert in Hstep by (by left); by inversion Hstep; subst].
  destruct (Game.isPaused s) eqn:Hp;
    [rewrite rotatePuyo_inert in Hstep by (by right); by inversion Hstep; subst|].
  destruct (Game.currentPuyo s) as [cur|] eqn:Hcur;
    [|rewrite rotatePuyo_idle in Hstep by done; by inversion Hstep; subst].
  destruct (isValidMove (Game.grid s) (turned t cur)) eqn:Hv;
    [|rewrite (rotatePuyo_ignored t s cur) in Hstep by done;
      by inversion Hstep; subst].
  rewrite (rotatePuyo_accepts t s cur) in Hstep by done.
  inversion Hstep; subst s'. destruct Hinv as [Hwf Hinv].
  split; [done|]. intros _.
  destruct (Hinv Hact) as (Htop & (cur' & Hcur' & Hsolid & Hr & _) & Hnext).
  rewrite Hcur in Hcur'. inversion Hcur'; subst cur'.
  split; [done|]. split; [|done].
  exists (turned t cur). split; [done|]. split; [done|].
  split; [by apply turned_rotation|by right].
Qed.

Lemma invariant_handle (e : Event) (s s' : Game) :
  invariant s → handle e s = Next s' → invariant s'.
Proof.
  intros Hinv Hstep. destruct e as [a1 a2 b1 b2| |d f1 f2|t]; cbn [handle] in Hstep.
  - inversion Hstep; subst. apply invariant_startGame.
  - inversion Hstep; subst. exact Hinv.
  - by eapply invariant_movePuyo.
  - by eapply invariant_rotatePuyo.
Qed.

Lemma reachable_invariant (s : Game) : reachable s → invariant s.
Proof.
  induction 1 as [|s e s' _ IH Hstep]; [apply invariant_initial|].
  by eapply invariant_handle.
Qed.

Lemma reachable_run (events : list Event) :
  ∀ s s', reachable s → run events s = Next s' → reachable s'.
Proof.
  induction events as [|e events IH]; intros s s' Hr Hrun.
  - cbn in Hrun. by inversion Hrun; subst.
  - cbn [run] in Hrun. destruct (handle e s) as [s1| | |] eqn:He; try done.
    eapply IH; [|exact Hrun]. by eapply reachable_next.
Qed.

Lemma reachable_stateAfter (events : list Event) (s : Game) :
  run events initialGame = Next s → reachable (stateAfter events).
Proof.
  intros Hrun. unfold stateAfter. rewrite Hrun.
  eapply reachable_run; [apply reachable_initial|exact Hrun].
Qed.

Lemma resolveChain_score_shift (fuel : nat) :
  ∀ (g : Grid) (chainCount score delta : Z),
    resolveChain fuel g chainCount (score + delta) =
      (λ r : Grid * Z * Z, (r.1, r.2 + delta)) <$> resolveChain fuel g chainCount score.
Proof.
  induction fuel as [|fuel IH]; intros g chainCount score delta; [done|].
  rewrite !resolveChain_S.
  destruct (scanMatches g) as [[[] M]|]; cbn [mbind option_bind]; [|done..].
  rewrite <- IH. f_equal. lia.
Qed.

Lemma resolveChain_from_zero (fuel : nat) (g g' : Grid) (chainCount score cc delta : Z) :
  resolveChain fuel g chainCount 0 = Some (g', cc, delta) →
  resolveChain fuel g chainCount score = Some (g', cc, score + delta).
Proof.
  intros E. replace score with (0 + score) at 1 by lia.
  rewrite resolveChain_score_shift, E. cbn. do 2 f_equal. lia.
Qed.

(** * Main results *)

Lemma wf_gridL4 : wf_grid gridL4.
Proof. split; [reflexivity|]. repeat constructor. Qed.

Lemma wf_gridL3 : wf_grid gridL3.
Proof. split; [reflexivity|]. repeat constructor. Qed.

Lemma wf_gridCascade : wf_grid gridCascade.
Proof. split; [reflexivity|]. repeat constructor. Qed.

Lemma wf_gridCascadeSettled : wf_grid gridCascadeSettled.
Proof. split; [reflexivity|]. repeat constructor. Qed.

(** The validator in terms of the cell that [getSecondPuyoPosition]
    returns. *)
Lemma isValidMove_second_cell (grid : Grid) (puyo : PuyoPair) :
  wf_grid grid →
  let x := PuyoPair.x puyo in
  let y := PuyoPair.y puyo in
  let second := getSecondPuyoPosition x y (PuyoPair.rotation puyo) in
  isValidMove grid puyo = true ↔
    (0 ≤ x ∧ x < GRID_COLS ∧ 0 ≤ y ∧ y < GRID_ROWS) ∧
    (0 ≤ second.1 ∧ second.1 < GRID_COLS ∧ 0 ≤ second.2 ∧ second.2 < GRID_ROWS) ∧
    (∃ row, grid !! Z.to_nat y = Some row ∧ row !! Z.to_nat x = Some None) ∧
    (∃ row, grid !! Z.to_nat second.2 = Some row ∧
            row !! Z.to_nat second.1 = Some None).
Proof.
  intros Hwf x y second. rewrite isValidMove_true. cbn zeta.
  fold x y second. split.
  - intros (Hb1 & Hb2 & He1 & He2). split; [done|]. split; [done|].
    destruct (wf_cell grid x y Hwf Hb1) as (row1 & Hr1 & Hc1).
    destruct (wf_cell grid second.1 second.2 Hwf Hb2) as (row2 & Hr2 & Hc2).
    rewrite He1 in Hc1. rewrite He2 in Hc2.
    split; [by exists row1|by exists row2].
  - intros (Hb1 & Hb2 & (row1 & Hr1 & Hc1) & (row2 & Hr2 & Hc2)).
    split; [done|]. split; [done|].
    destruct (wf_cell grid x y Hwf Hb1) as (row1' & Hr1' & Hc1').
    destruct (wf_cell grid second.1 second.2 Hwf Hb2) as (row2' & Hr2' & Hc2').
    rewrite Hr1 in Hr1'. rewrite Hr2 in Hr2'.
    inversion Hr1'; inversion Hr2'; subst row1' row2'.
    rewrite Hc1 in Hc1'. rewrite Hc2 in Hc2'.
    by inversion Hc1'; inversion Hc2'.
Qed.

(** C1.  On a 12 by 6 grid, for a piece with anchor [(x, y)]: the second
    cell is [(x, y - 1)] (up) for rotation 0, [(x + 1, y)] (right) for
    rotation 1, [(x, y + 1)] (down) for rotation 2 and [(x - 1, y)] (left)
    for rotation 3, and this is the cell [getSecondPuyoPosition] computes;
    [isValidMove] answers [true] exactly when the anchor cell and that
    second cell are both inside the bounds [0 ≤ col < 6], [0 ≤ row < 12]
    and both of these cells of the grid are empty.  (For a rotation value
    outside 0..3 the code takes the anchor itself as the second cell; the
    statement covers that case too.) *)
Theorem isValidMove_legal_iff (grid : Grid) (puyo : PuyoPair) :
  wf_grid grid →
  let x := PuyoPair.x puyo in
  let y := PuyoPair.y puyo in
  let x2 := match PuyoPair.rotation puyo with 1 => x + 1 | 3 => x - 1 | _ => x end in
  let y2 := match PuyoPair.rotation puyo with 0 => y - 1 | 2 => y + 1 | _ => y end in
  getSecondPuyoPosition x y (PuyoPair.rotation puyo) = (x2, y2) ∧
  (isValidMove grid puyo = true ↔
     (0 ≤ x ∧ x < 6 ∧ 0 ≤ y ∧ y < 12) ∧
     (0 ≤ x2 ∧ x2 < 6 ∧ 0 ≤ y2 ∧ y2 < 12) ∧
     (∃ row, grid !! Z.to_nat y = Some row ∧ row !! Z.to_nat x = Some None) ∧
     (∃ row, grid !! Z.to_nat y2 = Some row ∧ row !! Z.to_nat x2 = Some None)).
Proof.
  intros Hwf x y x2 y2.
  assert (Hsec : getSecondPuyoPosition x y (PuyoPair.rotation puyo) = (x2, y2)).
  { unfold getSecondPuyoPosition, x2, y2.
    destruct (PuyoPair.rotation puyo) as [|p|p]; [reflexivity| |reflexivity].
    destruct p as [p|p|]; [destruct p; reflexivity|destruct p; reflexivity|reflexivity]. }
  split; [exact Hsec|].
  pose proof (isValidMove_second_cell grid puyo Hwf) as Hiff. cbn zeta in Hiff.
  fold x y in Hiff. rewrite Hsec in Hiff. cbn [fst snd] in Hiff.
  exact Hiff.
Qed.

Lemma isValidMove_legal_iff_witness :
  wf_grid gridL4 ∧
  isValidMove gridL4 (PuyoPair.mk (Some Red) (Some Green) 1 10 0) = true ∧
  isValidMove gridL4 (PuyoPair.mk (Some Red) (Some Green) 1 10 3) = false ∧
  isValidMove createEmptyGrid (generatePuyoPair Red Green) = false.
Proof.
  assert (Hwf : wf_grid gridL4) by (split; [reflexivity|repeat constructor]).
  assert (Hwe : wf_grid createEmptyGrid) by (split; [reflexivity|repeat constructor]).
  split; [exact Hwf|].
  destruct (isValidMove_legal_iff gridL4 (PuyoPair.mk (Some Red) (Some Green) 1 10 0) Hwf)
    as [_ Hup].
  destruct (isValidMove_legal_iff gridL4 (PuyoPair.mk (Some Red) (Some Green) 1 10 3) Hwf)
    as [_ Hleft].
  destruct (isValidMove_legal_iff createEmptyGrid (generatePuyoPair Red Green) Hwe)
    as [_ Hspawn].
  split; [|split].
  - apply Hup. cbn. repeat split; try lia; eexists; split; reflexivity.
  - destruct (isValidMove gridL4 (PuyoPair.mk (Some Red) (Some Green) 1 10 3)) eqn:E;
      [|reflexivity].
    destruct Hleft as [Hleft _].
    destruct (Hleft eq_refl) as (_ & _ & _ & row & Hrow & Hcell).
    vm_compute in Hrow. inversion Hrow; subst row. vm_compute in Hcell.
    discriminate Hcell.
  - destruct (isValidMove createEmptyGrid (generatePuyoPair Red Green)) eqn:E;
      [|reflexivity].
    destruct Hspawn as [Hspawn _].
    destruct (Hspawn eq_refl) as (_ & (_ & _ & Hrow & _) & _).
    cbn in Hrow. lia.
Defined.

(** C5.  On a 12 by 6 grid, [applyGravity] keeps the shape of the grid and
    turns every column, independently of the others, into its stable
    partition: the empty cells first (on top), then the non-empty cells (at
    the bottom) in the vertical order they had. *)
Theorem applyGravity_stable_partition (grid : Grid) :
  wf_grid grid →
  wf_grid (applyGravity grid) ∧
  ∀ x, 0 ≤ x < GRID_COLS →
    column (applyGravity grid) x = stablePartition (column grid x) ∧
    filter (λ c, c ≠ None) (column (applyGravity grid) x)
      = filter (λ c, c ≠ None) (column grid x).
Proof.
  intros Hwf. destruct (applyGravity_columns grid Hwf) as [Hw Hcols].
  split; [done|]. intros x Hx. rewrite Hcols by done.
  split; [done|]. apply filter_occupied_stablePartition.
Qed.

Lemma applyGravity_stable_partition_witness :
  wf_grid gridCascadeSettled ∧
  column (applyGravity gridCascadeSettled) 0
    = stablePartition (column gridCascadeSettled 0).
Proof.
  split; [split; [reflexivity|repeat constructor]|].
  destruct (applyGravity_stable_partition gridCascadeSettled) as [_ Hcols].
  - split; [reflexivity|repeat constructor].
  - destruct (Hcols 0) as [Hcol _]; [unfold GRID_COLS; lia|]. exact Hcol.
Defined.

(** C8.  On a 12 by 6 grid, applying gravity twice gives the same grid as
    applying it once. *)
Theorem applyGravity_idempotent (grid : Grid) :
  wf_grid grid → applyGravity (applyGravity grid) = applyGravity grid.
Proof.
  intros Hwf. destruct (applyGravity_columns grid Hwf) as [Hw Hcols].
  destruct (applyGravity_columns _ Hw) as [Hw2 Hcols2].
  apply grid_ext_column; [done..|]. intros x Hx.
  rewrite Hcols2, Hcols by done. apply stablePartition_idem.
Qed.

Lemma applyGravity_idempotent_witness :
  wf_grid gridCascade ∧
  applyGravity (applyGravity gridCascade) = applyGravity gridCascade.
Proof.
  split; [split; [reflexivity|repeat constructor]|].
  apply (applyGravity_idempotent gridCascade).
  split; [reflexivity|repeat constructor].
Defined.

(** C2.  One pass of the resolver on a 12 by 6 grid.  The scan returns; it
    marks exactly the cells that lie in a group (cells of one colour joined
    by up, down, left and right steps) of at least four cells, all groups
    being found on the grid as it is before any cell is removed; and the
    removal empties exactly the marked cells and leaves every other cell as
    it was.  So every cell of a group of exactly four becomes empty, and
    every cell of a group of exactly three keeps its colour.  The loop body
    is this scan followed, when something was marked, by the removal, the
    score and gravity.  The L of four
    red cells [gridL4] resolves to the empty grid in one pass, and the three
    red cells of [gridL3] stay. *)
Theorem pass_clears_exactly_the_groups_of_four (grid : Grid) :
  wf_grid grid →
  ∃ (hasMatches : bool) (matchedPuyos : gset key),
    scanMatches grid = Some (hasMatches, matchedPuyos) ∧
    (∀ p, p ∈ matchedPuyos ↔ qualifies grid p) ∧
    (hasMatches = true ↔ ∃ p, qualifies grid p) ∧
    (∀ x y, cellAt (removeMatched grid matchedPuyos) x y =
              if decide ((x, y) ∈ matchedPuyos) then None else cellAt grid x y) ∧
    (∀ c p G, is_group grid c p G → p ∈ G → size G = 4%nat →
       ∀ q, q ∈ G → cellAt (removeMatched grid matchedPuyos) q.1 q.2 = None) ∧
    (∀ c p G, is_group grid c p G → p ∈ G → size G = 3%nat →
       ∀ q, q ∈ G → cellAt (removeMatched grid matchedPuyos) q.1 q.2 = Some c) ∧
    (∀ fuel chainCount score,
       resolveChain (S fuel) grid chainCount score =
         if hasMatches
         then resolveChain fuel (applyGravity (removeMatched grid matchedPuyos))
                (chainCount + 1)
                (score + passPoints (Z.of_nat (size matchedPuyos)) (chainCount + 1))
         else Some (grid, chainCount, score)) ∧
    resolveChain chain_fuel gridL4 0 0 = Some (createEmptyGrid, 1, 40) ∧
    resolveChain chain_fuel gridL3 0 0 = Some (gridL3, 0, 0).
Proof.
  intros Hwf. destruct (scanMatches_spec grid) as (has & M & E & HM & Hhas & _).
  assert (Hb : ∀ p, p ∈ M → in_bounds p.1 p.2).
  { intros p Hp. by apply qualifies_in_bounds with grid, HM. }
  assert (Hcell : ∀ x y, cellAt (removeMatched grid M) x y =
                    if decide ((x, y) ∈ M) then None else cellAt grid x y).
  { intros x y. by apply cellAt_removeMatched. }
  exists has, M. split; [done|]. split; [done|]. split; [done|].
  split; [done|]. split; [|split; [|split; [|split]]].
  - intros c p G HG Hp Hsz q Hq. rewrite Hcell.
    replace (q.1, q.2) with q by (by destruct q).
    rewrite decide_True; [done|]. apply HM.
    exists c, G. split; [by eapply is_group_shift|]. split; [done|lia].
  - intros c p G HG Hp Hsz q Hq. rewrite Hcell.
    replace (q.1, q.2) with q by (by destruct q).
    assert (HGq : is_group grid c q G) by by eapply is_group_shift.
    rewrite decide_False.
    + by destruct (qualifies_coloured grid c q G HGq Hq).
    + rewrite HM. intros (c' & G' & HG' & Hq' & Hsz').
      destruct (qualifies_coloured grid c _ G HGq Hq) as [_ Hc].
      destruct (qualifies_coloured grid c' _ G' HG' Hq') as [_ Hc'].
      rewrite Hc in Hc'. inversion Hc'; subst c'.
      rewrite (is_group_unique grid c _ G G' HGq HG') in Hsz. lia.
  - intros fuel chainCount score. rewrite resolveChain_S, E. by destruct has.
  - vm_compute. reflexivity.
  - vm_compute. reflexivity.
Qed.

Lemma pass_clears_exactly_the_groups_of_four_witness :
  wf_grid gridL4 ∧
  ∃ (hasMatches : bool) (matchedPuyos : gset key),
    scanMatches gridL4 = Some (hasMatches, matchedPuyos) ∧
    (hasMatches = true ↔ ∃ p, qualifies gridL4 p).
Proof.
  split; [split; [reflexivity|repeat constructor]|].
  destruct (pass_clears_exactly_the_groups_of_four gridL4)
    as (has & M & E & _ & Hhas & _).
  - split; [reflexivity|repeat constructor].
  - by exists has, M.
Defined.

(** C3.  A pass of the loop that finds something to clear on a 12 by 6 grid,
    entered with [chainCount] earlier clearing passes: it is pass number
    [chainCount + 1], the number [cleared] of cells that the removal empties
    is the size of the marked set, and the loop goes on with the score
    raised by [cleared * 10 * 2 ^ (pass - 1) + max 0 (cleared - 4) * 5].
    Clearing the four cells of [gridL4] in pass 1 adds 40; clearing the five
    cells of [gridCascadeSettled] in pass 2 adds 105. *)
Theorem pass_adds_points (fuel : nat) (grid : Grid) (chainCount score : Z)
    (matchedPuyos : gset key) :
  wf_grid grid →
  scanMatches grid = Some (true, matchedPuyos) →
  let cleared :=
    Z.of_nat (occupied grid) - Z.of_nat (occupied (removeMatched grid matchedPuyos)) in
  let pass := chainCount + 1 in
  cleared = Z.of_nat (size matchedPuyos) ∧
  resolveChain (S fuel) grid chainCount score =
    resolveChain fuel (applyGravity (removeMatched grid matchedPuyos)) pass
      (score + (cleared * 10 * 2 ^ (pass - 1) + Z.max 0 (cleared - 4) * 5)) ∧
  (occupied gridL4 - occupied createEmptyGrid = 4)%nat ∧
  resolveChain chain_fuel gridL4 0 score = Some (createEmptyGrid, 1, score + 40) ∧
  (occupied gridCascadeSettled - occupied createEmptyGrid = 5)%nat ∧
  resolveChain chain_fuel gridCascadeSettled 1 score
    = Some (createEmptyGrid, 2, score + 105).
Proof.
  intros Hwf Hscan cleared pass.
  destruct (scanMatches_spec grid) as (has & M & E & HM & _ & _).
  rewrite Hscan in E. inversion E; subst has M.
  assert (Hcl : cleared = Z.of_nat (size matchedPuyos)).
  { unfold cleared.
    pose proof (occupied_removeMatched grid matchedPuyos Hwf) as Hocc.
    rewrite <- Hocc by (intros p Hp; by apply HM). lia. }
  split; [done|]. split; [|split; [|split; [|split]]].
  - rewrite resolveChain_S, Hscan. cbn [mbind option_bind].
    rewrite Hcl. reflexivity.
  - vm_compute. reflexivity.
  - apply resolveChain_from_zero. vm_compute. reflexivity.
  - vm_compute. reflexivity.
  - apply resolveChain_from_zero. vm_compute. reflexivity.
Qed.

Lemma pass_adds_points_witness :
  wf_grid gridL4 ∧
  scanMatches gridL4 = Some (true, {[ (0, 9); (0, 10); (0, 11); (1, 11) ]}) ∧
  resolveChain 2 gridL4 0 0 =
    resolveChain 1 (applyGravity
                      (removeMatched gridL4 {[ (0, 9); (0, 10); (0, 11); (1, 11) ]}))
      1 (0 + (4 * 10 * 2 ^ (1 - 1) + Z.max 0 (4 - 4) * 5)).
Proof.
  split; [split; [reflexivity|repeat constructor]|].
  split; [vm_compute; reflexivity|].
  destruct (pass_adds_points 1 gridL4 0 0 {[ (0, 9); (0, 10); (0, 11); (1, 11) ]})
    as (Hcl & Hrun & _).
  - split; [reflexivity|repeat constructor].
  - vm_compute. reflexivity.
  - rewrite Hrun. cbn zeta. rewrite Hcl. reflexivity.
Defined.

(** C6.  On a 12 by 6 grid the chain loop of [checkForMatches] returns: at
    most 18 passes clear something, so 19 passes of fuel or more all give the
    same result.  The reason is that a pass that clears empties at least
    four occupied cells and gravity moves cells without adding any, so the
    number of occupied cells drops by at least four.  The one call goes on
    until no group of four or more is left: the chain count it returns is 0
    exactly when the grid holds no such group, 1 exactly when the first pass
    clears and the grid that gravity leaves holds none, and at least 2, with
    the points of the first and of the second pass both added, whenever the
    first pass and gravity expose another group.  On [gridCascade] the
    first pass clears the four reds, gravity drops the greens into
    [gridCascadeSettled], the second pass clears the five greens, and the
    one call of [checkForMatches] returns with both passes done, the chain
    count having reached 2. *)
Theorem chain_resolution_terminates (grid : Grid) (score : Z) :
  wf_grid grid →
  (∃ result, ∀ fuel, (19 ≤ fuel)%nat → resolveChain fuel grid 0 score = Some result) ∧
  (∀ matchedPuyos, scanMatches grid = Some (true, matchedPuyos) →
     (occupied (applyGravity (removeMatched grid matchedPuyos)) + 4
      ≤ occupied grid)%nat) ∧
  (∃ newGrid chainCount score',
     resolveChain chain_fuel grid 0 score = Some (newGrid, chainCount, score') ∧
     0 ≤ chainCount ≤ 18 ∧
     (∀ p, ¬ qualifies newGrid p) ∧
     (chainCount = 0 ↔ ∀ p, ¬ qualifies grid p) ∧
     ∀ first, scanMatches grid = Some (true, first) →
       let exposed := applyGravity (removeMatched grid first) in
       (chainCount = 1 ↔ ∀ p, ¬ qualifies exposed p) ∧
       ((∃ p, qualifies exposed p) →
          2 ≤ chainCount ∧
          ∃ second, scanMatches exposed = Some (true, second) ∧
            score + passPoints (Z.of_nat (size first)) 1
                  + passPoints (Z.of_nat (size second)) 2 ≤ score')) ∧
  (∃ reds greens : gset key,
     scanMatches gridCascade = Some (true, reds) ∧ size reds = 4%nat ∧
     applyGravity (removeMatched gridCascade reds) = gridCascadeSettled ∧
     scanMatches gridCascadeSettled = Some (true, greens) ∧ size greens = 5%nat ∧
     applyGravity (removeMatched gridCascadeSettled greens) = createEmptyGrid ∧
     scanMatches createEmptyGrid = Some (false, ∅)) ∧
  resolveChain chain_fuel gridCascade 0 score = Some (createEmptyGrid, 2, score + 145) ∧
  (∀ fresh1 fresh2 s,
     checkForMatches fresh1 fresh2 s gridCascade =
       Next (Game.mk createEmptyGrid (Game.gameState s) (Game.score s + 145)
               (Game.nextPuyo s) (Some (generatePuyoPair fresh1 fresh2)) 0
               (Game.isPaused s))).
Proof.
  intros Hwf. split; [|split; [|split; [|split; [|split]]]].
  - destruct (resolveChain_returns 19 grid 0 score Hwf) as (g' & cc & sc & E & _).
    { pose proof (occupied_bound grid Hwf) as Hb.
      change (Z.to_nat (GRID_ROWS * GRID_COLS)) with 72%nat in Hb. lia. }
    exists (g', cc, sc). intros fuel Hfuel.
    by apply (resolveChain_fuel_mono 19 fuel).
  - intros M Hscan.
    destruct (clearing_pass_shrinks grid M Hwf Hscan) as (_ & Hocc & Hfour). lia.
  - by apply resolveChain_cascade.
  - exists {[ (0, 8); (0, 9); (0, 10); (0, 11) ]},
           {[ (0, 9); (0, 10); (0, 11); (1, 11); (2, 11) ]}.
    repeat split; vm_compute; reflexivity.
  - apply resolveChain_from_zero. vm_compute. reflexivity.
  - intros fresh1 fresh2 s. unfold checkForMatches.
    rewrite (resolveChain_from_zero chain_fuel gridCascade createEmptyGrid 0
               (Game.score s) 2 145) by (vm_compute; reflexivity).
    reflexivity.
Qed.

Lemma chain_resolution_terminates_witness :
  wf_grid gridCascade ∧
  (∃ result, ∀ fuel, (19 ≤ fuel)%nat → resolveChain fuel gridCascade 0 0 = Some result) ∧
  ∃ newGrid chainCount score',
    resolveChain chain_fuel gridCascade 0 0 = Some (newGrid, chainCount, score') ∧
    2 ≤ chainCount.
Proof.
  assert (Hwf : wf_grid gridCascade) by (split; [reflexivity|repeat constructor]).
  split; [exact Hwf|].
  destruct (chain_resolution_terminates gridCascade 0 Hwf) as (Htotal & _ & Hcascade & _).
  split; [exact Htotal|].
  destruct Hcascade as (newGrid & chainCount & score' & Hrun & _ & _ & _ & Hfirst).
  exists newGrid, chainCount, score'. split; [exact Hrun|].
  assert (Hreds : scanMatches gridCascade
                  = Some (true, {[ (0, 8); (0, 9); (0, 10); (0, 11) ]}))
    by (vm_compute; reflexivity).
  destruct (Hfirst _ Hreds) as [_ Hsecond].
  destruct Hsecond as [Hcount _]; [|exact Hcount].
  destruct (scanMatches_spec
              (applyGravity (removeMatched gridCascade
                               {[ (0, 8); (0, 9); (0, 10); (0, 11) ]})))
    as (has & M & E & _ & Hhas & _).
  assert (Hgreens : scanMatches
                      (applyGravity (removeMatched gridCascade
                                       {[ (0, 8); (0, 9); (0, 10); (0, 11) ]}))
                    = Some (true, {[ (0, 9); (0, 10); (0, 11); (1, 11); (2, 11) ]}))
    by (vm_compute; reflexivity).
  rewrite Hgreens in E. inversion E; subst has M.
  destruct Hhas as [Hhas _]. exact (Hhas eq_refl).
Defined.

(** C7.  [checkForMatches] on a 12 by 6 grid returns with the grid the chain
    loop ended on.  If some cell of row 1 of that grid is not empty the game
    state is [Over]; if every cell of row 1 is empty the game state is the
    one the call started with.  The score plays no part. *)
Theorem game_over_iff_row_one_occupied (fresh1 fresh2 : Color) (s : Game) (grid : Grid) :
  wf_grid grid →
  ∃ newGrid chainCount score' s',
    resolveChain chain_fuel grid 0 (Game.score s) = Some (newGrid, chainCount, score') ∧
    checkForMatches fresh1 fresh2 s grid = Next s' ∧
    Game.grid s' = newGrid ∧
    ((∃ x, 0 ≤ x < GRID_COLS ∧ cellAt newGrid x 1 ≠ None) →
       Game.gameState s' = Over) ∧
    ((∀ x, 0 ≤ x < GRID_COLS → cellAt newGrid x 1 = None) →
       Game.gameState s' = Game.gameState s).
Proof.
  intros Hwf.
  destruct (checkForMatches_returns fresh1 fresh2 s grid Hwf)
    as (g' & cc & sc & E & Hw' & _ & _ & Hcheck).
  exists g', cc, sc. eexists. split; [done|]. split; [exact Hcheck|].
  cbn zeta. destruct (rowOneOccupied g') eqn:Hrow.
  - split; [done|]. split; [done|]. intros Hall.
    apply (rowOneOccupied_false g' Hw') in Hall. congruence.
  - split; [done|]. split; [|done]. intros Hex.
    apply (rowOneOccupied_true g' Hw') in Hex. congruence.
Qed.

Lemma game_over_iff_row_one_occupied_witness :
  wf_grid (Game.grid gameOnStack) ∧
  ∃ newGrid chainCount score' s',
    resolveChain chain_fuel (Game.grid gameOnStack) 0 (Game.score gameOnStack)
      = Some (newGrid, chainCount, score') ∧
    checkForMatches Red Red gameOnStack (Game.grid gameOnStack) = Next s' ∧
    Game.grid s' = newGrid ∧
    ((∃ x, 0 ≤ x < GRID_COLS ∧ cellAt newGrid x 1 ≠ None) →
       Game.gameState s' = Over) ∧
    ((∀ x, 0 ≤ x < GRID_COLS → cellAt newGrid x 1 = None) →
       Game.gameState s' = Game.gameState gameOnStack).
Proof.
  split; [split; [reflexivity|repeat constructor]|].
  apply (game_over_iff_row_one_occupied Red Red gameOnStack (Game.grid gameOnStack)).
  split; [reflexivity|repeat constructor].
Defined.

(** A run that stacks pieces up to row 1 ends in [Over], with the sixth
    piece committed in rows 1 and 0. *)
Lemma gameStackedToTop_is_over :
  Game.gameState gameStackedToTop = Over ∧
  cellAt (Game.grid gameStackedToTop) 2 1 = Some Blue ∧
  cellAt (Game.grid gameStackedToTop) 2 0 = Some Yellow.
Proof. vm_compute. done. Qed.

(** C9.  A move or rotation request changes nothing (the handler returns
    the state it was given: piece, grid, score and game state) when the game
    state is not [Active] or the game is paused; and a left, right or
    rotation request whose target the validator rejects changes nothing. *)
Theorem rejected_requests_are_noops (s : Game) :
  (Game.gameState s ≠ Active ∨ Game.isPaused s = true →
     (∀ d fresh1 fresh2, movePuyo d fresh1 fresh2 s = Next s) ∧
     (∀ t, rotatePuyo t s = Next s)) ∧
  (∀ cur d fresh1 fresh2,
     Game.currentPuyo s = Some cur → d = Left ∨ d = Right →
     isValidMove (Game.grid s) (shifted d cur) = false →
     movePuyo d fresh1 fresh2 s = Next s) ∧
  (∀ cur t,
     Game.currentPuyo s = Some cur →
     isValidMove (Game.grid s) (turned t cur) = false →
     rotatePuyo t s = Next s).
Proof.
  split; [|split].
  - intros Hn. split.
    + intros d fresh1 fresh2. by apply movePuyo_inert.
    + intros t. by apply rotatePuyo_inert.
  - intros cur d fresh1 fresh2 Hcur Hd Hv.
    apply (movePuyo_ignored d _ _ s cur); [done..|]. by destruct Hd as [-> | ->].
  - intros cur t Hcur Hv. by apply (rotatePuyo_ignored t s cur).
Qed.

Lemma rejected_requests_are_noops_witness :
  movePuyo Down Red Red (togglePause gameAtWall) = Next (togglePause gameAtWall) ∧
  rotatePuyo TurnRight (togglePause gameAtWall) = Next (togglePause gameAtWall) ∧
  movePuyo Left Red Red gameAtWall = Next gameAtWall ∧
  rotatePuyo TurnLeft gameAtWall = Next gameAtWall.
Proof.
  destruct (rejected_requests_are_noops (togglePause gameAtWall)) as (Hinert & _ & _).
  destruct (rejected_requests_are_noops gameAtWall) as (_ & Hmove & Hturn).
  destruct Hinert as [Hm Hr]; [right; reflexivity|].
  split; [apply Hm|]. split; [apply Hr|]. split.
  - eapply Hmove; [reflexivity|by left|reflexivity].
  - eapply Hturn; reflexivity.
Defined.

(** ** Landing *)

(** In every state of a run, a rejected down request of the falling piece
    finds the piece at a position the validator had accepted. *)
Lemma reachable_landing (s : Game) (cur : PuyoPair) :
  reachable s → Game.gameState s = Active → Game.currentPuyo s = Some cur →
  isValidMove (Game.grid s) (shifted Down cur) = false →
  wf_grid (Game.grid s) ∧ 0 ≤ PuyoPair.rotation cur < 4 ∧
  isValidMove (Game.grid s) cur = true.
Proof.
  intros Hreach Hact Hcur Hrej. apply reachable_invariant in Hreach as Hinv.
  destruct (invariant_landing_piece s cur Hinv Hact Hcur Hrej) as (_ & _ & Hr & Hv).
  split; [apply Hinv|done].
Qed.

(** C4.  In every state of a run in which the game is active and not paused,
    a down request that the validator rejects commits the falling piece
    where it is: the grid handed to the resolver is the current grid with
    [color1] stored at the anchor of the piece and [color2] at its second
    cell, every other cell unchanged (so nothing is written at the rejected
    target as such); the handler returns what [checkForMatches] returns on
    that grid, where the falling piece has become the queued next piece and
    a fresh piece is queued.  When the committed grid has no group to clear,
    it is the grid of the returned state. *)
Theorem blocked_down_commits_in_place (fresh1 fresh2 : Color) (s : Game) (cur : PuyoPair) :
  reachable s →
  Game.gameState s = Active → Game.isPaused s = false →
  Game.currentPuyo s = Some cur →
  isValidMove (Game.grid s) (shifted Down cur) = false →
  let x := PuyoPair.x cur in
  let y := PuyoPair.y cur in
  let second := getSecondPuyoPosition x y (PuyoPair.rotation cur) in
  ∃ (committed : Grid) (s' : Game),
    wf_grid committed ∧
    cellAt committed x y = PuyoPair.color1 cur ∧
    cellAt committed second.1 second.2 = PuyoPair.color2 cur ∧
    (∀ x' y', (x', y') ≠ (x, y) → (x', y') ≠ second →
              cellAt committed x' y' = cellAt (Game.grid s) x' y') ∧
    movePuyo Down fresh1 fresh2 s = Next s' ∧
    checkForMatches fresh1 fresh2
      (Game.setCurrentPuyo None (Game.setGrid committed s)) committed = Next s' ∧
    Game.currentPuyo s' = Game.nextPuyo s ∧
    Game.nextPuyo s' = Some (generatePuyoPair fresh1 fresh2) ∧
    (scanMatches committed = Some (false, ∅) → Game.grid s' = committed).
Proof.
  intros Hreach Hact Hp Hcur Hrej x y second.
  destruct (reachable_landing s cur Hreach Hact Hcur Hrej) as (Hwf & Hr & Hv).
  apply isValidMove_true in Hv as (Hb1 & Hb2 & _). cbn zeta in Hb2.
  fold x y second in Hb1, Hb2.
  set (committed := setCell (setCell (Game.grid s) x y (PuyoPair.color1 cur))
                      second.1 second.2 (PuyoPair.color2 cur)).
  destruct (committed_cells (Game.grid s) cur Hwf Hr Hb1 second eq_refl Hb2
              committed eq_refl) as (Hwc & Hc1 & Hc2 & Hoth).
  destruct (checkForMatches_returns fresh1 fresh2
              (Game.setCurrentPuyo None (Game.setGrid committed s)) committed Hwc)
    as (g' & cc & sc & E & Hw' & _ & _ & Hcheck).
  exists committed. eexists.
  split; [done|]. split; [done|]. split; [done|]. split; [done|].
  split; [|split; [exact Hcheck|]].
  - rewrite (movePuyo_lands fresh1 fresh2 s cur) by done. exact Hcheck.
  - cbn zeta. split; [by destruct (rowOneOccupied g')|].
    split; [by destruct (rowOneOccupied g')|].
    intros Hstable.
    assert (g' = committed) as ->.
    { unfold chain_fuel in E. rewrite resolveChain_S, Hstable in E.
      cbn [mbind option_bind] in E. by inversion E. }
    by destruct (rowOneOccupied committed).
Qed.

Lemma reachable_gameOnStack : reachable gameOnStack.
Proof.
  unfold gameOnStack. eapply reachable_stateAfter. vm_compute. reflexivity.
Qed.

Lemma reachable_gameOnFloor : reachable gameOnFloor.
Proof.
  unfold gameOnFloor. eapply reachable_stateAfter. vm_compute. reflexivity.
Qed.

Lemma blocked_down_commits_in_place_witness :
  reachable gameOnStack ∧
  Game.gameState gameOnStack = Active ∧ Game.isPaused gameOnStack = false ∧
  Game.currentPuyo gameOnStack = Some (PuyoPair.mk (Some Blue) (Some Yellow) 2 5 0) ∧
  cellAt (Game.grid gameOnStack) 2 6 = Some Green ∧
  isValidMove (Game.grid gameOnStack)
    (shifted Down (PuyoPair.mk (Some Blue) (Some Yellow) 2 5 0)) = false ∧
  ∃ (committed : Grid) (s' : Game),
    cellAt committed 2 5 = Some Blue ∧
    cellAt committed 2 4 = Some Yellow ∧
    movePuyo Down Red Red gameOnStack = Next s' ∧
    Game.currentPuyo s' = Game.nextPuyo gameOnStack.
Proof.
  assert (Hact : Game.gameState gameOnStack = Active) by (vm_compute; reflexivity).
  assert (Hp : Game.isPaused gameOnStack = false) by (vm_compute; reflexivity).
  assert (Hcur : Game.currentPuyo gameOnStack
                 = Some (PuyoPair.mk (Some Blue) (Some Yellow) 2 5 0))
    by (vm_compute; reflexivity).
  assert (Hrej : isValidMove (Game.grid gameOnStack)
                   (shifted Down (PuyoPair.mk (Some Blue) (Some Yellow) 2 5 0)) = false)
    by (vm_compute; reflexivity).
  split; [apply reachable_gameOnStack|]. split; [exact Hact|]. split; [exact Hp|].
  split; [exact Hcur|]. split; [vm_compute; reflexivity|]. split; [exact Hrej|].
  destruct (blocked_down_commits_in_place Red Red gameOnStack _
              reachable_gameOnStack Hact Hp Hcur Hrej)
    as (committed & s' & _ & Hc1 & Hc2 & _ & Hmove & _ & Hnext & _).
  exists committed, s'. split; [exact Hc1|]. split; [exact Hc2|].
  split; [exact Hmove|exact Hnext].
Defined.

(** C10.  In every state of a run in which the game is active and not
    paused, when a down request is rejected and the falling piece is
    committed, its anchor cell and its second cell both lie inside the 12 by
    6 grid, and the two stores of [placePuyo] write existing cells of the
    matrix.  A piece in row 0 pointing up, whose second cell would be in row
    -1, is never committed: in such a state the down request is accepted. *)
Theorem landing_writes_in_bounds (s : Game) (cur : PuyoPair) :
  reachable s →
  Game.gameState s = Active → Game.isPaused s = false →
  Game.currentPuyo s = Some cur →
  isValidMove (Game.grid s) (shifted Down cur) = false →
  let x := PuyoPair.x cur in
  let y := PuyoPair.y cur in
  let second := getSecondPuyoPosition x y (PuyoPair.rotation cur) in
  (0 ≤ x ∧ x < GRID_COLS ∧ 0 ≤ y ∧ y < GRID_ROWS) ∧
  (0 ≤ second.1 ∧ second.1 < GRID_COLS ∧ 0 ≤ second.2 ∧ second.2 < GRID_ROWS) ∧
  (∃ g1 g2, storeCell (Game.grid s) x y (PuyoPair.color1 cur) = Stored g1 ∧
            storeCell g1 second.1 second.2 (PuyoPair.color2 cur) = Stored g2) ∧
  ¬ (y = 0 ∧ PuyoPair.rotation cur = 0).
Proof.
  intros Hreach Hact Hp Hcur Hrej x y second.
  destruct (reachable_landing s cur Hreach Hact Hcur Hrej) as (Hwf & Hr & Hv).
  apply isValidMove_true in Hv as (Hb1 & Hb2 & _). cbn zeta in Hb2.
  fold x y second in Hb1, Hb2.
  split; [done|]. split; [done|]. split.
  - eexists _, _. split; [by apply storeCell_in_bounds|].
    apply storeCell_in_bounds; [by apply wf_setCell|done].
  - intros [Hy Hr0]. unfold second in Hb2. rewrite Hr0, Hy in Hb2.
    cbn in Hb2. unfold in_bounds in Hb2. lia.
Qed.

Lemma landing_writes_in_bounds_witness :
  reachable gameOnFloor ∧
  Game.gameState gameOnFloor = Active ∧ Game.isPaused gameOnFloor = false ∧
  Game.currentPuyo gameOnFloor = Some (PuyoPair.mk (Some Red) (Some Green) 2 11 0) ∧
  isValidMove (Game.grid gameOnFloor)
    (shifted Down (PuyoPair.mk (Some Red) (Some Green) 2 11 0)) = false ∧
  (0 ≤ 2 ∧ 2 < GRID_COLS ∧ 0 ≤ 11 ∧ 11 < GRID_ROWS) ∧
  (0 ≤ 2 ∧ 2 < GRID_COLS ∧ 0 ≤ 11 - 1 ∧ 11 - 1 < GRID_ROWS).
Proof.
  assert (Hact : Game.gameState gameOnFloor = Active) by (vm_compute; reflexivity).
  assert (Hp : Game.isPaused gameOnFloor = false) by (vm_compute; reflexivity).
  assert (Hcur : Game.currentPuyo gameOnFloor
                 = Some (PuyoPair.mk (Some Red) (Some Green) 2 11 0))
    by (vm_compute; reflexivity).
  assert (Hrej : isValidMove (Game.grid gameOnFloor)
                   (shifted Down (PuyoPair.mk (Some Red) (Some Green) 2 11 0)) = false)
    by (vm_compute; reflexivity).
  split; [apply reachable_gameOnFloor|]. split; [exact Hact|]. split; [exact Hp|].
  split; [exact Hcur|]. split; [exact Hrej|].
  destruct (landing_writes_in_bounds gameOnFloor _
              reachable_gameOnFloor Hact Hp Hcur Hrej) as (Hb1 & Hb2 & _).
  split; [exact Hb1|exact Hb2].
Defined.

(** Outside the runs the stores are unguarded: on [blockedSpawn] the first
    store writes row 0 and the second one, at row -1, throws.  No run
    reaches that state. *)
Lemma blockedSpawn_throws :
  movePuyo Down Red Red blockedSpawn =
    Threw (Game.setGrid (setCell (Game.grid blockedSpawn) 2 0 (Some Red)) blockedSpawn).
Proof. vm_compute. reflexivity. Qed.

Lemma blockedSpawn_unreachable : ¬ reachable blockedSpawn.
Proof.
  intros Hreach. apply reachable_invariant in Hreach as [_ Hinv].
  destruct (Hinv eq_refl) as (Htop & _).
  destruct (Htop 2) as [_ Hrow1]; [done|]. vm_compute in Hrow1. done.
Qed.

(** * Further properties of the engine *)

(** ** The second cell and the turns *)

Lemma getSecondPuyoPosition_fallback (x y rotation : Z) :
  ¬ (0 ≤ rotation < 4) → getSecondPuyoPosition x y rotation = (x, y).
Proof.
  intros Hr. unfold getSecondPuyoPosition.
  destruct rotation as [|p|p]; [lia| |done].
  destruct p as [[p|p|]|[p|p|]|]; try done; lia.
Qed.

(** X1.  For an orientation in 0..3 the second cell is one step up, right,
    down or left of the anchor and is never the anchor itself; the four
    orientations give four different cells; for any other rotation value the
    [default] branch returns the anchor itself. *)
Theorem second_cell_is_a_neighbour (x y : Z) :
  (∀ rotation, 0 ≤ rotation < 4 →
     adjacent (x, y) (getSecondPuyoPosition x y rotation) ∧
     getSecondPuyoPosition x y rotation ≠ (x, y)) ∧
  (∀ r1 r2, 0 ≤ r1 < 4 → 0 ≤ r2 < 4 →
     getSecondPuyoPosition x y r1 = getSecondPuyoPosition x y r2 → r1 = r2) ∧
  (∀ rotation, ¬ (0 ≤ rotation < 4) → getSecondPuyoPosition x y rotation = (x, y)).
Proof.
  split; [|split].
  - intros rotation Hr. split; [by apply getSecondPuyoPosition_adjacent|].
    destruct (second_cell_cases x y rotation Hr)
      as [[_ E]|[[_ E]|[[_ E]|[_ E]]]]; rewrite E; intros [=]; lia.
  - intros r1 r2 H1 H2.
    destruct (second_cell_cases x y r1 H1)
      as [[-> E1]|[[-> E1]|[[-> E1]|[-> E1]]]];
    destruct (second_cell_cases x y r2 H2)
      as [[-> E2]|[[-> E2]|[[-> E2]|[-> E2]]]];
    cbn [getSecondPuyoPosition]; intros [=]; (done || lia).
  - intros rotation Hr. by apply getSecondPuyoPosition_fallback.
Qed.

Lemma second_cell_is_a_neighbour_witness :
  adjacent (2, 5) (getSecondPuyoPosition 2 5 3) ∧
  getSecondPuyoPosition 2 5 7 = (2, 5).
Proof.
  destruct (second_cell_is_a_neighbour 2 5) as (Hadj & _ & Hfall).
  split; [apply Hadj; lia|apply Hfall; lia].
Defined.

Lemma turned_back (cur : PuyoPair) :
  0 ≤ PuyoPair.rotation cur < 4 →
  turned TurnRight (turned TurnLeft cur) = cur ∧
  turned TurnLeft (turned TurnRight cur) = cur.
Proof.
  intros Hr. destruct cur as [c1 c2 x y r]. cbn [PuyoPair.rotation] in Hr.
  assert (r = 0 ∨ r = 1 ∨ r = 2 ∨ r = 3) as Hc by lia.
  destruct Hc as [-> | [-> | [-> | ->]]]; done.
Qed.

(** X2.  For a piece whose rotation is in 0..3: a turn keeps the rotation in
    0..3 and changes nothing else of the piece; a left turn and a right turn
    cancel; four right turns, or four left turns, give the piece back; one
    left turn is three right turns. *)
Theorem turns_cycle_through_four_orientations (cur : PuyoPair) :
  0 ≤ PuyoPair.rotation cur < 4 →
  (∀ t, 0 ≤ PuyoPair.rotation (turned t cur) < 4 ∧
        PuyoPair.rotation (turned t cur) ≠ PuyoPair.rotation cur ∧
        PuyoPair.x (turned t cur) = PuyoPair.x cur ∧
        PuyoPair.y (turned t cur) = PuyoPair.y cur ∧
        PuyoPair.color1 (turned t cur) = PuyoPair.color1 cur ∧
        PuyoPair.color2 (turned t cur) = PuyoPair.color2 cur) ∧
  turned TurnRight (turned TurnLeft cur) = cur ∧
  turned TurnLeft (turned TurnRight cur) = cur ∧
  turned TurnRight (turned TurnRight (turned TurnRight (turned TurnRight cur))) = cur ∧
  turned TurnLeft (turned TurnLeft (turned TurnLeft (turned TurnLeft cur))) = cur ∧
  turned TurnLeft cur = turned TurnRight (turned TurnRight (turned TurnRight cur)).
Proof.
  intros Hr. destruct cur as [c1 c2 x y r]. cbn [PuyoPair.rotation] in Hr.
  assert (r = 0 ∨ r = 1 ∨ r = 2 ∨ r = 3) as Hc by lia.
  split; [intros t; destruct t|]; destruct Hc as [-> | [-> | [-> | ->]]]; done.
Qed.

Lemma turns_cycle_through_four_orientations_witness :
  0 ≤ PuyoPair.rotation pieceInMidAir < 4 ∧
  turned TurnRight (turned TurnLeft pieceInMidAir) = pieceInMidAir.
Proof.
  split; [done|].
  destruct (turns_cycle_through_four_orientations pieceInMidAir) as (_ & H & _);
    [done|exact H].
Defined.

(** ** Requests that are accepted, ignored or undone *)

Lemma shifted_back (cur : PuyoPair) :
  shifted Right (shifted Left cur) = cur ∧ shifted Left (shifted Right cur) = cur.
Proof.
  destruct cur as [c1 c2 x y r]. unfold shifted.
  cbn [PuyoPair.x PuyoPair.y PuyoPair.rotation PuyoPair.color1 PuyoPair.color2].
  rewrite !(bool_decide_eq_true_2 (Left = Left)) by done.
  rewrite !(bool_decide_eq_true_2 (Right = Right)) by done.
  rewrite !bool_decide_eq_false_2 by done.
  split; f_equal; lia.
Qed.

Lemma setCurrentPuyo_back (s : Game) (cur : PuyoPair) (p : option PuyoPair) :
  Game.currentPuyo s = Some cur →
  Game.setCurrentPuyo (Some cur) (Game.setCurrentPuyo p s) = s.
Proof. destruct s. cbn. by intros ->. Qed.

Lemma onlyPieceMoved_refl (s : Game) : onlyPieceMoved s s.
Proof. unfold onlyPieceMoved. by destruct (Game.currentPuyo s). Qed.

Lemma onlyPieceMoved_setCurrentPuyo (s : Game) (cur cur' : PuyoPair) :
  Game.currentPuyo s = Some cur →
  PuyoPair.color1 cur' = PuyoPair.color1 cur →
  PuyoPair.color2 cur' = PuyoPair.color2 cur →
  onlyPieceMoved s (Game.setCurrentPuyo (Some cur') s).
Proof. intros Hcur H1 H2. unfold onlyPieceMoved. cbn. by rewrite Hcur. Qed.

Lemma movePuyo_cases (d : Direction) (fresh1 fresh2 : Color) (s : Game) :
  movePuyo d fresh1 fresh2 s = Next s ∨
  ∃ cur, Game.currentPuyo s = Some cur ∧
         Game.gameState s = Active ∧ Game.isPaused s = false ∧
         ((isValidMove (Game.grid s) (shifted d cur) = true ∧
           movePuyo d fresh1 fresh2 s
             = Next (Game.setCurrentPuyo (Some (shifted d cur)) s)) ∨
          (isValidMove (Game.grid s) (shifted d cur) = false ∧ d = Down ∧
           movePuyo d fresh1 fresh2 s = placePuyo fresh1 fresh2 s)).
Proof.
  destruct (Game.currentPuyo s) as [cur|] eqn:Hcur;
    [|left; by apply movePuyo_idle].
  destruct (decide (Game.gameState s = Active)) as [Hact|Hact];
    [|left; apply movePuyo_inert; by left].
  destruct (Game.isPaused s) eqn:Hp; [left; apply movePuyo_inert; by right|].
  destruct (isValidMove (Game.grid s) (shifted d cur)) eqn:Hv.
  - right. exists cur. split; [done|]. split; [done|]. split; [done|]. left.
    split; [done|]. by apply movePuyo_accepts.
  - destruct (decide (d = Down)) as [->|Hd]; [|left; by eapply movePuyo_ignored].
    right. exists cur. split; [done|]. split; [done|]. split; [done|]. right.
    split; [done|]. split; [done|]. unfold movePuyo.
    rewrite Hcur, Hact, Hp, Hv.
    by rewrite bool_decide_eq_false_2 by (by intros H; apply H).
Qed.

Lemma rotatePuyo_cases (t : Turn) (s : Game) :
  rotatePuyo t s = Next s ∨
  ∃ cur, Game.currentPuyo s = Some cur ∧
         Game.gameState s = Active ∧ Game.isPaused s = false ∧
         isValidMove (Game.grid s) (turned t cur) = true ∧
         rotatePuyo t s = Next (Game.setCurrentPuyo (Some (turned t cur)) s).
Proof.
  destruct (Game.currentPuyo s) as [cur|] eqn:Hcur;
    [|left; by apply rotatePuyo_idle].
  destruct (decide (Game.gameState s = Active)) as [Hact|Hact];
    [|left; apply rotatePuyo_inert; by left].
  destruct (Game.isPaused s) eqn:Hp; [left; apply rotatePuyo_inert; by right|].
  destruct (isValidMove (Game.grid s) (turned t cur)) eqn:Hv;
    [|left; by eapply rotatePuyo_ignored].
  right. exists cur. split; [done|]. split; [done|]. split; [done|].
  split; [done|]. by apply rotatePuyo_accepts.
Qed.

(** X3.  A left, right or rotation request, and a down request that the
    validator accepts, never throw and never touch anything but the position
    and orientation of the falling piece: grid, score, game state, queued
    piece, chain counter and pause flag stay, and so do the two colours of
    the piece. *)
Theorem requests_only_move_the_piece (s : Game) :
  (∀ d fresh1 fresh2, d ≠ Down →
     ∃ s', movePuyo d fresh1 fresh2 s = Next s' ∧ onlyPieceMoved s s') ∧
  (∀ t, ∃ s', rotatePuyo t s = Next s' ∧ onlyPieceMoved s s') ∧
  (∀ cur fresh1 fresh2,
     Game.currentPuyo s = Some cur →
     isValidMove (Game.grid s) (shifted Down cur) = true →
     ∃ s', movePuyo Down fresh1 fresh2 s = Next s' ∧ onlyPieceMoved s s').
Proof.
  split; [|split].
  - intros d fresh1 fresh2 Hd.
    destruct (movePuyo_cases d fresh1 fresh2 s)
      as [E|(cur & Hcur & _ & _ & [[_ E]|(_ & -> & _)])]; [| |done].
    + exists s. split; [done|]. apply onlyPieceMoved_refl.
    + eexists. split; [exact E|]. by apply (onlyPieceMoved_setCurrentPuyo s cur).
  - intros t.
    destruct (rotatePuyo_cases t s) as [E|(cur & Hcur & _ & _ & _ & E)].
    + exists s. split; [done|]. apply onlyPieceMoved_refl.
    + eexists. split; [exact E|]. by apply (onlyPieceMoved_setCurrentPuyo s cur).
  - intros cur fresh1 fresh2 Hcur Hv.
    destruct (movePuyo_cases Down fresh1 fresh2 s)
      as [E|(cur' & Hcur' & _ & _ & [[_ E]|(Hrej & _)])].
    + exists s. split; [done|]. apply onlyPieceMoved_refl.
    + eexists. split; [exact E|]. by apply (onlyPieceMoved_setCurrentPuyo s cur').
    + rewrite Hcur in Hcur'. inversion Hcur'; subst cur'. congruence.
Qed.

Lemma requests_only_move_the_piece_witness :
  ∃ s', movePuyo Down Red Red gameAtWall = Next s' ∧ onlyPieceMoved gameAtWall s'.
Proof.
  destruct (requests_only_move_the_piece gameAtWall) as (_ & _ & Hdown).
  eapply Hdown; vm_compute; reflexivity.
Defined.

(** X4.  In an active, unpaused game whose falling piece sits at a position
    the validator accepts, an accepted left move is undone by a right move
    and an accepted right move by a left move; and, the rotation being in
    0..3, an accepted turn is undone by the opposite turn: the state after
    the pair of requests is the state before them. *)
Theorem accepted_request_is_undone_by_its_opposite (s : Game) (cur : PuyoPair) :
  Game.gameState s = Active → Game.isPaused s = false →
  Game.currentPuyo s = Some cur →
  isValidMove (Game.grid s) cur = true →
  0 ≤ PuyoPair.rotation cur < 4 →
  (∀ a1 a2 b1 b2,
     isValidMove (Game.grid s) (shifted Left cur) = true →
     ∃ s1, movePuyo Left a1 a2 s = Next s1 ∧ movePuyo Right b1 b2 s1 = Next s) ∧
  (∀ a1 a2 b1 b2,
     isValidMove (Game.grid s) (shifted Right cur) = true →
     ∃ s1, movePuyo Right a1 a2 s = Next s1 ∧ movePuyo Left b1 b2 s1 = Next s) ∧
  (isValidMove (Game.grid s) (turned TurnLeft cur) = true →
     ∃ s1, rotatePuyo TurnLeft s = Next s1 ∧ rotatePuyo TurnRight s1 = Next s) ∧
  (isValidMove (Game.grid s) (turned TurnRight cur) = true →
     ∃ s1, rotatePuyo TurnRight s = Next s1 ∧ rotatePuyo TurnLeft s1 = Next s).
Proof.
  intros Hact Hp Hcur Hv Hr.
  destruct (shifted_back cur) as [Hlr Hrl].
  destruct (turned_back cur Hr) as [Htlr Htrl].
  split; [|split; [|split]].
  - intros a1 a2 b1 b2 Hv1. eexists. split; [by apply movePuyo_accepts|].
    rewrite (movePuyo_accepts Right b1 b2 _ (shifted Left cur)); try done.
    + by rewrite Hlr, setCurrentPuyo_back.
    + cbn. by rewrite Hlr.
  - intros a1 a2 b1 b2 Hv1. eexists. split; [by apply movePuyo_accepts|].
    rewrite (movePuyo_accepts Left b1 b2 _ (shifted Right cur)); try done.
    + by rewrite Hrl, setCurrentPuyo_back.
    + cbn. by rewrite Hrl.
  - intros Hv1. eexists. split; [by apply rotatePuyo_accepts|].
    rewrite (rotatePuyo_accepts TurnRight _ (turned TurnLeft cur)); try done.
    + by rewrite Htlr, setCurrentPuyo_back.
    + cbn. by rewrite Htlr.
  - intros Hv1. eexists. split; [by apply rotatePuyo_accepts|].
    rewrite (rotatePuyo_accepts TurnLeft _ (turned TurnRight cur)); try done.
    + by rewrite Htrl, setCurrentPuyo_back.
    + cbn. by rewrite Htrl.
Qed.

Lemma accepted_request_is_undone_by_its_opposite_witness :
  Game.gameState gameAtWall = Active ∧ Game.isPaused gameAtWall = false ∧
  Game.currentPuyo gameAtWall = Some (PuyoPair.mk (Some Red) (Some Green) 0 1 0) ∧
  isValidMove (Game.grid gameAtWall) (PuyoPair.mk (Some Red) (Some Green) 0 1 0) = true ∧
  ∃ s1, movePuyo Right Red Red gameAtWall = Next s1 ∧
        movePuyo Left Red Red s1 = Next gameAtWall.
Proof.
  assert (Hact : Game.gameState gameAtWall = Active) by (vm_compute; reflexivity).
  assert (Hp : Game.isPaused gameAtWall = false) by (vm_compute; reflexivity).
  assert (Hcur : Game.currentPuyo gameAtWall
                 = Some (PuyoPair.mk (Some Red) (Some Green) 0 1 0))
    by (vm_compute; reflexivity).
  assert (Hv : isValidMove (Game.grid gameAtWall)
                 (PuyoPair.mk (Some Red) (Some Green) 0 1 0) = true)
    by (vm_compute; reflexivity).
  split; [exact Hact|]. split; [exact Hp|]. split; [exact Hcur|]. split; [exact Hv|].
  destruct (accepted_request_is_undone_by_its_opposite gameAtWall _ Hact Hp Hcur Hv)
    as (_ & Hright & _); [cbn; lia|].
  apply Hright. vm_compute. reflexivity.
Defined.

Lemma pointing_up_in_row_zero_invalid (g : Grid) (p : PuyoPair) :
  PuyoPair.y p = 0 → PuyoPair.rotation p = 0 → isValidMove g p = false.
Proof.
  intros Hy Hr. destruct (isValidMove g p) eqn:Hv; [|done].
  apply isValidMove_true in Hv as (_ & Hb & _). cbn zeta in Hb.
  rewrite Hy, Hr in Hb. cbn in Hb. unfold in_bounds in Hb. lia.
Qed.

(** X5.  A piece in row 0 that points up has its second cell in row -1, so
    the validator rejects it on every grid.  Hence a piece in row 0 that
    points up, such as a piece that has just been spawned, ignores left and
    right requests; and a piece in row 0 cannot be turned to point up. *)
Theorem piece_in_row_zero_pointing_up (s : Game) (cur : PuyoPair) :
  Game.currentPuyo s = Some cur → PuyoPair.y cur = 0 →
  (PuyoPair.rotation cur = 0 → ∀ g, isValidMove g cur = false) ∧
  (PuyoPair.rotation cur = 0 →
     ∀ d fresh1 fresh2, d ≠ Down → movePuyo d fresh1 fresh2 s = Next s) ∧
  (∀ t, PuyoPair.rotation (turned t cur) = 0 → rotatePuyo t s = Next s).
Proof.
  intros Hcur Hy. split; [|split].
  - intros Hr g. by apply pointing_up_in_row_zero_invalid.
  - intros Hr d fresh1 fresh2 Hd. apply (movePuyo_ignored d _ _ s cur); [done| |done].
    apply pointing_up_in_row_zero_invalid; [|done].
    unfold shifted. cbn [PuyoPair.y].
    by rewrite (bool_decide_eq_false_2 (d = Down)) by done.
  - intros t Ht. apply (rotatePuyo_ignored t s cur); [done|].
    by apply pointing_up_in_row_zero_invalid.
Qed.

Lemma piece_in_row_zero_pointing_up_witness :
  Game.currentPuyo (startGame Red Green Blue Yellow initialGame)
    = Some (generatePuyoPair Red Green) ∧
  PuyoPair.y (generatePuyoPair Red Green) = 0 ∧
  movePuyo Left Red Red (startGame Red Green Blue Yellow initialGame)
    = Next (startGame Red Green Blue Yellow initialGame).
Proof.
  split; [reflexivity|]. split; [reflexivity|].
  destruct (piece_in_row_zero_pointing_up
              (startGame Red Green Blue Yellow initialGame)
              (generatePuyoPair Red Green) eq_refl eq_refl) as (_ & Hmove & _).
  by apply Hmove.
Defined.

(** ** A game that is not running *)

Lemma run_app (events1 events2 : list Event) (s s1 : Game) :
  run events1 s = Next s1 → run (events1 ++ events2) s = run events2 s1.
Proof.
  revert s. induction events1 as [|e events1 IH]; intros s Hrun.
  - cbn in Hrun. by inversion Hrun.
  - cbn [run app] in *. destruct (handle e s) as [s'| | |]; try done.
    by apply IH.
Qed.

Lemma run_requests_idle (events : list Event) (s : Game) :
  Forall isRequest events →
  Game.gameState s ≠ Active ∨ Game.isPaused s = true ∨ Game.currentPuyo s = None →
  run events s = Next s.
Proof.
  intros Hall Hidle. induction Hall as [|e events He _ IH]; [done|].
  cbn [run]. assert (handle e s = Next s) as ->; [|done].
  destruct e as [| |d f1 f2|t]; try done; cbn [handle].
  - destruct Hidle as [?|[?|?]];
      [apply movePuyo_inert; by left|apply movePuyo_inert; by right|
       by apply movePuyo_idle].
  - destruct Hidle as [?|[?|?]];
      [apply rotatePuyo_inert; by left|apply rotatePuyo_inert; by right|
       by apply rotatePuyo_idle].
Qed.

Lemma togglePause_twice (s : Game) : togglePause (togglePause s) = s.
Proof. destruct s as [g st sc cur nxt cc []]; reflexivity. Qed.

(** X6.  Any sequence of move and rotation requests leaves the whole state
    as it is when the game is not active, is paused or has no falling piece.
    So pausing an unpaused game, sending any such requests and unpausing
    gives back exactly the state before the pause. *)
Theorem requests_leave_an_idle_game_alone (events : list Event) (s : Game) :
  Forall isRequest events →
  (Game.gameState s ≠ Active ∨ Game.isPaused s = true ∨ Game.currentPuyo s = None →
     run events s = Next s) ∧
  (Game.isPaused s = false →
     run (EvTogglePause :: events ++ [EvTogglePause]) s = Next s).
Proof.
  intros Hall. split; [by apply run_requests_idle|].
  intros Hp. cbn [run handle].
  rewrite (run_app events [EvTogglePause] (togglePause s) (togglePause s)).
  - cbn [run handle]. by rewrite togglePause_twice.
  - apply run_requests_idle; [done|]. right; left.
    unfold togglePause. cbn. by rewrite Hp.
Qed.

Lemma requests_leave_an_idle_game_alone_witness :
  Forall isRequest [EvMove Down Red Red; EvRotate TurnLeft; EvMove Left Red Red] ∧
  run (EvTogglePause ::
       [EvMove Down Red Red; EvRotate TurnLeft; EvMove Left Red Red]
       ++ [EvTogglePause]) gameOnStack = Next gameOnStack.
Proof.
  assert (Hall : Forall isRequest
            [EvMove Down Red Red; EvRotate TurnLeft; EvMove Left Red Red])
    by (repeat constructor).
  split; [exact Hall|].
  destruct (requests_leave_an_idle_game_alone _ gameOnStack Hall) as [_ Hpause].
  apply Hpause. vm_compute. reflexivity.
Defined.

(** ** Every run is safe *)

Lemma invariant_handle_returns (e : Event) (s : Game) :
  invariant s → ∃ s', handle e s = Next s'.
Proof.
  intros Hinv. destruct e as [a1 a2 b1 b2| |d f1 f2|t]; cbn [handle].
  - by eexists.
  - by eexists.
  - destruct (movePuyo_cases d f1 f2 s)
      as [E|(cur & Hcur & Hact & Hp & [[_ E]|(Hrej & -> & _)])];
      [by eexists|by eexists|].
    destruct (invariant_landing_piece s cur Hinv Hact Hcur Hrej)
      as (_ & _ & Hr & Hv).
    apply isValidMove_true in Hv as (Hb1 & Hb2 & _). cbn zeta in Hb2.
    destruct Hinv as [Hwf _].
    rewrite (movePuyo_lands f1 f2 s cur) by done. cbn zeta.
    set (committed := setCell _ _ _ _).
    assert (Hwc : wf_grid committed) by (unfold committed; by do 2 apply wf_setCell).
    destruct (checkForMatches_returns f1 f2
                (Game.setCurrentPuyo None (Game.setGrid committed s)) committed Hwc)
      as (g' & cc & sc & _ & _ & _ & _ & ->).
    by eexists.
  - destruct (rotatePuyo_cases t s) as [E|(cur & _ & _ & _ & _ & E)]; by eexists.
Qed.

Lemma run_returns (events : list Event) :
  ∀ s, reachable s → ∃ s', run events s = Next s' ∧ reachable s'.
Proof.
  induction events as [|e events IH]; intros s Hreach; [by exists s|].
  destruct (invariant_handle_returns e s (reachable_invariant s Hreach)) as [s1 E].
  cbn [run]. rewrite E. apply IH. by eapply reachable_next.
Qed.

(** X7.  No run fails: from every state of a run every event is handled to
    the end, without a [TypeError], without a store outside the matrix and
    with both loops returning.  So every sequence of events, from the
    initial state or from any state of a run, runs through. *)
Theorem runs_never_fail (s : Game) :
  reachable s →
  (∀ e, ∃ s', handle e s = Next s' ∧ reachable s') ∧
  (∀ events, ∃ s', run events s = Next s' ∧ reachable s') ∧
  (∀ events, ∃ s', run events initialGame = Next s').
Proof.
  intros Hreach. split; [|split].
  - intros e.
    destruct (invariant_handle_returns e s (reachable_invariant s Hreach)) as [s' E].
    exists s'. split; [done|]. by eapply reachable_next.
  - intros events. by apply run_returns.
  - intros events.
    destruct (run_returns events initialGame reachable_initial) as (s' & E & _).
    by exists s'.
Qed.

Lemma runs_never_fail_witness :
  reachable gameOnStack ∧
  ∃ s', handle (EvMove Down Red Red) gameOnStack = Next s' ∧ reachable s'.
Proof.
  split; [apply reachable_gameOnStack|].
  destruct (runs_never_fail gameOnStack reachable_gameOnStack) as (Hstep & _).
  apply Hstep.
Defined.

(** ** What every state of a run looks like *)

Lemma checkForMatches_gameState (fresh1 fresh2 : Color) (s s' : Game) (g : Grid) :
  checkForMatches fresh1 fresh2 s g = Next s' →
  (Game.gameState s' = Game.gameState s ∨ Game.gameState s' = Over) ∧
  ∃ chainCount g',
    resolveChain chain_fuel g 0 (Game.score s) = Some (g', chainCount, Game.score s') ∧
    Game.grid s' = g'.
Proof.
  unfold checkForMatches.
  destruct (resolveChain chain_fuel g 0 (Game.score s)) as [[[g' cc] sc]|]; [|done].
  intros [= <-]. destruct (rowOneOccupied g'); cbn; split; eauto.
Qed.

Lemma placePuyo_Next (fresh1 fresh2 : Color) (s s' : Game) :
  placePuyo fresh1 fresh2 s = Next s' →
  s' = s ∨
  ∃ g, checkForMatches fresh1 fresh2 (Game.setCurrentPuyo None (Game.setGrid g s)) g
       = Next s'.
Proof.
  unfold placePuyo. destruct (Game.currentPuyo s) as [cur|]; [|intros [= <-]; by left].
  destruct (getSecondPuyoPosition _ _ _) as [x2 y2].
  destruct (storeCell _ _ _ _) as [g1| |]; [|done..].
  destruct (storeCell g1 _ _ _) as [g2| |]; [|done..].
  intros E. right. by exists g2.
Qed.

Lemma handle_gameState (e : Event) (s s' : Game) :
  handle e s = Next s' →
  Game.gameState s' = Game.gameState s ∨ Game.gameState s' = Active ∨
  Game.gameState s' = Over.
Proof.
  destruct e as [a1 a2 b1 b2| |d f1 f2|t]; cbn [handle].
  - intros [= <-]. right; by left.
  - intros [= <-]. by left.
  - destruct (movePuyo_cases d f1 f2 s)
      as [E|(cur & Hcur & Hact & Hp & [[_ E]|(Hrej & -> & E)])]; rewrite E.
    + intros [= <-]. by left.
    + intros [= <-]. by left.
    + intros Hplace. apply placePuyo_Next in Hplace as [->|[g Hcheck]]; [by left|].
      apply checkForMatches_gameState in Hcheck as [[Hs|Hs] _]; [left|right; right];
        done.
  - destruct (rotatePuyo_cases t s) as [E|(cur & _ & _ & _ & _ & E)]; rewrite E;
      intros [= <-]; by left.
Qed.

Lemma reachable_never_Pause (s : Game) : reachable s → Game.gameState s ≠ Pause.
Proof.
  induction 1 as [|s e s' _ IH Hstep]; [done|].
  apply handle_gameState in Hstep as [Hs|[Hs|Hs]]; rewrite Hs; done.
Qed.

(** X8.  In every state of a run the grid has 12 rows of 6 cells and the
    game state is never ['pause'].  While the game is active: rows 0 and 1
    of the grid are empty; there is a falling piece and a queued piece, both
    with two colours, the queued one at the spawn position; the rotation of
    the falling piece is in 0..3; its anchor is a cell of the grid and that
    cell is empty; and its second cell is an empty cell of the grid too,
    unless the piece is the newly spawned one, whose second cell is above
    the grid. *)
Theorem run_invariants (s : Game) :
  reachable s →
  wf_grid (Game.grid s) ∧
  Game.gameState s ≠ Pause ∧
  (Game.gameState s = Active →
     topClear (Game.grid s) ∧
     ∃ cur nxt,
       Game.currentPuyo s = Some cur ∧ Game.nextPuyo s = Some nxt ∧
       solid cur ∧ solid nxt ∧ spawned nxt ∧
       0 ≤ PuyoPair.rotation cur < 4 ∧
       in_bounds (PuyoPair.x cur) (PuyoPair.y cur) ∧
       cellAt (Game.grid s) (PuyoPair.x cur) (PuyoPair.y cur) = None ∧
       ((in_bounds (getSecondPuyoPosition (PuyoPair.x cur) (PuyoPair.y cur)
                      (PuyoPair.rotation cur)).1
                   (getSecondPuyoPosition (PuyoPair.x cur) (PuyoPair.y cur)
                      (PuyoPair.rotation cur)).2 ∧
         cellAt (Game.grid s)
           (getSecondPuyoPosition (PuyoPair.x cur) (PuyoPair.y cur)
              (PuyoPair.rotation cur)).1
           (getSecondPuyoPosition (PuyoPair.x cur) (PuyoPair.y cur)
              (PuyoPair.rotation cur)).2 = None) ∨
        (spawned cur ∧
         getSecondPuyoPosition (PuyoPair.x cur) (PuyoPair.y cur)
           (PuyoPair.rotation cur) = (2, -1)))).
Proof.
  intros Hreach. destruct (reachable_invariant s Hreach) as [Hwf Hinv].
  split; [done|]. split; [by apply reachable_never_Pause|].
  intros Hact.
  destruct (Hinv Hact)
    as (Htop & (cur & Hcur & Hsolid & Hr & Hpos) & (nxt & Hnxt & Hsn & Hsp)).
  split; [done|]. exists cur, nxt.
  split; [done|]. split; [done|]. split; [done|]. split; [done|].
  split; [done|]. split; [done|].
  destruct Hpos as [(Hx & Hy & Hr0)|Hv].
  - rewrite Hx, Hy, Hr0. destruct (Htop 2) as [H0 _]; [done|].
    split; [done|]. split; [done|]. right. done.
  - apply isValidMove_true in Hv as (Hb1 & Hb2 & He1 & He2).
    split; [done|]. split; [done|]. by left.
Qed.

Lemma run_invariants_witness :
  reachable gameOnStack ∧ wf_grid (Game.grid gameOnStack) ∧
  Game.gameState gameOnStack ≠ Pause.
Proof.
  split; [apply reachable_gameOnStack|].
  destruct (run_invariants gameOnStack reachable_gameOnStack) as (Hwf & Hp & _).
  split; [exact Hwf|exact Hp].
Defined.

(** ** The score *)

Lemma handle_score (e : Event) (s s' : Game) :
  handle e s = Next s' →
  match e with
  | EvStart _ _ _ _ => Game.score s' = 0
  | _ => Game.score s ≤ Game.score s'
  end.
Proof.
  destruct e as [a1 a2 b1 b2| |d f1 f2|t]; cbn [handle].
  - by intros [= <-].
  - by intros [= <-].
  - destruct (movePuyo_cases d f1 f2 s)
      as [E|(cur & Hcur & Hact & Hp & [[_ E]|(Hrej & -> & E)])]; rewrite E.
    + by intros [= <-].
    + by intros [= <-].
    + intros Hplace. apply placePuyo_Next in Hplace as [->|[g Hcheck]]; [done|].
      apply checkForMatches_gameState in Hcheck as [_ (cc & g' & Hrun & _)].
      apply resolveChain_score_grows in Hrun as [Hle Hsc]; [|done].
      cbn in Hsc. lia.
  - destruct (rotatePuyo_cases t s) as [E|(cur & _ & _ & _ & _ & E)]; rewrite E;
      by intros [= <-].
Qed.

(** X9.  The score never goes down: an event other than a start leaves it
    as it is or raises it, a start sets it to 0; so in every state of a run
    the score is at least 0. *)
Theorem score_never_decreases (s : Game) :
  (∀ e s', handle e s = Next s' →
     match e with
     | EvStart _ _ _ _ => Game.score s' = 0
     | _ => Game.score s ≤ Game.score s'
     end) ∧
  (reachable s → 0 ≤ Game.score s).
Proof.
  split; [intros e s'; apply handle_score|].
  induction 1 as [|s e s' _ IH Hstep]; [done|].
  apply handle_score in Hstep. destruct e; lia.
Qed.

Lemma score_never_decreases_witness :
  reachable gameOnStack ∧ 0 ≤ Game.score gameOnStack.
Proof.
  split; [apply reachable_gameOnStack|].
  destruct (score_never_decreases gameOnStack) as [_ Hpos].
  apply Hpos, reachable_gameOnStack.
Defined.

(** ** Settled grids *)

Lemma settledColumn_stablePartition (col : list PuyoColor) :
  settledColumn (stablePartition col).
Proof.
  unfold settledColumn, stablePartition. rewrite filter_None_replicate.
  set (k := length (filter (λ c, c = None) col)).
  intros i c below Hi HSi.
  destruct (decide (i < k)%nat) as [Hlt|Hge].
  - rewrite lookup_app_l in Hi by (rewrite length_replicate; lia).
    apply lookup_replicate in Hi as [? _]. done.
  - rewrite lookup_app_r in HSi by (rewrite length_replicate; lia).
    assert (Hin : below ∈ filter (λ c : PuyoColor, c ≠ None) col).
    { apply list_elem_of_lookup. eauto. }
    by apply list_elem_of_filter in Hin as [Hne _].
Qed.

Lemma settledColumn_tail (c : PuyoColor) (col : list PuyoColor) :
  settledColumn (c :: col) → settledColumn col.
Proof. intros Hs i d below Hi HSi. by apply (Hs (S i) d below). Qed.

Lemma settledColumn_below (col : list PuyoColor) :
  ∀ c, settledColumn (Some c :: col) → Forall (λ d, d ≠ None) col.
Proof.
  induction col as [|d col IH]; intros c Hs; [done|].
  assert (Hd : d ≠ None) by by apply (Hs 0%nat c d).
  destruct d as [d|]; [|done]. constructor; [done|].
  apply (IH d). by eapply settledColumn_tail.
Qed.

Lemma filter_all_occupied (col : list PuyoColor) :
  Forall (λ d, d ≠ None) col →
  filter (λ c, c = None) col = [] ∧ filter (λ c, c ≠ None) col = col.
Proof.
  induction 1 as [|d col Hd _ [IH1 IH2]]; [done|].
  rewrite filter_cons_False by done. rewrite filter_cons_True by done.
  by rewrite IH1, IH2.
Qed.

Lemma settledColumn_fixed (col : list PuyoColor) :
  settledColumn col → stablePartition col = col.
Proof.
  induction col as [|[c|] col IH]; intros Hs; [done| |].
  - apply settledColumn_below in Hs as Hall.
    destruct (filter_all_occupied col Hall) as [H1 H2]. unfold stablePartition.
    rewrite filter_cons_False by done. rewrite filter_cons_True by done.
    by rewrite H1, H2.
  - apply settledColumn_tail in Hs. specialize (IH Hs). unfold stablePartition in *.
    rewrite filter_cons_True by done.
    rewrite filter_cons_False by (intros H; by apply H).
    cbn [app]. by rewrite IH.
Qed.

Lemma settled_columns (g : Grid) :
  wf_grid g →
  settled g ↔ ∀ x, 0 ≤ x < GRID_COLS → settledColumn (column g x).
Proof.
  intros Hwf.
  assert (Hlen : ∀ x, length (column g x) = 12%nat).
  { intros x. rewrite length_column. apply Hwf. }
  split.
  - intros Hs x Hx i c below Hi HSi.
    apply lookup_lt_Some in HSi as Hlt. rewrite Hlen in Hlt.
    assert (H1 : cellAt g x (Z.of_nat i) = Some c).
    { rewrite cellAt_column by lia. by rewrite Nat2Z.id, Hi. }
    assert (H2 : cellAt g x (Z.of_nat i + 1) = below).
    { rewrite cellAt_column by lia.
      replace (Z.to_nat (Z.of_nat i + 1)) with (S i) by lia. by rewrite HSi. }
    rewrite <- H2. apply Hs; [| |by rewrite H1];
      unfold in_bounds, GRID_ROWS, GRID_COLS in *; lia.
  - intros Hs x y Hb1 Hb2 Hc.
    destruct Hb1 as (? & ? & ? & ?), Hb2 as (_ & _ & _ & ?).
    rewrite cellAt_column in Hc |- * by lia.
    destruct (lookup_lt_is_Some_2 (column g x) (Z.to_nat y)) as [c Hi].
    { rewrite Hlen. unfold GRID_ROWS in *. lia. }
    destruct (lookup_lt_is_Some_2 (column g x) (Z.to_nat (y + 1))) as [below HSi].
    { rewrite Hlen. unfold GRID_ROWS in *. lia. }
    rewrite Hi in Hc. rewrite HSi. cbn in *.
    destruct c as [c|]; [|done].
    replace (Z.to_nat (y + 1)) with (S (Z.to_nat y)) in HSi by lia.
    by apply (Hs x ltac:(lia) (Z.to_nat y) c below).
Qed.

Lemma settled_applyGravity (g : Grid) : wf_grid g → settled (applyGravity g).
Proof.
  intros Hwf. destruct (applyGravity_columns g Hwf) as [Hw Hcols].
  apply settled_columns; [done|]. intros x Hx. rewrite Hcols by done.
  apply settledColumn_stablePartition.
Qed.

(** X10.  On a 12 by 6 grid gravity leaves no occupied cell above an empty
    one; it keeps the number of occupied cells; and the grids it leaves
    unchanged are exactly those in which no occupied cell is above an empty
    one. *)
Theorem applyGravity_settles (grid : Grid) :
  wf_grid grid →
  settled (applyGravity grid) ∧
  occupied (applyGravity grid) = occupied grid ∧
  (applyGravity grid = grid ↔ settled grid).
Proof.
  intros Hwf. split; [by apply settled_applyGravity|].
  split; [by apply occupied_applyGravity|]. split.
  - intros E. rewrite <- E. by apply settled_applyGravity.
  - intros Hs. destruct (applyGravity_columns grid Hwf) as [Hw Hcols].
    apply grid_ext_column; [done..|]. intros x Hx. rewrite Hcols by done.
    apply settledColumn_fixed. by apply settled_columns.
Qed.

Lemma applyGravity_settles_witness :
  wf_grid gridCascade ∧ settled (applyGravity gridCascade).
Proof.
  split; [split; [reflexivity|repeat constructor]|].
  destruct (applyGravity_settles gridCascade) as [Hs _];
    [split; [reflexivity|repeat constructor]|exact Hs].
Defined.

(** ** What the chain loop returns *)

Lemma resolveChain_progress (fuel : nat) :
  ∀ (g : Grid) (c sc : Z) g' c' sc',
    wf_grid g → 0 ≤ c →
    resolveChain fuel g c sc = Some (g', c', sc') →
    wf_grid g' ∧ (∀ p, ¬ qualifies g' p) ∧ c ≤ c' ∧
    (Z.of_nat (occupied g') + 4 * (c' - c) ≤ Z.of_nat (occupied g)) ∧
    (c' = c → g' = g ∧ sc' = sc) ∧
    (c < c' → settled g').
Proof.
  induction fuel as [|fuel IH]; intros g c sc g' c' sc' Hwf Hc; [done|].
  rewrite resolveChain_S.
  destruct (scanMatches g) as [[has M]|] eqn:E; [|done].
  cbn [mbind option_bind]. destruct has.
  - intros Hrun.
    destruct (clearing_pass_shrinks g M Hwf E) as (Hw & Hocc & Hfour).
    assert (Hc1 : 0 ≤ c + 1) by lia.
    destruct (resolveChain_score_grows _ _ _ _ _ _ _ Hc1 Hrun) as [Hle _].
    apply IH in Hrun as (Hw' & Hq & _ & Hocc' & Hsame & Hset); [|done|lia].
    split; [done|]. split; [done|]. split; [lia|]. split; [lia|].
    split; [lia|]. intros _.
    destruct (decide (c' = c + 1)) as [->|Hne]; [|apply Hset; lia].
    destruct (Hsame eq_refl) as [-> _].
    apply settled_applyGravity, wf_removeMatched; [done|].
    intros p Hp. apply qualifies_in_bounds with g.
    destruct (scanMatches_spec g) as (has & M' & E' & HM & _).
    rewrite E in E'. inversion E'; subst has M'. by apply HM.
  - intros [= <- <- <-]. split; [done|].
    split; [by eapply no_match_no_qualifying|]. split; [lia|]. split; [lia|].
    split; [done|lia].
Qed.

(** X11.  What the chain loop returns on a 12 by 6 grid, entered with a
    chain count of at least 0.  It returns: with the fuel of
    [checkForMatches], and with any fuel of 19 passes or more, it gives one
    and the same result, and no fuel gives another one.  The result is a
    12 by 6 grid without any group of four or more; a chain count raised by
    the number of clearing passes, which is at most 18; at least four
    occupied cells fewer, and at least 40 points more, for every clearing
    pass; the very same grid and score when no pass cleared; a grid without
    floating cells when some pass cleared.  Running the loop again on the
    returned grid changes nothing. *)
Theorem chain_loop_result (grid : Grid) (chainCount score : Z) :
  wf_grid grid → 0 ≤ chainCount →
  ∃ (newGrid : Grid) (chainCount' score' : Z),
    resolveChain chain_fuel grid chainCount score
      = Some (newGrid, chainCount', score') ∧
    (∀ fuel, (19 ≤ fuel)%nat →
       resolveChain fuel grid chainCount score = Some (newGrid, chainCount', score')) ∧
    (∀ fuel r, resolveChain fuel grid chainCount score = Some r →
       r = (newGrid, chainCount', score')) ∧
    wf_grid newGrid ∧
    (∀ p, ¬ qualifies newGrid p) ∧
    chainCount ≤ chainCount' ≤ chainCount + 18 ∧
    Z.of_nat (occupied newGrid) + 4 * (chainCount' - chainCount)
      ≤ Z.of_nat (occupied grid) ∧
    score + 40 * (chainCount' - chainCount) ≤ score' ∧
    (chainCount' = chainCount → newGrid = grid ∧ score' = score) ∧
    (chainCount < chainCount' → settled newGrid) ∧
    (∀ fuel2 chainCount2 score2,
       resolveChain (S fuel2) newGrid chainCount2 score2
         = Some (newGrid, chainCount2, score2)).
Proof.
  intros Hwf Hc.
  pose proof (occupied_bound grid Hwf) as Hb.
  change (Z.to_nat (GRID_ROWS * GRID_COLS)) with 72%nat in Hb.
  destruct (resolveChain_returns 19 grid chainCount score Hwf)
    as (newGrid & chainCount' & score' & Hrun & _); [lia|].
  assert (Hany : ∀ fuel, (19 ≤ fuel)%nat →
            resolveChain fuel grid chainCount score = Some (newGrid, chainCount', score')).
  { intros fuel Hfuel. by apply (resolveChain_fuel_mono 19 fuel). }
  exists newGrid, chainCount', score'.
  split; [apply Hany; change chain_fuel with 73%nat; lia|]. split; [exact Hany|].
  split.
  { intros fuel r Hr.
    apply (resolveChain_fuel_mono fuel (fuel + 19)) in Hr; [|lia].
    rewrite Hany in Hr by lia. by inversion Hr. }
  destruct (resolveChain_score_grows _ _ _ _ _ _ _ Hc Hrun) as [_ Hsc].
  destruct (resolveChain_progress _ _ _ _ _ _ _ Hwf Hc Hrun)
    as (Hw' & Hq & Hle & Hocc & Hsame & Hset).
  split; [done|]. split; [done|]. split; [lia|]. split; [done|].
  split; [done|]. split; [done|]. split; [done|].
  intros fuel2 c2 s2. rewrite resolveChain_S.
  destruct (scanMatches_spec newGrid) as (has & M & E & _ & Hhas & _).
  rewrite E. cbn [mbind option_bind]. destruct has; [|done].
  destruct Hhas as [Hhas _]. destruct (Hhas eq_refl) as [p Hp]. by destruct (Hq p).
Qed.

Lemma chain_loop_result_witness :
  wf_grid gridCascade ∧
  ∃ (newGrid : Grid) (chainCount' score' : Z),
    resolveChain chain_fuel gridCascade 0 0 = Some (newGrid, chainCount', score') ∧
    (∀ p, ¬ qualifies newGrid p) ∧ settled newGrid.
Proof.
  assert (Hwf : wf_grid gridCascade) by (split; [reflexivity|repeat constructor]).
  split; [exact Hwf|].
  assert (H0 : 0 ≤ 0) by lia.
  destruct (chain_loop_result gridCascade 0 0 Hwf H0)
    as (newGrid & chainCount' & score' & Hrun & _ & _ & _ & Hq & _ & _ & _ & _ & Hset & _).
  exists newGrid, chainCount', score'. split; [exact Hrun|]. split; [exact Hq|].
  apply Hset.
  assert (Hcomputed : resolveChain chain_fuel gridCascade 0 0
                      = Some (createEmptyGrid, 2, 145)) by (vm_compute; reflexivity).
  rewrite Hcomputed in Hrun. inversion Hrun. lia.
Defined.

(** ** Cells on landing *)

Lemma occupiedIn_insert_Some (col : list PuyoColor) (i : nat) (c : Color) :
  col !! i = Some None →
  occupiedIn (<[i := Some c]> col) = (occupiedIn col + 1)%nat.
Proof.
  unfold occupiedIn. revert i. induction col as [|d col IH]; intros i Hi.
  - by rewrite lookup_nil in Hi.
  - destruct i as [|i].
    + inversion Hi; subst d.
      change (<[0%nat := Some c]> (None :: col)) with (Some c :: col).
      rewrite filter_cons_True by done.
      rewrite filter_cons_False by (intros H; by apply H). cbn [length]. lia.
    + change (<[S i := Some c]> (d :: col)) with (d :: <[i := Some c]> col).
      specialize (IH i Hi). destruct d as [d|].
      * rewrite !(filter_cons_True (λ c, c ≠ None)) by done. cbn [length]. lia.
      * by rewrite !(filter_cons_False (λ c, c ≠ None)) by (intros H; by apply H).
Qed.

Lemma occupied_setCell_Some (g : Grid) (x y : Z) (c : Color) :
  wf_grid g → in_bounds x y → cellAt g x y = None →
  occupied (setCell g x y (Some c)) = (occupied g + 1)%nat.
Proof.
  intros Hwf Hb Hc. destruct (wf_cell g x y Hwf Hb) as (row & Hrow & Hcell).
  destruct Hb as (Hx0 & Hx1 & Hy0 & Hy1). unfold occupied. symmetry.
  apply (sum_list_change _ _ _ x).
  - apply NoDup_seqZ.
  - apply elem_of_seqZ. lia.
  - rewrite column_setCell_same by (done || lia). symmetry.
    apply occupiedIn_insert_Some. unfold column.
    by rewrite list_lookup_fmap, Hrow, Hc in *; cbn; rewrite Hcell.
  - intros x' Hin Hne. apply elem_of_seqZ in Hin.
    by rewrite column_setCell_other by lia.
Qed.

(** X12.  In every state of a run, a rejected down request of an active,
    unpaused game returns a state whose grid either has exactly two occupied
    cells more than before, with the score unchanged (nothing was cleared),
    or has at least two occupied cells fewer than before, with the score
    raised by at least 40 (something was cleared). *)
Theorem landing_adds_two_cells_or_clears (fresh1 fresh2 : Color) (s : Game)
    (cur : PuyoPair) :
  reachable s →
  Game.gameState s = Active → Game.isPaused s = false →
  Game.currentPuyo s = Some cur →
  isValidMove (Game.grid s) (shifted Down cur) = false →
  ∃ s', movePuyo Down fresh1 fresh2 s = Next s' ∧
        ((occupied (Game.grid s') = (occupied (Game.grid s) + 2)%nat ∧
          Game.score s' = Game.score s) ∨
         ((occupied (Game.grid s') + 2 ≤ occupied (Game.grid s))%nat ∧
          Game.score s + 40 ≤ Game.score s')).
Proof.
  intros Hreach Hact Hp Hcur Hrej.
  apply reachable_invariant in Hreach as Hinv.
  destruct (invariant_landing_piece s cur Hinv Hact Hcur Hrej)
    as (_ & [Hs1 Hs2] & Hr & Hv).
  destruct Hinv as [Hwf _].
  apply isValidMove_true in Hv as (Hb1 & Hb2 & He1 & He2). cbn zeta in Hb2, He2.
  rewrite (movePuyo_lands fresh1 fresh2 s cur) by done. cbn zeta.
  set (q := getSecondPuyoPosition _ _ _) in *.
  set (g1 := setCell (Game.grid s) (PuyoPair.x cur) (PuyoPair.y cur)
               (PuyoPair.color1 cur)).
  set (committed := setCell g1 q.1 q.2 (PuyoPair.color2 cur)).
  destruct (committed_cells (Game.grid s) cur Hwf Hr Hb1 q eq_refl Hb2
              committed eq_refl) as (Hwc & _).
  assert (Hocc : occupied committed = (occupied (Game.grid s) + 2)%nat).
  { destruct (PuyoPair.color1 cur) as [c1|] eqn:E1; [|done].
    destruct (PuyoPair.color2 cur) as [c2|] eqn:E2; [|done].
    unfold committed. rewrite occupied_setCell_Some; [| by apply wf_setCell |done|].
    - unfold g1. rewrite occupied_setCell_Some by done. lia.
    - unfold g1. rewrite cellAt_setCell_ne; [done|apply Hb1|apply Hb1|].
      destruct (second_cell_cases (PuyoPair.x cur) (PuyoPair.y cur) _ Hr)
        as [[_ E]|[[_ E]|[[_ E]|[_ E]]]]; fold q in E; rewrite E;
        cbn [fst snd]; intros [=]; lia. }
  destruct (checkForMatches_returns fresh1 fresh2
              (Game.setCurrentPuyo None (Game.setGrid committed s)) committed Hwc)
    as (g' & cc & sc & Hrun & _ & _ & _ & Hcheck).
  cbn [Game.score Game.setCurrentPuyo Game.setGrid] in Hrun.
  assert (H0 : 0 ≤ 0) by done.
  destruct (resolveChain_score_grows _ _ _ _ _ _ _ H0 Hrun) as [Hcc Hsc].
  destruct (resolveChain_progress _ _ _ _ _ _ _ Hwc H0 Hrun)
    as (_ & _ & _ & Hless & Hsame & _).
  eexists. split; [exact Hcheck|]. cbn zeta.
  assert (Hgrid : ∀ b : bool, Game.grid (if b then Game.setGameState Over
            (Game.mk g' (Game.gameState s) sc (Game.nextPuyo s)
               (Some (generatePuyoPair fresh1 fresh2)) 0 (Game.isPaused s))
          else Game.mk g' (Game.gameState s) sc (Game.nextPuyo s)
               (Some (generatePuyoPair fresh1 fresh2)) 0 (Game.isPaused s)) = g')
    by (by intros []).
  assert (Hscore : ∀ b : bool, Game.score (if b then Game.setGameState Over
            (Game.mk g' (Game.gameState s) sc (Game.nextPuyo s)
               (Some (generatePuyoPair fresh1 fresh2)) 0 (Game.isPaused s))
          else Game.mk g' (Game.gameState s) sc (Game.nextPuyo s)
               (Some (generatePuyoPair fresh1 fresh2)) 0 (Game.isPaused s)) = sc)
    by (by intros []).
  cbn [Game.gameState Game.nextPuyo Game.isPaused Game.setCurrentPuyo Game.setGrid].
  rewrite Hgrid, Hscore.
  destruct (decide (cc = 0)) as [->|Hne].
  - left. destruct (Hsame eq_refl) as [-> ->]. done.
  - right. lia.
Qed.

Lemma landing_adds_two_cells_or_clears_witness :
  reachable gameOnStack ∧
  ∃ s', movePuyo Down Red Red gameOnStack = Next s' ∧
        ((occupied (Game.grid s') = (occupied (Game.grid gameOnStack) + 2)%nat ∧
          Game.score s' = Game.score gameOnStack) ∨
         ((occupied (Game.grid s') + 2 ≤ occupied (Game.grid gameOnStack))%nat ∧
          Game.score gameOnStack + 40 ≤ Game.score s')).
Proof.
  split; [apply reachable_gameOnStack|].
  apply (landing_adds_two_cells_or_clears Red Red gameOnStack
           (PuyoPair.mk (Some Blue) (Some Yellow) 2 5 0) reachable_gameOnStack);
    vm_compute; reflexivity.
Defined.

(** ** Edge cases of the search *)

(** X13.  A call of [findConnectedPuyos] on a cell that is outside the
    grid, or does not hold the colour looked for, or is already in
    [visited], returns [visited] as it is; for a colour that is not [null]
    and with enough fuel any call returns a set that contains [visited], and
    every cell it added is a cell of the grid with that colour, connected to
    the start cell. *)
Theorem search_edge_cases (fuel : nat) (grid : Grid) (x y : Z) (visited : gset key) :
  (∀ color, ¬ enterable grid color visited x y →
     findConnectedPuyos_fuel (S fuel) grid x y color visited = Some visited) ∧
  (∀ c, (size (cells ∖ visited) < fuel)%nat →
     ∃ result,
       findConnectedPuyos_fuel fuel grid x y (Some c) visited = Some result ∧
       visited ⊆ result ∧
       ∀ q, q ∈ result → q ∉ visited →
            in_bounds q.1 q.2 ∧ cellAt grid q.1 q.2 = Some c ∧
            connected grid c (x, y) q).
Proof.
  split.
  - intros color Hn. rewrite findConnectedPuyos_fuel_S.
    match goal with |- context [if ?b then _ else _] => destruct b eqn:Hguard end;
      [done|]. by apply findConnectedPuyos_guard in Hguard.
  - intros c Hfuel.
    destruct (findConnectedPuyos_fuel_searches fuel grid c x y visited Hfuel)
      as (R & E & Hsub & _ & Hconn & _).
    exists R. split; [done|]. split; [done|]. intros q Hq Hnq.
    specialize (Hconn q Hq Hnq).
    destruct (connected_coloured_r grid c _ q Hconn) as [Hb Hc]. done.
Qed.

Lemma search_edge_cases_witness :
  findConnectedPuyos_fuel 1 gridL4 0 5 (Some Red) ∅ = Some ∅ ∧
  findConnectedPuyos_fuel 1 gridL4 (-1) 11 (Some Red) ∅ = Some ∅.
Proof.
  destruct (search_edge_cases 0 gridL4 0 5 ∅) as [H1 _].
  destruct (search_edge_cases 0 gridL4 (-1) 11 ∅) as [H2 _].
  split.
  - apply H1. intros (_ & Hc & _). vm_compute in Hc. done.
  - apply H2. intros (Hb & _). unfold in_bounds in Hb. lia.
Defined.

(** X14.  Started on a cell that holds colour [c], the search of
    [checkForMatches] returns the group of that cell: the start cell is in
    it, every cell in it is a cell of the grid that holds [c], the search
    started from any of these cells returns the same set, and the set has at
    most 72 cells. *)
Theorem search_returns_one_group_per_member (grid : Grid) (c : Color) (x y : Z) :
  in_bounds x y → cellAt grid x y = Some c →
  ∃ G, findConnectedPuyos grid x y (Some c) = Some G ∧
       (x, y) ∈ G ∧
       (size G ≤ 72)%nat ∧
       ∀ q, q ∈ G →
            in_bounds q.1 q.2 ∧ cellAt grid q.1 q.2 = Some c ∧
            findConnectedPuyos grid q.1 q.2 (Some c) = Some G.
Proof.
  intros Hb Hc. assert (Hp : coloured grid c (x, y)) by done.
  destruct (findConnectedPuyos_group grid c x y Hp) as (G & E & HG).
  assert (Hin : (x, y) ∈ G) by (apply HG; by constructor).
  exists G. split; [done|]. split; [done|]. split.
  - change 72%nat with (Z.to_nat (GRID_ROWS * GRID_COLS)). rewrite <- size_cells.
    apply subseteq_size. intros q Hq. apply elem_of_cells.
    apply HG in Hq. by destruct (connected_coloured_r grid c _ q Hq).
  - intros q Hq.
    assert (HGq : is_group grid c q G) by by eapply is_group_shift.
    destruct (qualifies_coloured grid c q G HGq Hq) as [Hbq Hcq].
    split; [done|]. split; [done|].
    destruct (findConnectedPuyos_group grid c q.1 q.2) as (G' & E' & HG').
    { by destruct q. }
    rewrite E'. f_equal. apply (is_group_unique grid c q); [|done].
    by destruct q.
Qed.

Lemma search_returns_one_group_per_member_witness :
  in_bounds 0 11 ∧ cellAt gridL4 0 11 = Some Red ∧
  ∃ G, findConnectedPuyos gridL4 0 11 (Some Red) = Some G ∧ (0, 11) ∈ G.
Proof.
  assert (Hb : in_bounds 0 11) by (unfold in_bounds, GRID_ROWS, GRID_COLS; lia).
  assert (Hc : cellAt gridL4 0 11 = Some Red) by (vm_compute; reflexivity).
  split; [exact Hb|]. split; [exact Hc|].
  destruct (search_returns_one_group_per_member gridL4 Red 0 11 Hb Hc)
    as (G & E & Hin & _).
  exists G. split; [exact E|exact Hin].
Defined.

(** ** The stores of [placePuyo] outside the grid *)

Lemma storeCell_cases (g : Grid) (x y : Z) (c : PuyoColor) :
  wf_grid g →
  (¬ (0 ≤ y < GRID_ROWS) → storeCell g x y c = NoRow) ∧
  (0 ≤ y < GRID_ROWS → ¬ (0 ≤ x < GRID_COLS) → storeCell g x y c = OffRow).
Proof.
  intros Hwf. split.
  - intros Hy. unfold storeCell. case_bool_decide as H0; [|done].
    rewrite lookup_ge_None_2; [done|]. destruct Hwf as [-> _].
    unfold GRID_ROWS in *. lia.
  - intros Hy Hx. destruct (wf_row g y Hwf Hy) as (row & Hrow & Hlen).
    unfold storeCell. rewrite bool_decide_eq_true_2 by lia. rewrite Hrow.
    rewrite bool_decide_eq_false_2; [done|]. rewrite Hlen.
    unfold GRID_COLS in *. lia.
Qed.

(** X15.  [placePuyo] does not check where it writes.  On a 12 by 6 grid,
    with a falling piece: if the anchor row is outside 0..11 the first store
    throws and the state is untouched; if the anchor is in the grid and the
    row of the second cell is outside 0..11 the second store throws after
    the first has written [color1] into the grid of the state; if a row
    exists but the column is outside 0..5 the value is stored outside the
    matrix.  In particular a rejected down request for a piece in row 0 that
    points up ends in the [TypeError], with [color1] left in row 0. *)
Theorem placePuyo_outside_the_grid (fresh1 fresh2 : Color) (s : Game) (cur : PuyoPair) :
  wf_grid (Game.grid s) →
  Game.currentPuyo s = Some cur →
  let x := PuyoPair.x cur in
  let y := PuyoPair.y cur in
  let second := getSecondPuyoPosition x y (PuyoPair.rotation cur) in
  (¬ (0 ≤ y < GRID_ROWS) → placePuyo fresh1 fresh2 s = Threw s) ∧
  (0 ≤ y < GRID_ROWS → ¬ (0 ≤ x < GRID_COLS) →
     placePuyo fresh1 fresh2 s = Misshapen) ∧
  (in_bounds x y → ¬ (0 ≤ second.2 < GRID_ROWS) →
     placePuyo fresh1 fresh2 s =
       Threw (Game.setGrid (setCell (Game.grid s) x y (PuyoPair.color1 cur)) s)) ∧
  (in_bounds x y → 0 ≤ second.2 < GRID_ROWS → ¬ (0 ≤ second.1 < GRID_COLS) →
     placePuyo fresh1 fresh2 s = Misshapen) ∧
  (Game.gameState s = Active → Game.isPaused s = false →
   in_bounds x y → y = 0 → PuyoPair.rotation cur = 0 →
     movePuyo Down fresh1 fresh2 s = Next (Game.setCurrentPuyo (Some (shifted Down cur)) s) ∨
     movePuyo Down fresh1 fresh2 s =
       Threw (Game.setGrid (setCell (Game.grid s) x 0 (PuyoPair.color1 cur)) s)).
Proof.
  intros Hwf Hcur x y second.
  assert (Hplace : in_bounds x y → ¬ (0 ≤ second.2 < GRID_ROWS) →
     placePuyo fresh1 fresh2 s =
       Threw (Game.setGrid (setCell (Game.grid s) x y (PuyoPair.color1 cur)) s)).
  { intros Hb Hq. unfold placePuyo. rewrite Hcur. fold x y second.
    destruct second as [x2 y2] eqn:E. cbn [fst snd] in *.
    rewrite storeCell_in_bounds by done.
    destruct (storeCell_cases (setCell (Game.grid s) x y (PuyoPair.color1 cur))
                x2 y2 (PuyoPair.color2 cur)) as [-> _]; [by apply wf_setCell|done..]. }
  split; [|split; [|split; [|split]]].
  - intros Hy. unfold placePuyo. rewrite Hcur. fold x y second.
    destruct second as [x2 y2].
    by destruct (storeCell_cases (Game.grid s) x y (PuyoPair.color1 cur) Hwf) as [-> _].
  - intros Hy Hx. unfold placePuyo. rewrite Hcur. fold x y second.
    destruct second as [x2 y2].
    by destruct (storeCell_cases (Game.grid s) x y (PuyoPair.color1 cur) Hwf)
      as [_ ->].
  - exact Hplace.
  - intros Hb Hq2 Hq1. unfold placePuyo. rewrite Hcur. fold x y second.
    destruct second as [x2 y2] eqn:E. cbn [fst snd] in *.
    rewrite storeCell_in_bounds by done.
    by destruct (storeCell_cases (setCell (Game.grid s) x y (PuyoPair.color1 cur))
                x2 y2 (PuyoPair.color2 cur)) as [_ ->]; [by apply wf_setCell|..].
  - intros Hact Hp Hb Hy Hr.
    assert (Hthrow : placePuyo fresh1 fresh2 s =
       Threw (Game.setGrid (setCell (Game.grid s) x y (PuyoPair.color1 cur)) s)).
    { apply Hplace; [done|]. unfold second. rewrite Hr, Hy. cbn.
      unfold GRID_ROWS. lia. }
    rewrite Hy in Hthrow. unfold movePuyo. rewrite Hcur, Hact, Hp.
    rewrite bool_decide_eq_false_2 by (by intros H; apply H). cbn [orb].
    destruct (isValidMove _ _); [by left|right].
    by rewrite bool_decide_eq_true_2 by done.
Qed.

Lemma placePuyo_outside_the_grid_witness :
  wf_grid (Game.grid blockedSpawn) ∧
  Game.currentPuyo blockedSpawn = Some (generatePuyoPair Red Green) ∧
  placePuyo Red Red blockedSpawn =
    Threw (Game.setGrid (setCell (Game.grid blockedSpawn) 2 0 (Some Red)) blockedSpawn).
Proof.
  assert (Hwf : wf_grid (Game.grid blockedSpawn))
    by (split; [reflexivity|repeat constructor]).
  split; [exact Hwf|]. split; [reflexivity|].
  destruct (placePuyo_outside_the_grid Red Red blockedSpawn
              (generatePuyoPair Red Green) Hwf eq_refl) as (_ & _ & Hthrow & _).
  apply Hthrow.
  - unfold in_bounds, GRID_ROWS, GRID_COLS. cbn. lia.
  - cbn. unfold GRID_ROWS. lia.
Defined.

(** * The earlier version *)

Lemma earlier_movePuyo_cases (d : Direction) (fresh1 fresh2 : Color) (s : Game) :
  Earlier.movePuyo d fresh1 fresh2 s = Next s ∨
  ∃ cur, Game.currentPuyo s = Some cur ∧ Game.gameState s = Active ∧
         ((isValidMove (Game.grid s) (shifted d cur) = true ∧
           Earlier.movePuyo d fresh1 fresh2 s
             = Next (Game.setCurrentPuyo (Some (shifted d cur)) s)) ∨
          (isValidMove (Game.grid s) (shifted d cur) = false ∧ d = Down ∧
           Earlier.movePuyo d fresh1 fresh2 s = Earlier.placePuyo fresh1 fresh2 s)).
Proof.
  unfold Earlier.movePuyo.
  destruct (Game.currentPuyo s) as [cur|] eqn:Hcur; [|by left].
  case_bool_decide as Hact; [by left|].
  assert (Game.gameState s = Active) by (by destruct (Game.gameState s)).
  destruct (isValidMove (Game.grid s) (shifted d cur)) eqn:Hv.
  - right. exists cur. split; [done|]. split; [done|]. by left.
  - case_bool_decide as Hd; [|by left].
    right. exists cur. split; [done|]. split; [done|]. by right.
Qed.

Lemma earlier_rotatePuyo_cases (t : Turn) (s : Game) :
  Earlier.rotatePuyo t s = Next s ∨
  ∃ cur, Game.currentPuyo s = Some cur ∧ Game.gameState s = Active ∧
         isValidMove (Game.grid s) (turned t cur) = true ∧
         Earlier.rotatePuyo t s = Next (Game.setCurrentPuyo (Some (turned t cur)) s).
Proof.
  unfold Earlier.rotatePuyo.
  destruct (Game.currentPuyo s) as [cur|] eqn:Hcur; [|by left].
  case_bool_decide as Hact; [by left|].
  assert (Game.gameState s = Active) by (by destruct (Game.gameState s)).
  destruct (isValidMove (Game.grid s) (turned t cur)) eqn:Hv; [|by left].
  right. exists cur. done.
Qed.

(** A landing of the earlier version that returns: both stores hit the
    grid. *)
Lemma earlier_placePuyo_Next (fresh1 fresh2 : Color) (s s' : Game) (cur : PuyoPair) :
  wf_grid (Game.grid s) → Game.currentPuyo s = Some cur →
  Earlier.placePuyo fresh1 fresh2 s = Next s' →
  let q := getSecondPuyoPosition (PuyoPair.x cur) (PuyoPair.y cur)
             (PuyoPair.rotation cur) in
  in_bounds (PuyoPair.x cur) (PuyoPair.y cur) ∧ in_bounds q.1 q.2 ∧
  s' = Game.mk (setCell (setCell (Game.grid s) (PuyoPair.x cur) (PuyoPair.y cur)
                           (PuyoPair.color1 cur)) q.1 q.2 (PuyoPair.color2 cur))
               (Game.gameState s) (Game.score s) (Game.nextPuyo s)
               (Some (generatePuyoPair fresh1 fresh2)) (Game.chainCounter s)
               (Game.isPaused s).
Proof.
  intros Hwf Hcur. unfold Earlier.placePuyo. rewrite Hcur.
  destruct (getSecondPuyoPosition _ _ _) as [x2 y2]. cbn [fst snd].
  destruct (storeCell (Game.grid s) _ _ _) as [g1| |] eqn:E1; [|done..].
  apply storeCell_Stored_inv in E1 as [Hb1 ->]; [|done].
  destruct (storeCell _ x2 y2 _) as [g2| |] eqn:E2; [|done..].
  apply storeCell_Stored_inv in E2 as [Hb2 ->]; [|by apply wf_setCell].
  unfold Earlier.checkForMatches. cbn. by intros [= <-].
Qed.


Lemma earlierInvariant_handle (e : Earlier.Event) (s s' : Game) :
  earlierInvariant s → Earlier.handle e s = Next s' → earlierInvariant s'.
Proof.
  intros (Hwf & Hsc & Hov & Hinv) Hstep.
  destruct e as [a1 a2 b1 b2|d f1 f2|t]; cbn [Earlier.handle] in Hstep.
  - inversion Hstep; subst s'. split; [apply wf_createEmptyGrid|].
    split; [done|]. split; [done|]. intros _. cbn. split.
    + eexists. split; [done|]. split; [done|]. by left.
    + eexists. split; done.
  - destruct (earlier_movePuyo_cases d f1 f2 s)
      as [E|(cur & Hcur & Hact & [[Hv E]|(Hrej & -> & E)])]; rewrite E in Hstep.
    + by inversion Hstep; subst.
    + inversion Hstep; subst s'. split; [done|]. split; [done|]. split; [done|].
      intros _. destruct (Hinv Hact) as ((cur' & Hcur' & Hr & _) & Hnext).
      rewrite Hcur in Hcur'. inversion Hcur'; subst cur'.
      split; [|done]. exists (shifted d cur). split; [done|]. split; [done|].
      by right.
    + destruct (earlier_placePuyo_Next f1 f2 s s' cur Hwf Hcur Hstep)
        as (Hb1 & Hb2 & ->).
      split; [by do 2 apply wf_setCell|]. split; [done|]. split; [done|].
      intros _. cbn. destruct (Hinv Hact) as (_ & (nxt & Hnxt & Hsp)).
      split.
      * exists nxt. split; [done|]. split; [|by left].
        destruct Hsp as (_ & _ & ->). done.
      * eexists. split; done.
  - destruct (earlier_rotatePuyo_cases t s)
      as [E|(cur & Hcur & Hact & Hv & E)]; rewrite E in Hstep.
    + by inversion Hstep; subst.
    + inversion Hstep; subst s'. split; [done|]. split; [done|]. split; [done|].
      intros _. destruct (Hinv Hact) as ((cur' & Hcur' & Hr & _) & Hnext).
      rewrite Hcur in Hcur'. inversion Hcur'; subst cur'.
      split; [|done]. exists (turned t cur). split; [done|].
      split; [by apply turned_rotation|by right].
Qed.

Lemma earlier_reachable_invariant (s : Game) :
  Earlier.reachable s → earlierInvariant s.
Proof.
  induction 1 as [|s e s' _ IH Hstep].
  - split; [apply wf_createEmptyGrid|]. split; [done|]. split; [done|]. intros [=].
  - by eapply earlierInvariant_handle.
Qed.

Lemma earlier_reachable_run (events : list Earlier.Event) :
  ∀ s s', Earlier.reachable s → Earlier.run events s = Next s' → Earlier.reachable s'.
Proof.
  induction events as [|e events IH]; intros s s' Hr Hrun.
  - cbn in Hrun. by inversion Hrun; subst.
  - cbn [Earlier.run] in Hrun.
    destruct (Earlier.handle e s) as [s1| | |] eqn:He; try done.
    eapply IH; [|exact Hrun]. by eapply Earlier.reachable_next.
Qed.

Lemma earlier_reachable_gameStackedToTop : Earlier.reachable Earlier.gameStackedToTop.
Proof.
  unfold Earlier.gameStackedToTop, Earlier.stateAfter.
  match goal with |- context [Earlier.run ?ev ?s0] =>
    destruct (Earlier.run ev s0) as [s| | |] eqn:E;
      [eapply earlier_reachable_run; [apply Earlier.reachable_initial|exact E]|
       vm_compute in E; done..]
  end.
Qed.

(** X16.  The earlier version never clears, scores or ends a game: in every
    state of one of its runs the grid is 12 by 6, the score is 0 and the
    game state is not ['over']; and an event other than a start that is
    handled to the end leaves the score and the game state as they are and
    every occupied cell with the colour it has. *)
Theorem earlier_version_never_clears (s : Game) :
  Earlier.reachable s →
  wf_grid (Game.grid s) ∧ Game.score s = 0 ∧ Game.gameState s ≠ Over ∧
  ∀ e s', Earlier.handle e s = Next s' →
    match e with
    | Earlier.EvStart _ _ _ _ => Game.grid s' = createEmptyGrid
    | _ =>
        Game.score s' = Game.score s ∧ Game.gameState s' = Game.gameState s ∧
        ∀ x y, cellAt (Game.grid s) x y ≠ None →
               cellAt (Game.grid s') x y = cellAt (Game.grid s) x y
    end.
Proof.
  intros Hreach. destruct (earlier_reachable_invariant s Hreach)
    as (Hwf & Hsc & Hov & Hinv).
  split; [done|]. split; [done|]. split; [done|].
  intros e s' Hstep. destruct e as [a1 a2 b1 b2|d f1 f2|t]; cbn [Earlier.handle] in Hstep.
  - by inversion Hstep; subst.
  - destruct (earlier_movePuyo_cases d f1 f2 s)
      as [E|(cur & Hcur & Hact & [[Hv E]|(Hrej & -> & E)])]; rewrite E in Hstep.
    + by inversion Hstep; subst.
    + by inversion Hstep; subst.
    + destruct (earlier_placePuyo_Next f1 f2 s s' cur Hwf Hcur Hstep)
        as (Hb1 & Hb2 & ->). cbn. split; [done|]. split; [done|].
      destruct (Hinv Hact) as ((cur' & Hcur' & Hr & Hpos) & _).
      rewrite Hcur in Hcur'. inversion Hcur'; subst cur'.
      destruct Hpos as [(Hx & Hy & Hr0)|Hv].
      { rewrite Hx, Hy, Hr0 in Hb2. cbn in Hb2. unfold in_bounds in Hb2. lia. }
      apply isValidMove_true in Hv as (_ & _ & He1 & He2). cbn zeta in He2.
      intros x y Hc. rewrite !cellAt_setCell by (by apply wf_setCell || done).
      repeat case_decide; try done.
      * destruct (getSecondPuyoPosition _ _ _) as [x2 y2]. cbn [fst snd] in *.
        match goal with H : (_, _) = (x, y) |- _ => inversion H; subst end.
        by rewrite He2 in Hc.
      * match goal with H : (_, _) = (x, y) |- _ => inversion H; subst end.
        by rewrite He1 in Hc.
  - destruct (earlier_rotatePuyo_cases t s)
      as [E|(cur & Hcur & Hact & Hv & E)]; rewrite E in Hstep;
      by inversion Hstep; subst.
Qed.

Lemma earlier_version_never_clears_witness :
  Earlier.reachable Earlier.gameStackedToTop ∧
  Game.score Earlier.gameStackedToTop = 0 ∧
  Game.gameState Earlier.gameStackedToTop ≠ Over.
Proof.
  split; [apply earlier_reachable_gameStackedToTop|].
  destruct (earlier_version_never_clears Earlier.gameStackedToTop
              earlier_reachable_gameStackedToTop) as (_ & Hsc & Hov & _).
  split; [exact Hsc|exact Hov].
Defined.

(** X17.  In the earlier version a stack that has reached the top makes the
    next down request throw: in a state of a run in which the game is active,
    the falling piece is a newly spawned one and the cell below it, in row 1,
    or its own cell in row 0 is occupied, the down request is rejected, the
    first store writes [color1] into row 0 and the second store, at row -1,
    throws a [TypeError].  Such a state is reached by stacking six pieces in
    the spawn column. *)
Theorem earlier_version_throws_at_the_top (fresh1 fresh2 : Color) (s : Game)
    (cur : PuyoPair) :
  Earlier.reachable s →
  Game.gameState s = Active →
  Game.currentPuyo s = Some cur → spawned cur →
  cellAt (Game.grid s) 2 1 ≠ None ∨ cellAt (Game.grid s) 2 0 ≠ None →
  Earlier.movePuyo Down fresh1 fresh2 s =
    Threw (Game.setGrid (setCell (Game.grid s) 2 0 (PuyoPair.color1 cur)) s).
Proof.
  intros Hreach Hact Hcur (Hx & Hy & Hr) Hocc.
  destruct (earlier_reachable_invariant s Hreach) as (Hwf & _).
  assert (Hrej : isValidMove (Game.grid s) (shifted Down cur) = false).
  { destruct (isValidMove _ _) eqn:Hv; [|done].
    apply isValidMove_true in Hv as (_ & _ & He1 & He2). revert He1 He2.
    unfold shifted. cbn. rewrite Hx, Hy, Hr. cbn. intros He1 He2.
    by destruct Hocc as [Hc|Hc]. }
  unfold Earlier.movePuyo. rewrite Hcur, Hact, Hrej.
  rewrite bool_decide_eq_false_2 by (by intros H; apply H).
  rewrite bool_decide_eq_true_2 by done.
  unfold Earlier.placePuyo. rewrite Hcur, Hx, Hy, Hr. cbn [getSecondPuyoPosition].
  rewrite storeCell_in_bounds by done.
  destruct (storeCell_cases (setCell (Game.grid s) 2 0 (PuyoPair.color1 cur))
              2 (0 - 1) (PuyoPair.color2 cur)) as [Hno _]; [by apply wf_setCell|].
  rewrite Hno; [done|]. unfold GRID_ROWS. lia.
Qed.

Lemma earlier_version_throws_at_the_top_witness :
  Earlier.reachable Earlier.gameStackedToTop ∧
  Game.gameState Earlier.gameStackedToTop = Active ∧
  Game.currentPuyo Earlier.gameStackedToTop = Some (generatePuyoPair Red Green) ∧
  spawned (generatePuyoPair Red Green) ∧
  cellAt (Game.grid Earlier.gameStackedToTop) 2 1 ≠ None ∧
  Earlier.movePuyo Down Red Red Earlier.gameStackedToTop =
    Threw (Game.setGrid
             (setCell (Game.grid Earlier.gameStackedToTop) 2 0 (Some Red))
             Earlier.gameStackedToTop).
Proof.
  assert (Hact : Game.gameState Earlier.gameStackedToTop = Active)
    by (vm_compute; reflexivity).
  assert (Hcur : Game.currentPuyo Earlier.gameStackedToTop
                 = Some (generatePuyoPair Red Green)) by (vm_compute; reflexivity).
  assert (Hsp : spawned (generatePuyoPair Red Green)) by (repeat split).
  assert (Hocc : cellAt (Game.grid Earlier.gameStackedToTop) 2 1 ≠ None)
    by (vm_compute; discriminate).
  split; [apply earlier_reachable_gameStackedToTop|]. split; [exact Hact|].
  split; [exact Hcur|]. split; [exact Hsp|]. split; [exact Hocc|].
  apply (earlier_version_throws_at_the_top Red Red Earlier.gameStackedToTop
           (generatePuyoPair Red Green) earlier_reachable_gameStackedToTop
           Hact Hcur Hsp).
  by left.
Defined.

(** * The keyboard *)

Lemma lowerAscii_idem (a : Ascii.ascii) : lowerAscii (lowerAscii a) = lowerAscii a.
Proof. destruct a as [[] [] [] [] [] [] [] []]; reflexivity. Qed.

Lemma toLowerCase_idem (key : string) : toLowerCase (toLowerCase key) = toLowerCase key.
Proof.
  induction key as [|a key IH]; [done|]. cbn [toLowerCase].
  by rewrite lowerAscii_idem, IH.
Qed.

Lemma thenSound_moved (o : outcome) (frequency : Z) (duration : Q) (s : Game) :
  (∃ s', o = Next s' ∧ onlyPieceMoved s s') →
  ∃ s', thenSound s o frequency duration = (Next s', [(frequency, duration)]) ∧
        onlyPieceMoved s s'.
Proof. intros (s' & -> & Hm). by exists s'. Qed.

Lemma movePuyo_sideways_moved (d : Direction) (fresh1 fresh2 : Color) (s : Game) :
  d ≠ Down → ∃ s', movePuyo d fresh1 fresh2 s = Next s' ∧ onlyPieceMoved s s'.
Proof.
  intros Hd. destruct (movePuyo_cases d fresh1 fresh2 s)
    as [E|(cur & Hcur & _ & _ & [[_ E]|(_ & -> & _)])]; [| |done].
  - exists s. split; [done|]. apply onlyPieceMoved_refl.
  - eexists. split; [exact E|]. by apply (onlyPieceMoved_setCurrentPuyo s cur).
Qed.

Lemma rotatePuyo_moved (t : Turn) (s : Game) :
  ∃ s', rotatePuyo t s = Next s' ∧ onlyPieceMoved s s'.
Proof.
  destruct (rotatePuyo_cases t s) as [E|(cur & Hcur & _ & _ & _ & E)].
  - exists s. split; [done|]. apply onlyPieceMoved_refl.
  - eexists. split; [exact E|]. by apply (onlyPieceMoved_setCurrentPuyo s cur).
Qed.

(** X18.  The key handler does not tell upper case from lower case.  The
    Escape key toggles the pause flag in every state, running game or not,
    and nothing else.  While the game is paused every other key leaves the
    state as it is and asks for no sound; and a key that is none of Escape,
    a, d, s, o, p does nothing at any time. *)
Theorem keys_escape_and_unknown (key : string) (fresh1 fresh2 : Color) (s : Game) :
  handleKeyPress (toLowerCase key) fresh1 fresh2 s = handleKeyPress key fresh1 fresh2 s ∧
  (toLowerCase key = "escape" →
     handleKeyPress key fresh1 fresh2 s = (Next (togglePause s), [])) ∧
  (Game.isPaused s = true → toLowerCase key ≠ "escape" →
     handleKeyPress key fresh1 fresh2 s = (Next s, [])) ∧
  (toLowerCase key ∉ ["escape"; "a"; "d"; "s"; "o"; "p"] →
     handleKeyPress key fresh1 fresh2 s = (Next s, [])).
Proof.
  split; [|split; [|split]].
  - unfold handleKeyPress. by rewrite toLowerCase_idem.
  - intros E. unfold handleKeyPress. rewrite E. cbn. by destruct (Game.isPaused s).
  - intros Hp Hne. unfold handleKeyPress. rewrite Hp.
    by rewrite bool_decide_eq_false_2 by done.
  - intros Hnot. unfold handleKeyPress.
    rewrite !bool_decide_eq_false_2;
      [by destruct (Game.isPaused s)|
       intros E; apply Hnot; rewrite E; apply (bool_decide_unpack _);
       vm_compute; exact I..].
Qed.

Lemma keys_escape_and_unknown_witness :
  handleKeyPress "Escape" Red Red gameOnStack = (Next (togglePause gameOnStack), []) ∧
  handleKeyPress "D" Red Red (togglePause gameOnStack)
    = (Next (togglePause gameOnStack), []) ∧
  handleKeyPress "ArrowLeft" Red Red gameOnStack = (Next gameOnStack, []).
Proof.
  destruct (keys_escape_and_unknown "Escape" Red Red gameOnStack) as (_ & Hesc & _).
  destruct (keys_escape_and_unknown "D" Red Red (togglePause gameOnStack))
    as (_ & _ & Hpaused & _).
  destruct (keys_escape_and_unknown "ArrowLeft" Red Red gameOnStack)
    as (_ & _ & _ & Hother).
  split; [by apply Hesc|]. split.
  - apply Hpaused; [vm_compute; reflexivity|done].
  - apply Hother. apply (bool_decide_unpack _). vm_compute. exact I.
Defined.

Lemma hasRow_wf (g : Grid) (y : Z) :
  wf_grid g → hasRow g y = bool_decide (0 ≤ y < 12).
Proof.
  intros [Hlen _]. unfold hasRow. rewrite Hlen. apply bool_decide_ext.
  unfold GRID_ROWS. lia.
Qed.

(** On a 12 by 6 grid [placePuyo] comes back exactly when the rows of both
    of its stores exist. *)
Lemma placePuyo_cameBack (fresh1 fresh2 : Color) (s : Game) (cur : PuyoPair) :
  wf_grid (Game.grid s) → Game.currentPuyo s = Some cur →
  cameBack s (placePuyo fresh1 fresh2 s) =
    bool_decide (0 ≤ PuyoPair.y cur < 12 ∧
                 0 ≤ (getSecondPuyoPosition (PuyoPair.x cur) (PuyoPair.y cur)
                        (PuyoPair.rotation cur)).2 < 12).
Proof.
  intros Hwf Hcur.
  assert (Hmis : cameBack s Misshapen =
            bool_decide (0 ≤ PuyoPair.y cur < 12 ∧
                 0 ≤ (getSecondPuyoPosition (PuyoPair.x cur) (PuyoPair.y cur)
                        (PuyoPair.rotation cur)).2 < 12)).
  { unfold cameBack. rewrite Hcur. cbn zeta.
    destruct (getSecondPuyoPosition _ _ _) as [x2 y2]. cbn [snd].
    rewrite !hasRow_wf by done.
    repeat case_bool_decide; (reflexivity || lia). }
  unfold placePuyo. rewrite Hcur. cbn zeta.
  destruct (getSecondPuyoPosition _ _ _) as [x2 y2] eqn:E. cbn [snd] in *.
  set (x := PuyoPair.x cur) in *. set (y := PuyoPair.y cur) in *.
  destruct (decide (0 ≤ y < GRID_ROWS)) as [Hy|Hy].
  - destruct (decide (0 ≤ x < GRID_COLS)) as [Hx|Hx].
    + rewrite storeCell_in_bounds by (done || (unfold in_bounds; lia)).
      assert (Hw1 : wf_grid (setCell (Game.grid s) x y (PuyoPair.color1 cur)))
        by (by apply wf_setCell).
      destruct (decide (0 ≤ y2 < GRID_ROWS)) as [Hy2|Hy2].
      * destruct (decide (0 ≤ x2 < GRID_COLS)) as [Hx2|Hx2].
        -- rewrite storeCell_in_bounds by (done || (unfold in_bounds; lia)).
           set (committed := setCell _ x2 y2 _).
           assert (Hwc : wf_grid committed) by (unfold committed; by apply wf_setCell).
           destruct (checkForMatches_returns fresh1 fresh2
                       (Game.setCurrentPuyo None (Game.setGrid committed s))
                       committed Hwc) as (g' & cc & sc & _ & _ & _ & _ & ->).
           cbn [cameBack]. rewrite bool_decide_eq_true_2; [done|].
           unfold GRID_ROWS in *. lia.
        -- destruct (storeCell_cases (setCell (Game.grid s) x y (PuyoPair.color1 cur))
                       x2 y2 (PuyoPair.color2 cur) Hw1) as [_ Hoff].
           rewrite Hoff by done. exact Hmis.
      * destruct (storeCell_cases (setCell (Game.grid s) x y (PuyoPair.color1 cur))
                    x2 y2 (PuyoPair.color2 cur) Hw1) as [Hno _].
        rewrite Hno by done. cbn [cameBack].
        rewrite bool_decide_eq_false_2; [done|]. unfold GRID_ROWS in *. lia.
    + destruct (storeCell_cases (Game.grid s) x y (PuyoPair.color1 cur) Hwf)
        as [_ Hoff].
      rewrite Hoff by done. exact Hmis.
  - destruct (storeCell_cases (Game.grid s) x y (PuyoPair.color1 cur) Hwf)
      as [Hno _].
    rewrite Hno by done. cbn [cameBack].
    rewrite bool_decide_eq_false_2; [done|]. unfold GRID_ROWS in *. lia.
Qed.

(** X19.  While the game is not paused each of the keys a, d, o and p asks
    for its sound (300 Hz for a move, 400 Hz for a turn, 0.1 s) whether or
    not the piece moved, also when no game is running, and changes at most
    the position and orientation of the falling piece.  The key s asks for
    its sound (200 Hz, 0.1 s) when the down request returns and for none
    when it throws; in every state of a run it returns and asks for the
    sound.  On a 12 by 6 grid, when the down request of an active game is
    rejected, the sound is asked for exactly when the rows of the anchor and
    of the second cell are rows of the grid, whatever their columns: a store
    outside the six cells of a row does not keep the handler from coming
    back. *)
Theorem keys_ask_for_a_sound (fresh1 fresh2 : Color) (s : Game) :
  Game.isPaused s = false →
  (∃ s', handleKeyPress "a" fresh1 fresh2 s = (Next s', [(300, 0.1%Q)]) ∧
         onlyPieceMoved s s') ∧
  (∃ s', handleKeyPress "d" fresh1 fresh2 s = (Next s', [(300, 0.1%Q)]) ∧
         onlyPieceMoved s s') ∧
  (∃ s', handleKeyPress "o" fresh1 fresh2 s = (Next s', [(400, 0.1%Q)]) ∧
         onlyPieceMoved s s') ∧
  (∃ s', handleKeyPress "p" fresh1 fresh2 s = (Next s', [(400, 0.1%Q)]) ∧
         onlyPieceMoved s s') ∧
  (Game.gameState s ≠ Active →
     handleKeyPress "a" fresh1 fresh2 s = (Next s, [(300, 0.1%Q)]) ∧
     handleKeyPress "s" fresh1 fresh2 s = (Next s, [(200, 0.1%Q)]) ∧
     handleKeyPress "p" fresh1 fresh2 s = (Next s, [(400, 0.1%Q)])) ∧
  (∀ s', movePuyo Down fresh1 fresh2 s = Next s' →
     handleKeyPress "s" fresh1 fresh2 s = (Next s', [(200, 0.1%Q)])) ∧
  (∀ s', movePuyo Down fresh1 fresh2 s = Threw s' →
     handleKeyPress "s" fresh1 fresh2 s = (Threw s', [])) ∧
  (reachable s →
     ∃ s', handleKeyPress "s" fresh1 fresh2 s = (Next s', [(200, 0.1%Q)])) ∧
  (wf_grid (Game.grid s) →
   ∀ cur, Game.gameState s = Active → Game.currentPuyo s = Some cur →
     isValidMove (Game.grid s) (shifted Down cur) = false →
     (handleKeyPress "s" fresh1 fresh2 s).2 =
       if bool_decide
            (0 ≤ PuyoPair.y cur < 12 ∧
             0 ≤ (getSecondPuyoPosition (PuyoPair.x cur) (PuyoPair.y cur)
                    (PuyoPair.rotation cur)).2 < 12)
       then [(200, 0.1%Q)] else []).
Proof.
  intros Hp. unfold handleKeyPress. rewrite Hp.
  change (toLowerCase "a") with "a". change (toLowerCase "d") with "d".
  change (toLowerCase "o") with "o". change (toLowerCase "p") with "p".
  change (toLowerCase "s") with "s".
  repeat match goal with
         | |- context [bool_decide (?a = ?b)] =>
             let v := eval vm_compute in (bool_decide (a = b)) in
             change (bool_decide (a = b)) with v
         end.
  cbv iota.
  split; [apply thenSound_moved; by apply movePuyo_sideways_moved|].
  split; [apply thenSound_moved; by apply movePuyo_sideways_moved|].
  split; [apply thenSound_moved; by apply rotatePuyo_moved|].
  split; [apply thenSound_moved; by apply rotatePuyo_moved|].
  split; [|split; [|split; [|split]]].
  - intros Hact. rewrite !movePuyo_inert by (by left).
    rewrite rotatePuyo_inert by (by left). split; [|split]; reflexivity.
  - intros s' E. by rewrite E.
  - intros s' E. by rewrite E.
  - intros Hreach.
    destruct (invariant_handle_returns (EvMove Down fresh1 fresh2) s
                (reachable_invariant s Hreach)) as [s' E].
    cbn [handle] in E. exists s'. by rewrite E.
  - intros Hwf cur Hact Hcur Hrej.
    assert (Hmove : movePuyo Down fresh1 fresh2 s = placePuyo fresh1 fresh2 s).
    { unfold movePuyo. rewrite Hcur, Hact, Hp, Hrej.
      rewrite bool_decide_eq_false_2 by (by intros H; apply H).
      by rewrite bool_decide_eq_true_2 by done. }
    rewrite Hmove. unfold thenSound. cbn [snd].
    by rewrite (placePuyo_cameBack fresh1 fresh2 s cur).
Qed.

Lemma keys_ask_for_a_sound_witness :
  Game.isPaused initialGame = false ∧
  handleKeyPress "a" Red Red initialGame = (Next initialGame, [(300, 0.1%Q)]) ∧
  (handleKeyPress "s" Red Red pieceOverTheEdge).2 = [(200, 0.1%Q)] ∧
  (handleKeyPress "s" Red Red blockedSpawn).2 = [].
Proof.
  split; [reflexivity|].
  destruct (keys_ask_for_a_sound Red Red initialGame eq_refl)
    as (_ & _ & _ & _ & Htitle & _).
  destruct (keys_ask_for_a_sound Red Red pieceOverTheEdge eq_refl)
    as (_ & _ & _ & _ & _ & _ & _ & _ & Hedge).
  destruct (keys_ask_for_a_sound Red Red blockedSpawn eq_refl)
    as (_ & _ & _ & _ & _ & _ & _ & _ & Hspawn).
  assert (Hwe : wf_grid (Game.grid pieceOverTheEdge))
    by (split; [reflexivity|repeat constructor]).
  assert (Hws : wf_grid (Game.grid blockedSpawn))
    by (split; [reflexivity|repeat constructor]).
  split; [|split].
  - destruct Htitle as (Ha & _); [discriminate|exact Ha].
  - rewrite (Hedge Hwe _ eq_refl eq_refl eq_refl). reflexivity.
  - rewrite (Hspawn Hws _ eq_refl eq_refl eq_refl). reflexivity.
Defined.

(** * The high score *)

Lemma saveHighScore_NaN (toString : Z → string) (score : Z) (p : Persisted) :
  Persisted.highScore p = NaN → saveHighScore toString score p = p.
Proof. intros Hh. unfold saveHighScore. by rewrite Hh. Qed.

Lemma saveHighScore_Num (toString : Z → string) (score h : Z) (p : Persisted) :
  Persisted.highScore p = Num h →
  (score ≤ h ∧ saveHighScore toString score p = p) ∨
  (h < score ∧
   saveHighScore toString score p = Persisted.mk (Num score) (Some (toString score))).
Proof.
  intros Hh. unfold saveHighScore. rewrite Hh. cbn [exceeds].
  case_bool_decide; [right|left]; split; (done || lia).
Qed.

Lemma runSaving_NaN (toString : Z → string) (events : list Event) :
  ∀ s p o p', Persisted.highScore p = NaN →
    runSaving toString events s p = (o, p') → p' = p.
Proof.
  induction events as [|e events IH]; intros s p o p' Hh; cbn [runSaving].
  - by intros [= _ <-].
  - destruct (handle e s) as [s1| | |]; try (by intros [= _ <-]).
    rewrite saveHighScore_NaN by done. by apply IH.
Qed.

Lemma runSaving_Num (toString : Z → string) (events : list Event) :
  ∀ s p o p' h, Persisted.highScore p = Num h →
    runSaving toString events s p = (o, p') →
    ∃ h', Persisted.highScore p' = Num h' ∧ h ≤ h' ∧
          (p' = p ∨ Persisted.stored p' = Some (toString h')) ∧
          (Game.score s ≤ h → ∀ s', o = Next s' → Game.score s' ≤ h').
Proof.
  induction events as [|e events IH]; intros s p o p' h Hh; cbn [runSaving].
  - intros [= <- <-]. exists h. split; [done|]. split; [lia|]. split; [by left|].
    by intros Hs s' [= <-].
  - destruct (handle e s) as [s1| | |] eqn:He;
      try (intros [= <- <-]; exists h; split; [done|]; split; [lia|];
           split; [by left|]; by intros _ s' [=]).
    intros Hrun.
    destruct (saveHighScore_Num toString (Game.score s1) h p Hh) as [[Hle E]|[Hlt E]];
      rewrite E in Hrun.
    + destruct (IH _ _ _ _ h Hh Hrun) as (h' & Hh' & Hge & Hst & Hsc).
      exists h'. split; [done|]. split; [done|]. split; [done|].
      intros _. by apply Hsc.
    + destruct (IH s1 (Persisted.mk (Num (Game.score s1)) (Some (toString (Game.score s1))))
                 o p' (Game.score s1) eq_refl Hrun) as (h' & Hh' & Hge & Hst & Hsc).
      exists h'. split; [done|]. split; [lia|]. split.
      * right. destruct Hst as [->|Hst]; [|done]. cbn in *. by inversion Hh'.
      * intros _. apply Hsc. lia.
Qed.

(** X20.  With the high score effect run after every event: a high score
    that is a number never goes down, is at least the score of the state the
    run ends in (when it was at least the score at the start), and either
    the stored item and the high score are untouched or the stored item is
    the text of the new high score. *)
Theorem high_score_follows_the_score (toString : Z → string) (events : list Event)
    (s : Game) (p : Persisted) (h : Z) (o : outcome) (p' : Persisted) :
  Persisted.highScore p = Num h →
  runSaving toString events s p = (o, p') →
  ∃ h', Persisted.highScore p' = Num h' ∧ h ≤ h' ∧
        (p' = p ∨ Persisted.stored p' = Some (toString h')) ∧
        (Game.score s ≤ h → ∀ s', o = Next s' → Game.score s' ≤ h').
Proof. apply runSaving_Num. Qed.

Lemma high_score_follows_the_score_witness :
  ∃ h', Persisted.highScore
          (runSaving (λ _, "40") [EvStart Red Green Blue Yellow] initialGame
             (Persisted.mk (Num 0) None)).2 = Num h' ∧ 0 ≤ h'.
Proof.
  destruct (high_score_follows_the_score (λ _, "40") [EvStart Red Green Blue Yellow]
              initialGame (Persisted.mk (Num 0) None) 0
              (runSaving (λ _, "40") [EvStart Red Green Blue Yellow] initialGame
                 (Persisted.mk (Num 0) None)).1
              (runSaving (λ _, "40") [EvStart Red Green Blue Yellow] initialGame
                 (Persisted.mk (Num 0) None)).2 eq_refl)
    as (h' & Hh & Hle & _); [reflexivity|].
  exists h'. split; [exact Hh|exact Hle].
Defined.

(** X21.  A stored high score that [parseInt] cannot read is never repaired:
    when the item in the local storage is a non-empty text for which
    [parseInt] returns [NaN], the high score after mounting is [NaN], and
    after any run it still is [NaN] and the stored item still is that text,
    whatever the scores reached ([score > NaN] is false).  A missing or
    empty item leaves the initial high score alone. *)
Theorem unreadable_high_score_stays (parseInt : string → JsNumber)
    (toString : Z → string) (text : string) (events : list Event) (s : Game) :
  text ≠ "" → parseInt text = NaN →
  loadHighScore parseInt (Persisted.mk (Num 0) (Some text))
    = Persisted.mk NaN (Some text) ∧
  (runSaving toString events s
     (loadHighScore parseInt (Persisted.mk (Num 0) (Some text)))).2
    = Persisted.mk NaN (Some text) ∧
  loadHighScore parseInt (Persisted.mk (Num 0) None) = Persisted.mk (Num 0) None ∧
  loadHighScore parseInt (Persisted.mk (Num 0) (Some ""))
    = Persisted.mk (Num 0) (Some "").
Proof.
  intros Hne Hnan.
  assert (Hload : loadHighScore parseInt (Persisted.mk (Num 0) (Some text))
                  = Persisted.mk NaN (Some text)).
  { unfold loadHighScore. cbn. rewrite bool_decide_eq_false_2 by done.
    by rewrite Hnan. }
  split; [done|]. split; [|done]. rewrite Hload.
  destruct (runSaving toString events s (Persisted.mk NaN (Some text)))
    as [o p'] eqn:E.
  by apply runSaving_NaN in E.
Qed.

Lemma unreadable_high_score_stays_witness :
  (runSaving (λ _, "0") [EvStart Red Green Blue Yellow] initialGame
     (loadHighScore (λ _, NaN) (Persisted.mk (Num 0) (Some "abc")))).2
    = Persisted.mk NaN (Some "abc").
Proof.
  destruct (unreadable_high_score_stays (λ _, NaN) (λ _, "0") "abc"
              [EvStart Red Green Blue Yellow] initialGame) as (_ & H & _);
    [done|reflexivity|exact H].
Defined.
